(** * GODBRAIN core engine: a shallow embedding and its verification

    The development follows the C++ headers of the engine:

    - [Types]      : [types.hpp]            (fixed-point units, enums, records)
    - [SPSC]       : [lock_free_queue.hpp]  (single-producer ring buffer)
    - [MPSC]       : [lock_free_queue.hpp]  (multi-producer queue, thread by thread)
    - [Pool]       : [memory_pool.hpp]      (fixed-size object pool)
    - [Arena]      : [memory_pool.hpp]      (bump allocator)
    - [Book]       : [orderbook.hpp]        (25-level orderbook and analytics)
    - [Engine]     : [execution_engine.hpp] (orders, risk gates, positions)
    - [Simd]       : [simd.hpp]             (total liquidity, both builds)

    Machine integers are mathematical integers with the wrap-around of the
    C++ type written out ([wrap64] for [int64_t], [wrapU64] for [size_t] and
    [uint64_t]); [double] is IEEE-754 binary64 as specified by the Standard
    Library's [SpecFloat]. The threads of the multi-producer queue are
    interleaved access by access. *)

From Stdlib Require Import ZArith Lia List Bool String Ascii.
From Stdlib Require Import SpecFloat.
From Stdlib Require QArith.
From stdpp Require Import base option list gmap strings fin_maps.


(* ===================================================================== *)
(** * types.hpp *)
(* ===================================================================== *)

Module Types.
Local Open Scope Z_scope.

(** ** Machine integers *)

Definition INT64_MIN : Z := - 2 ^ 63.
Definition INT64_MAX : Z := 2 ^ 63 - 1.

(** Two's complement reduction into [int64_t]. Signed overflow is undefined
    behaviour in C++; the model gives it the value every mainstream target
    produces. *)
Definition wrap64 (z : Z) : Z := (z + 2 ^ 63) mod 2 ^ 64 - 2 ^ 63.

(** Reduction into [size_t] / [uint64_t]. *)
Definition wrapU64 (z : Z) : Z := z mod 2 ^ 64.

(** Reduction into [int] (32 bits). *)
Definition wrap32 (z : Z) : Z := (z + 2 ^ 31) mod 2 ^ 32 - 2 ^ 31.

Definition in_int64 (z : Z) : Prop := INT64_MIN <= z <= INT64_MAX.

Definition add64 (a b : Z) : Z := wrap64 (a + b).
Definition sub64 (a b : Z) : Z := wrap64 (a - b).
Definition mul64 (a b : Z) : Z := wrap64 (a * b).
Definition neg64 (a : Z) : Z := wrap64 (- a).
(** C++ integer division truncates toward zero. *)
Definition div64 (a b : Z) : Z := wrap64 (Z.quot a b).
(** [std::abs] on [int64_t]. *)
Definition abs64 (a : Z) : Z := if a <? 0 then neg64 a else a.
(** [std::min] on [int64_t]. *)
Definition min64 (a b : Z) : Z := if b <? a then b else a.

(** ** Time *)

Definition Timestamp := Z.

(** ** Price and quantity: fixed point *)

Definition PriceMicro := Z.
Definition QuantityNano := Z.

Definition PRICE_SCALE : Z := 1000000.
Definition QUANTITY_SCALE : Z := 1000000000.

(** ** double *)

Definition double := spec_float.
Definition dprec : Z := 53.
Definition demax : Z := 1024.

(** [static_cast<double>(z)] for an integer [z]: round to nearest, ties to
    even. *)
Definition double_of_int (z : Z) : double := binary_normalize dprec demax z 0 false.
Definition dmul : double -> double -> double := SFmul dprec demax.
Definition ddiv : double -> double -> double := SFdiv dprec demax.
(** [a <= b] on doubles; false as soon as one side is a NaN. *)
Definition dle : double -> double -> bool := SFleb.
Definition dlt : double -> double -> bool := SFltb.

(** [static_cast<int64_t>(x)]: truncation toward zero. A value that does
    not fit in [int64_t], a NaN and an infinity have no defined result in
    C++; the conversion instruction of x86-64 ([cvttsd2si]) returns
    [INT64_MIN] for them, and so does the model. *)
Definition int_of_double (x : double) : Z :=
  match x with
  | S754_zero _ => 0
  | S754_finite s m e =>
      let mag := match e with
                 | Z0 => Zpos m
                 | Zpos p => Z.shiftl (Zpos m) (Zpos p)
                 | Zneg p => Z.shiftr (Zpos m) (Zpos p)
                 end in
      let z := if s then - mag else mag in
      if (INT64_MIN <=? z) && (z <=? INT64_MAX) then z else INT64_MIN
  | S754_infinity _ | S754_nan => INT64_MIN
  end.

Definition to_price_micro (price : double) : PriceMicro :=
  int_of_double (dmul price (double_of_int PRICE_SCALE)).

Definition from_price_micro (price : PriceMicro) : double :=
  ddiv (double_of_int price) (double_of_int PRICE_SCALE).

Definition to_quantity_nano (qty : double) : QuantityNano :=
  int_of_double (dmul qty (double_of_int QUANTITY_SCALE)).

Definition from_quantity_nano (qty : QuantityNano) : double :=
  ddiv (double_of_int qty) (double_of_int QUANTITY_SCALE).

(** The literals [1.0] and [0.0]. *)
Definition d_one : double := double_of_int 1.
Definition d_zero : double := S754_zero false.

(** ** Order side and type *)

Inductive Side := BUY | SELL.
Inductive OrderType := MARKET | LIMIT | STOP_MARKET | STOP_LIMIT | TRAILING_STOP.
Inductive TimeInForce := GTC | IOC | FOK | GTD.
Inductive OrderStatus :=
  PENDING | OPEN | PARTIALLY_FILLED | FILLED | CANCELLED | REJECTED | EXPIRED.

Definition Side_eqb (a b : Side) : bool :=
  match a, b with BUY, BUY | SELL, SELL => true | _, _ => false end.

Definition is_market (t : OrderType) : bool :=
  match t with MARKET => true | _ => false end.

(** ** Symbol

    A [Symbol] is a 16-byte array holding at most 15 characters and a
    terminator; the engine only ever uses it through [view], the characters
    before the terminator. The model keeps that string. *)

Definition Symbol := string.

Fixpoint string_take (n : nat) (s : string) : string :=
  match n, s with
  | S n', String c s' => String c (string_take n' s')
  | _, _ => EmptyString
  end.

(** [Symbol(std::string_view)]: the first 15 characters. *)
Definition mk_Symbol (sv : string) : Symbol := string_take 15 sv.
Definition view (s : Symbol) : string := s.

(** ** Order *)

Definition OrderId := Z.

Record Order := mkOrder {
  id : OrderId;
  created_at : Timestamp;
  updated_at : Timestamp;
  symbol : Symbol;
  price : PriceMicro;
  stop_price : PriceMicro;
  quantity : QuantityNano;
  filled_qty : QuantityNano;
  side : Side;
  type : OrderType;
  tif : TimeInForce;
  status : OrderStatus
}.

(** [Order()]: value initialisation zeroes every member. *)
Definition Order_default : Order :=
  mkOrder 0 0 0 EmptyString 0 0 0 0 BUY MARKET GTC PENDING.

Definition remaining (o : Order) : QuantityNano := sub64 (quantity o) (filled_qty o).

Definition is_active (o : Order) : bool :=
  match status o with
  | OPEN | PARTIALLY_FILLED => true
  | _ => false
  end.

(** ** Position *)

Record Position := mkPosition {
  pos_symbol : Symbol;
  pos_quantity : QuantityNano;
  avg_entry_price : PriceMicro;
  unrealized_pnl : PriceMicro;
  realized_pnl : PriceMicro;
  opened_at : Timestamp;
  pos_updated_at : Timestamp
}.

Definition is_long (p : Position) : bool := 0 <? pos_quantity p.
Definition is_short (p : Position) : bool := pos_quantity p <? 0.
Definition is_flat (p : Position) : bool := pos_quantity p =? 0.

(** ** Risk parameters *)

Record RiskParams := mkRiskParams {
  max_position_size : double;
  max_drawdown : double;
  stop_loss_percent : double;
  take_profit_percent : double;
  max_open_orders : Z;
  max_daily_trades : Z
}.

(** The binary64 values of the decimal literals [0.1], [0.05], [0.02] and
    [0.03]. *)
Definition d_0_1 : double := S754_finite false 7205759403792794 (-56).
Definition d_0_05 : double := S754_finite false 7205759403792794 (-57).
Definition d_0_02 : double := S754_finite false 5764607523034235 (-58).
Definition d_0_03 : double := S754_finite false 8646911284551352 (-58).

Definition RiskParams_default : RiskParams :=
  mkRiskParams d_0_1 d_0_05 d_0_02 d_0_03 10 100.

(** ** Error codes *)

Inductive ErrorCode :=
  | OK | INVALID_SYMBOL | INVALID_QUANTITY | INVALID_PRICE | INSUFFICIENT_MARGIN
  | RISK_LIMIT_EXCEEDED | ORDER_NOT_FOUND | POSITION_NOT_FOUND | NETWORK_ERROR
  | TIMEOUT | RATE_LIMITED | INTERNAL_ERROR.

End Types.

(* ===================================================================== *)
(** * orderbook.hpp *)
(* ===================================================================== *)

Module Book.
Import Types.
Local Open Scope Z_scope.

Definition MAX_ORDERBOOK_LEVELS : nat := 25.

Record PriceLevel := mkPriceLevel {
  price : PriceMicro;
  quantity : QuantityNano;
  order_count : Z;
  padding : Z
}.

Definition PriceLevel_default : PriceLevel := mkPriceLevel 0 0 0 0.

Record Orderbook := mkOrderbook {
  bids_ : list PriceLevel;
  asks_ : list PriceLevel;
  bid_count_ : nat;
  ask_count_ : nat;
  sequence_ : Z;
  timestamp_ : Timestamp
}.

(** [Orderbook() = default]: both arrays hold 25 default levels. *)
Definition Orderbook_default : Orderbook :=
  mkOrderbook (replicate MAX_ORDERBOOK_LEVELS PriceLevel_default)
              (replicate MAX_ORDERBOOK_LEVELS PriceLevel_default)
              0 0 0 0.

(** [levels[i]] on a [std::array]; reading past the end is undefined, the
    model reads a default level there. *)
Definition level_at (levels : list PriceLevel) (i : nat) : PriceLevel :=
  default PriceLevel_default (levels !! i).

(** [memcpy(dst.data(), src, n * sizeof(PriceLevel))]. *)
Definition copy_levels (n : nat) (src dst : list PriceLevel) : list PriceLevel :=
  take n src ++ drop (length (take n src)) dst.

Definition update_snapshot (bids : list PriceLevel) (bid_count : nat)
    (asks : list PriceLevel) (ask_count : nat)
    (sequence : Z) (timestamp : Timestamp) (b : Orderbook) : Orderbook :=
  let bc := Nat.min bid_count MAX_ORDERBOOK_LEVELS in
  let ac := Nat.min ask_count MAX_ORDERBOOK_LEVELS in
  mkOrderbook (copy_levels bc bids (bids_ b)) (copy_levels ac asks (asks_ b))
              bc ac sequence timestamp.

(** [levels[level].price = price; levels[level].quantity = qty]. *)
Definition set_level (levels : list PriceLevel) (level : nat)
    (p : PriceMicro) (qty : QuantityNano) : list PriceLevel :=
  let old := level_at levels level in
  <[level := mkPriceLevel p qty (order_count old) (padding old)]> levels.

Definition update_bid (level : nat) (p : PriceMicro) (qty : QuantityNano)
    (b : Orderbook) : Orderbook :=
  if (level <? MAX_ORDERBOOK_LEVELS)%nat then
    mkOrderbook (set_level (bids_ b) level p qty) (asks_ b)
                (if (bid_count_ b <=? level)%nat then S level else bid_count_ b)
                (ask_count_ b) (sequence_ b) (timestamp_ b)
  else b.

Definition update_ask (level : nat) (p : PriceMicro) (qty : QuantityNano)
    (b : Orderbook) : Orderbook :=
  if (level <? MAX_ORDERBOOK_LEVELS)%nat then
    mkOrderbook (bids_ b) (set_level (asks_ b) level p qty)
                (bid_count_ b)
                (if (ask_count_ b <=? level)%nat then S level else ask_count_ b)
                (sequence_ b) (timestamp_ b)
  else b.

Definition best_bid (b : Orderbook) : PriceMicro :=
  if (0 <? bid_count_ b)%nat then price (level_at (bids_ b) 0) else 0.

Definition best_ask (b : Orderbook) : PriceMicro :=
  if (0 <? ask_count_ b)%nat then price (level_at (asks_ b) 0) else 0.

Definition mid_price (b : Orderbook) : PriceMicro :=
  div64 (add64 (best_bid b) (best_ask b)) 2.

Definition spread (b : Orderbook) : PriceMicro :=
  sub64 (best_ask b) (best_bid b).

(** The loop [for (i = 0; i < n; ++i) total += levels[i].quantity], written
    as a recursion on the number of iterations left; [i] is the loop index
    and [total] the accumulator. *)
Fixpoint liquidity_loop (levels : list PriceLevel) (n i : nat)
    (total : QuantityNano) : QuantityNano :=
  match n with
  | O => total
  | S n' => liquidity_loop levels n' (S i)
              (add64 total (quantity (level_at levels i)))
  end.

Definition total_bid_liquidity (levels : nat) (b : Orderbook) : QuantityNano :=
  liquidity_loop (bids_ b) (Nat.min levels (bid_count_ b)) 0 0.

Definition total_ask_liquidity (levels : nat) (b : Orderbook) : QuantityNano :=
  liquidity_loop (asks_ b) (Nat.min levels (ask_count_ b)) 0 0.

Definition imbalance (levels : nat) (b : Orderbook) : double :=
  let bid_liq := total_bid_liquidity levels b in
  let ask_liq := total_ask_liquidity levels b in
  let total := add64 bid_liq ask_liq in
  if total =? 0 then d_zero
  else ddiv (double_of_int (sub64 bid_liq ask_liq)) (double_of_int total).

(** Loop state of [estimate_execution_price]. *)
Record walk := mkWalk {
  w_remaining : QuantityNano;
  w_weighted_sum : PriceMicro;
  w_filled : QuantityNano
}.

(** [for (i = 0; i < count && remaining > 0; ++i) { ... }] with [n] the
    number of indices left below [count]. *)
Fixpoint walk_loop (levels : list PriceLevel) (n i : nat) (w : walk) : walk :=
  match n with
  | O => w
  | S n' =>
      if 0 <? w_remaining w then
        let lv := level_at levels i in
        let fill := min64 (w_remaining w) (quantity lv) in
        walk_loop levels n' (S i)
          (mkWalk (sub64 (w_remaining w) fill)
                  (add64 (w_weighted_sum w)
                         (div64 (mul64 (price lv) fill) QUANTITY_SCALE))
                  (add64 (w_filled w) fill))
      else w
  end.

Definition estimate_execution_price (s : Side) (qty : QuantityNano)
    (b : Orderbook) : PriceMicro :=
  let levels := match s with BUY => asks_ b | SELL => bids_ b end in
  let count := match s with BUY => ask_count_ b | SELL => bid_count_ b end in
  let w := walk_loop levels count 0 (mkWalk qty 0 0) in
  if 0 <? w_filled w
  then div64 (mul64 (w_weighted_sum w) QUANTITY_SCALE) (w_filled w)
  else 0.

(** *** The other accessors and analytics *)

Definition best_bid_size (b : Orderbook) : QuantityNano :=
  if (0 <? bid_count_ b)%nat then quantity (level_at (bids_ b) 0) else 0.

Definition best_ask_size (b : Orderbook) : QuantityNano :=
  if (0 <? ask_count_ b)%nat then quantity (level_at (asks_ b) 0) else 0.

(** [bids_[std::min(level, MAX_ORDERBOOK_LEVELS - 1)]]. *)
Definition bid (level : nat) (b : Orderbook) : PriceLevel :=
  level_at (bids_ b) (Nat.min level (MAX_ORDERBOOK_LEVELS - 1)).

Definition ask (level : nat) (b : Orderbook) : PriceLevel :=
  level_at (asks_ b) (Nat.min level (MAX_ORDERBOOK_LEVELS - 1)).

Definition bid_depth (b : Orderbook) : nat := bid_count_ b.
Definition ask_depth (b : Orderbook) : nat := ask_count_ b.
Definition sequence (b : Orderbook) : Z := sequence_ b.
Definition timestamp (b : Orderbook) : Timestamp := timestamp_ b.

(** The literal [100.0]. *)
Definition d_100 : double := double_of_int 100.

Definition spread_percent (b : Orderbook) : double :=
  let mid := mid_price b in
  if mid =? 0 then d_zero
  else dmul (ddiv (from_price_micro (spread b)) (from_price_micro mid)) d_100.

Definition estimate_slippage (s : Side) (qty : QuantityNano) (b : Orderbook)
    : double :=
  let exec_price := estimate_execution_price s qty b in
  let best := match s with BUY => best_ask b | SELL => best_bid b end in
  if best =? 0 then d_zero
  else
    let diff := from_price_micro (abs64 (sub64 exec_price best)) in
    dmul (ddiv diff (from_price_micro best)) d_100.

End Book.

(* ===================================================================== *)
(** * lock_free_queue.hpp: SPSCQueue *)
(* ===================================================================== *)

Module SPSC.
Import Types.
Local Open Scope Z_scope.

Section Queue.
Context {T : Type}.
(** Template parameter [Capacity]. *)
Variable Capacity : Z.

Definition MASK : Z := Capacity - 1.

Record SPSCQueue := mkSPSC {
  head_ : Z;
  tail_ : Z;
  buffer_ : list T
}.

(** The constructor: both indices zero, every slot default constructed. *)
Definition SPSCQueue_new (T_default : T) : SPSCQueue :=
  mkSPSC 0 0 (replicate (Z.to_nat Capacity) T_default).

Definition push (value : T) (q : SPSCQueue) : bool * SPSCQueue :=
  let head := head_ q in
  let next_head := Z.land (wrapU64 (head + 1)) MASK in
  if next_head =? tail_ q then (false, q)
  else (true, mkSPSC next_head (tail_ q) (<[Z.to_nat head := value]> (buffer_ q))).

Definition pop (q : SPSCQueue) : option T * SPSCQueue :=
  let tail := tail_ q in
  if tail =? head_ q then (None, q)
  else (buffer_ q !! Z.to_nat tail,
        mkSPSC (head_ q) (Z.land (wrapU64 (tail + 1)) MASK) (buffer_ q)).

Definition peek (q : SPSCQueue) : option T :=
  let tail := tail_ q in
  if tail =? head_ q then None else buffer_ q !! Z.to_nat tail.

Definition empty (q : SPSCQueue) : bool := head_ q =? tail_ q.

Definition size (q : SPSCQueue) : Z :=
  Z.land (wrapU64 (head_ q - tail_ q)) MASK.

Definition capacity : Z := Capacity - 1.

End Queue.
Arguments SPSCQueue T : clear implicits.

End SPSC.

(* ===================================================================== *)
(** * lock_free_queue.hpp: MPSCQueue *)
(* ===================================================================== *)

(** [push] and [pop] are run by several threads at once, so each call is
    cut at its accesses to shared memory: a thread inside a call is in the
    state that names its next access and holds its local variables, and a
    scheduler decides which thread makes its access next. An access takes
    effect at once and is seen by every later access of every thread; the
    [relaxed], [acquire] and [release] orders of the source are not
    distinguished. *)

Module MPSC.
Import Types.
Local Open Scope Z_scope.

Section Queue.
Context {T : Type}.
(** Template parameter [Capacity]. *)
Variable Capacity : Z.

Definition MASK : Z := Capacity - 1.

Record Slot := mkSlot {
  sequence : Z;
  data : T
}.

(** The shared object. [head_] and the slots' [sequence] are atomics;
    [tail_] belongs to the consumer. *)
Record MPSCQueue := mkMPSC {
  slots_ : list Slot;
  head_ : Z;
  tail_ : Z
}.

(** The constructor: slot [i] starts with sequence [i]. *)
Definition MPSCQueue_new (T_default : T) : MPSCQueue :=
  mkMPSC (map (fun i => mkSlot (Z.of_nat i) T_default)
              (seq 0 (Z.to_nat Capacity)))
         0 0.

(** [slots_[pos & MASK]]. *)
Definition slot_index (pos : Z) : nat := Z.to_nat (Z.land pos MASK).

Definition slot_at (q : MPSCQueue) (pos : Z) : option Slot :=
  slots_ q !! slot_index pos.

Definition set_data (pos : Z) (v : T) (slots : list Slot) : list Slot :=
  match slots !! slot_index pos with
  | Some sl => <[slot_index pos := mkSlot (sequence sl) v]> slots
  | None => slots
  end.

Definition set_sequence (pos : Z) (sq : Z) (slots : list Slot) : list Slot :=
  match slots !! slot_index pos with
  | Some sl => <[slot_index pos := mkSlot sq (data sl)]> slots
  | None => slots
  end.

(** Where a producer stands inside [push(value)]: each state is the next
    access to shared memory it will make, with its local variables. *)
Inductive producer :=
  | PIdle
  | PLoadHead (value : T)
    (** [head = head_.load(relaxed)], at entry and after [diff > 0] *)
  | PLoadSeq (value : T) (head : Z)
    (** [seq = slot.sequence.load(acquire)] at the top of the loop *)
  | PCas (value : T) (head : Z)
    (** [head_.compare_exchange_weak(head, head + 1)] after [diff == 0] *)
  | PWriteData (value : T) (head : Z)
    (** [slot.data = value] *)
  | PStoreSeq (value : T) (head : Z).
    (** [slot.sequence.store(head + 1, release)], then [return true] *)

(** Where the consumer stands inside [pop()]. *)
Inductive consumer :=
  | CIdle
  | CLoadSeq
    (** [seq = slot.sequence.load(acquire)] *)
  | CReadData
    (** [value = slot.data] after [diff == 0] *)
  | CStoreSeq (value : T).
    (** [slot.sequence.store(tail_ + Capacity, release); ++tail_], then
        [return value] *)

(** What the threads have been told so far. *)
Inductive event :=
  | Claimed (pos : Z) (value : T)     (** a compare-and-swap on [head_] succeeded *)
  | Pushed (pos : Z) (value : T)      (** [push] returned true *)
  | Refused (value : T)               (** [push] returned false *)
  | Popped (r : option T).            (** [pop] returned *)

(** The queue, the threads using it, and the history of events, newest
    last. The history records; it never decides a step. *)
Record system := mkSystem {
  queue : MPSCQueue;
  producers : list producer;
  the_consumer : consumer;
  history : list event
}.

Definition initial (T_default : T) (n_producers : nat) : system :=
  mkSystem (MPSCQueue_new T_default) (replicate n_producers PIdle) CIdle [].

(** What the scheduler can do: have a thread call into the queue, or let a
    thread inside a call make its next access. [cas_allowed] is false for
    a spurious failure of [compare_exchange_weak]. *)
Inductive action :=
  | CallPush (tid : nat) (value : T)
  | CallPop
  | ProducerStep (tid : nat) (cas_allowed : bool)
  | ConsumerStep.

Definition set_producer (tid : nat) (p : producer) (s : system) : system :=
  mkSystem (queue s) (<[tid := p]> (producers s)) (the_consumer s) (history s).

Definition producer_step (tid : nat) (cas_allowed : bool) (s : system)
    : option system :=
  let q := queue s in
  match producers s !! tid with
  | Some (PLoadHead v) =>
      Some (set_producer tid (PLoadSeq v (head_ q)) s)
  | Some (PLoadSeq v head) =>
      match slot_at q head with
      | Some sl =>
          let diff := wrap64 (sequence sl - head) in
          if diff =? 0 then Some (set_producer tid (PCas v head) s)
          else if diff <? 0 then
            Some (mkSystem q (<[tid := PIdle]> (producers s)) (the_consumer s)
                           (history s ++ [Refused v]))
          else Some (set_producer tid (PLoadHead v) s)
      | None => None
      end
  | Some (PCas v head) =>
      if (head_ q =? head) && cas_allowed then
        Some (mkSystem (mkMPSC (slots_ q) (wrapU64 (head + 1)) (tail_ q))
                       (<[tid := PWriteData v head]> (producers s))
                       (the_consumer s)
                       (history s ++ [Claimed head v]))
      else Some (set_producer tid (PLoadSeq v (head_ q)) s)
  | Some (PWriteData v head) =>
      Some (mkSystem (mkMPSC (set_data head v (slots_ q)) (head_ q) (tail_ q))
                     (<[tid := PStoreSeq v head]> (producers s))
                     (the_consumer s) (history s))
  | Some (PStoreSeq v head) =>
      Some (mkSystem (mkMPSC (set_sequence head (wrapU64 (head + 1)) (slots_ q))
                             (head_ q) (tail_ q))
                     (<[tid := PIdle]> (producers s))
                     (the_consumer s)
                     (history s ++ [Pushed head v]))
  | Some PIdle | None => None
  end.

Definition consumer_step (s : system) : option system :=
  let q := queue s in
  match the_consumer s with
  | CLoadSeq =>
      match slot_at q (tail_ q) with
      | Some sl =>
          let diff := wrap64 (sequence sl - wrapU64 (tail_ q + 1)) in
          if diff =? 0
          then Some (mkSystem q (producers s) CReadData (history s))
          else Some (mkSystem q (producers s) CIdle (history s ++ [Popped None]))
      | None => None
      end
  | CReadData =>
      match slot_at q (tail_ q) with
      | Some sl => Some (mkSystem q (producers s) (CStoreSeq (data sl)) (history s))
      | None => None
      end
  | CStoreSeq v =>
      Some (mkSystem
              (mkMPSC (set_sequence (tail_ q) (wrapU64 (tail_ q + Capacity)) (slots_ q))
                      (head_ q) (wrapU64 (tail_ q + 1)))
              (producers s) CIdle (history s ++ [Popped (Some v)]))
  | CIdle => None
  end.

(** [empty()]: a load of [head_] compared with [tail_]. *)
Definition empty (q : MPSCQueue) : bool := head_ q =? tail_ q.

(** One scheduling decision; [None] when the thread cannot make it. *)
Definition step (a : action) (s : system) : option system :=
  match a with
  | CallPush tid v =>
      match producers s !! tid with
      | Some PIdle => Some (set_producer tid (PLoadHead v) s)
      | _ => None
      end
  | CallPop =>
      match the_consumer s with
      | CIdle => Some (mkSystem (queue s) (producers s) CLoadSeq (history s))
      | _ => None
      end
  | ProducerStep tid cas_allowed => producer_step tid cas_allowed s
  | ConsumerStep => consumer_step s
  end.

(** A schedule, decision after decision. *)
Fixpoint run (sched : list action) (s : system) : option system :=
  match sched with
  | [] => Some s
  | a :: rest =>
      match step a s with
      | Some s' => run rest s'
      | None => None
      end
  end.

End Queue.
Arguments Slot T : clear implicits.
Arguments MPSCQueue T : clear implicits.
Arguments producer T : clear implicits.
Arguments consumer T : clear implicits.
Arguments event T : clear implicits.
Arguments system T : clear implicits.
Arguments action T : clear implicits.

End MPSC.

(* ===================================================================== *)
(** * memory_pool.hpp: ObjectPool *)
(* ===================================================================== *)

Module Pool.
Import Types.
Local Open Scope Z_scope.

Section ObjectPool.
Context {T : Type}.
(** [T()], the value a slot holds after placement construction. *)
Variable T_default : T.
(** Template parameter [PoolSize]. *)
Variable PoolSize : nat.

(** A pointer to a node, or to the object stored in it, is the node's index
    in [nodes_]; [None] is the null pointer. *)
Record Node := mkNode {
  next : option nat;
  storage : T
}.

Record ObjectPool := mkPool {
  free_list_ : option nat;
  allocated_ : Z;
  nodes_ : list Node
}.

(** The constructor threads the free list through the nodes in index
    order. *)
Definition ObjectPool_new : ObjectPool :=
  mkPool (Some 0%nat) 0
    (map (fun i => mkNode (if (S i <? PoolSize)%nat then Some (S i) else None)
                          T_default)
         (seq 0 PoolSize)).

Definition node_next (p : ObjectPool) (n : nat) : option nat :=
  match nodes_ p !! n with
  | Some nd => next nd
  | None => None
  end.

Definition set_next (nodes : list Node) (n : nat) (nx : option nat) : list Node :=
  match nodes !! n with
  | Some nd => <[n := mkNode nx (storage nd)]> nodes
  | None => nodes
  end.

Definition set_storage (nodes : list Node) (n : nat) (v : T) : list Node :=
  match nodes !! n with
  | Some nd => <[n := mkNode (next nd) v]> nodes
  | None => nodes
  end.

(** Run by one thread, the compare-and-swap of [pop_free] succeeds at its
    first attempt. *)
Definition pop_free (p : ObjectPool) : option nat * ObjectPool :=
  match free_list_ p with
  | None => (None, p)
  | Some head =>
      (Some head, mkPool (node_next p head) (allocated_ p) (nodes_ p))
  end.

Definition push_free (node : nat) (p : ObjectPool) : ObjectPool :=
  mkPool (Some node) (allocated_ p) (set_next (nodes_ p) node (free_list_ p)).

Definition allocate (p : ObjectPool) : option nat * ObjectPool :=
  match pop_free p with
  | (None, p') => (None, p')
  | (Some node, p') =>
      (Some node,
       mkPool (free_list_ p') (wrapU64 (allocated_ p' + 1))
              (set_storage (nodes_ p') node T_default))
  end.

Definition deallocate (ptr : option nat) (p : ObjectPool) : ObjectPool :=
  match ptr with
  | None => p
  | Some node =>
      let p' := push_free node p in
      mkPool (free_list_ p') (wrapU64 (allocated_ p' - 1)) (nodes_ p')
  end.

Definition allocated (p : ObjectPool) : Z := allocated_ p.
Definition available (p : ObjectPool) : Z := wrapU64 (Z.of_nat PoolSize - allocated p).
Definition capacity : nat := PoolSize.

(** [*ptr] and [*ptr = v] for a pointer handed out by the pool. *)
Definition load (p : ObjectPool) (ptr : nat) : T :=
  match nodes_ p !! ptr with
  | Some nd => storage nd
  | None => T_default
  end.

Definition store (ptr : nat) (v : T) (p : ObjectPool) : ObjectPool :=
  mkPool (free_list_ p) (allocated_ p) (set_storage (nodes_ p) ptr v).

End ObjectPool.
Arguments ObjectPool T : clear implicits.
Arguments Node T : clear implicits.

End Pool.

(* ===================================================================== *)
(** * memory_pool.hpp: Arena *)
(* ===================================================================== *)

Module Arena.
Import Types.
Local Open Scope Z_scope.

Section Arena.
(** Template parameter [Size], the number of bytes of [buffer_]. *)
Variable Size : Z.

(** The bytes of [buffer_] are the client's; the allocator itself only
    keeps the bump offset. *)
Record Arena := mkArena {
  offset_ : Z
}.

Definition Arena_new : Arena := mkArena 0.

(** [allocate<T>(count)] for a type with [alignof(T) = alignment] and
    [sizeof(T) = size_of]. The pointer returned is given by its distance
    from [buffer_.data()]; [None] is the null pointer. *)
Definition allocate (alignment size_of count : Z) (a : Arena)
    : option Z * Arena :=
  let size := wrapU64 (size_of * count) in
  let aligned_offset :=
    Z.land (wrapU64 (offset_ a + alignment - 1))
           (wrapU64 (Z.lnot (alignment - 1))) in
  if Size <? wrapU64 (aligned_offset + size) then (None, a)
  else (Some aligned_offset, mkArena (wrapU64 (aligned_offset + size))).

Definition reset (a : Arena) : Arena := mkArena 0.

Definition used (a : Arena) : Z := offset_ a.

Definition remaining (a : Arena) : Z := wrapU64 (Size - offset_ a).

End Arena.

End Arena.

(* ===================================================================== *)
(** * execution_engine.hpp *)
(* ===================================================================== *)

Module Engine.
Import Types.
Local Open Scope Z_scope.

Inductive EventType :=
  | ORDER_SUBMITTED | ORDER_ACCEPTED | ORDER_REJECTED | ORDER_PARTIALLY_FILLED
  | ORDER_FILLED | ORDER_CANCELLED | POSITION_OPENED | POSITION_UPDATED
  | POSITION_CLOSED | RISK_ALERT.

Record ExecutionEvent := mkEvent {
  ev_type : EventType;
  ev_order_id : OrderId;
  ev_symbol : Symbol;
  ev_price : PriceMicro;
  ev_quantity : QuantityNano;
  ev_timestamp : Timestamp;
  ev_error : ErrorCode;
  ev_message : string
}.

(** [ObjectPool<Order, 10000> order_pool_]. *)
Definition ORDER_POOL_SIZE : nat := 100 * 100.

(** The engine's data members. Observers are arbitrary callbacks; what the
    engine does to them is to hand them events in order, so the model keeps
    the sequence of events delivered so far in [events_]. [ticks_] counts
    the calls made to [now_ns]. *)
Record ExecutionEngine := mkEngine {
  risk_params_ : RiskParams;
  next_order_id_ : OrderId;
  equity_ : PriceMicro;
  is_running_ : bool;
  order_pool_ : Pool.ObjectPool Order;
  active_orders_ : gmap Z nat;
  positions_ : gmap string Position;
  orderbooks_ : gmap string Book.Orderbook;
  events_ : list ExecutionEvent;
  ticks_ : nat
}.

Definition ExecutionEngine_new (risk_params : RiskParams) : ExecutionEngine :=
  mkEngine risk_params 1 (mul64 1000000 PRICE_SCALE) false
           (Pool.ObjectPool_new Order_default ORDER_POOL_SIZE)
           ∅ ∅ ∅ [] 0.

Definition set_pool (p : Pool.ObjectPool Order) (e : ExecutionEngine) :=
  mkEngine (risk_params_ e) (next_order_id_ e) (equity_ e) (is_running_ e)
           p (active_orders_ e) (positions_ e) (orderbooks_ e) (events_ e)
           (ticks_ e).

Definition set_active_orders (a : gmap Z nat) (e : ExecutionEngine) :=
  mkEngine (risk_params_ e) (next_order_id_ e) (equity_ e) (is_running_ e)
           (order_pool_ e) a (positions_ e) (orderbooks_ e) (events_ e)
           (ticks_ e).

Definition set_positions (ps : gmap string Position) (e : ExecutionEngine) :=
  mkEngine (risk_params_ e) (next_order_id_ e) (equity_ e) (is_running_ e)
           (order_pool_ e) (active_orders_ e) ps (orderbooks_ e) (events_ e)
           (ticks_ e).

Definition set_next_order_id (n : OrderId) (e : ExecutionEngine) :=
  mkEngine (risk_params_ e) n (equity_ e) (is_running_ e)
           (order_pool_ e) (active_orders_ e) (positions_ e) (orderbooks_ e)
           (events_ e) (ticks_ e).

Section WithClock.
(** The steady clock: the value returned by the [n]-th call of [now_ns]. *)
Variable steady_clock : nat -> Timestamp.

Definition now_ns (e : ExecutionEngine) : Timestamp * ExecutionEngine :=
  (steady_clock (ticks_ e),
   mkEngine (risk_params_ e) (next_order_id_ e) (equity_ e) (is_running_ e)
            (order_pool_ e) (active_orders_ e) (positions_ e) (orderbooks_ e)
            (events_ e) (S (ticks_ e))).

(** [strncpy(event.message, msg, 63)] into a zeroed buffer. *)
Definition emit_event (ty : EventType) (oid : OrderId) (sym : Symbol)
    (p : PriceMicro) (qty : QuantityNano) (err : ErrorCode) (msg : string)
    (e : ExecutionEngine) : ExecutionEngine :=
  let '(now, e) := now_ns e in
  let event := mkEvent ty oid sym p qty now err (string_take 63 msg) in
  mkEngine (risk_params_ e) (next_order_id_ e) (equity_ e) (is_running_ e)
           (order_pool_ e) (active_orders_ e) (positions_ e) (orderbooks_ e)
           (events_ e ++ [event]) (ticks_ e).

Definition get_position (sym : Symbol) (e : ExecutionEngine) : option Position :=
  positions_ e !! view sym.

Definition get_orderbook (sym : Symbol) (e : ExecutionEngine)
    : option Book.Orderbook :=
  orderbooks_ e !! view sym.

Definition update_orderbook (sym : Symbol) (book : Book.Orderbook)
    (e : ExecutionEngine) : ExecutionEngine :=
  mkEngine (risk_params_ e) (next_order_id_ e) (equity_ e) (is_running_ e)
           (order_pool_ e) (active_orders_ e) (positions_ e)
           (<[view sym := book]> (orderbooks_ e)) (events_ e) (ticks_ e).

Definition equity (e : ExecutionEngine) : PriceMicro := equity_ e.
Definition open_order_count (e : ExecutionEngine) : nat := size (active_orders_ e).
Definition position_count (e : ExecutionEngine) : nat := size (positions_ e).

Definition set_equity (eq : PriceMicro) (e : ExecutionEngine) : ExecutionEngine :=
  mkEngine (risk_params_ e) (next_order_id_ e) eq (is_running_ e)
           (order_pool_ e) (active_orders_ e) (positions_ e) (orderbooks_ e)
           (events_ e) (ticks_ e).

Definition get_current_price (sym : Symbol) (e : ExecutionEngine) : PriceMicro :=
  match get_orderbook sym e with
  | Some book => Book.mid_price book
  | None => to_price_micro d_one
  end.

Definition get_execution_price (sym : Symbol) (s : Side) (qty : QuantityNano)
    (e : ExecutionEngine) : PriceMicro :=
  match get_orderbook sym e with
  | Some book => Book.estimate_execution_price s qty book
  | None => to_price_micro d_one
  end.

Definition check_position_risk (sym : Symbol) (s : Side) (qty : QuantityNano)
    (e : ExecutionEngine) : bool :=
  let new_qty :=
    match get_position sym e with
    | Some pos =>
        match s with
        | BUY => add64 (pos_quantity pos) qty
        | SELL => sub64 (pos_quantity pos) qty
        end
    | None => qty
    end in
  let notional := dmul (from_quantity_nano (abs64 new_qty))
                       (from_price_micro (get_current_price sym e)) in
  let equity_pct := ddiv notional (from_price_micro (equity_ e)) in
  dle equity_pct (max_position_size (risk_params_ e)).

Definition check_order_count_risk (e : ExecutionEngine) : bool :=
  wrap32 (Z.of_nat (size (active_orders_ e))) <? max_open_orders (risk_params_ e).

(** The arithmetic of [update_position] on an existing position [pos]:
    the branch that adds to the position and the branch that reduces it.
    The members not named keep their values. *)
Definition apply_fill (pos : Position) (s : Side) (qty : QuantityNano)
    (p : PriceMicro) : Position :=
  let delta := match s with BUY => qty | SELL => neg64 qty end in
  let old_qty := pos_quantity pos in
  if (0 <=? old_qty) && (0 <? delta) || (old_qty <=? 0) && (delta <? 0)
  then
    let total_notional :=
      add64 (div64 (mul64 (avg_entry_price pos) (abs64 old_qty)) QUANTITY_SCALE)
            (div64 (mul64 p (abs64 delta)) QUANTITY_SCALE) in
    let new_qty := add64 old_qty delta in
    mkPosition (pos_symbol pos) new_qty
      (if new_qty =? 0 then avg_entry_price pos
       else div64 (mul64 total_notional QUANTITY_SCALE) (abs64 new_qty))
      (unrealized_pnl pos) (realized_pnl pos)
      (opened_at pos) (pos_updated_at pos)
  else
    let closed := min64 (abs64 old_qty) (abs64 delta) in
    let pnl := div64 (mul64 (sub64 p (avg_entry_price pos)) closed)
                     QUANTITY_SCALE in
    mkPosition (pos_symbol pos) (add64 old_qty delta)
      (avg_entry_price pos) (unrealized_pnl pos)
      (add64 (realized_pnl pos) (if 0 <? old_qty then pnl else neg64 pnl))
      (opened_at pos) (pos_updated_at pos).

Definition touch (t : Timestamp) (pos : Position) : Position :=
  mkPosition (pos_symbol pos) (pos_quantity pos) (avg_entry_price pos)
             (unrealized_pnl pos) (realized_pnl pos) (opened_at pos) t.

Definition update_position (sym : Symbol) (s : Side) (qty : QuantityNano)
    (p : PriceMicro) (e : ExecutionEngine) : ExecutionEngine :=
  let key := view sym in
  match positions_ e !! key with
  | None =>
      let '(t1, e) := now_ns e in
      let '(t2, e) := now_ns e in
      let pos := mkPosition sym (match s with BUY => qty | SELL => neg64 qty end)
                            p 0 0 t1 t2 in
      let e := set_positions (<[key := pos]> (positions_ e)) e in
      emit_event POSITION_OPENED 0 sym p qty OK "Position opened" e
  | Some pos =>
      let pos := apply_fill pos s qty p in
      let '(t, e) := now_ns e in
      let pos := touch t pos in
      let e := set_positions (<[key := pos]> (positions_ e)) e in
      if is_flat pos then
        let e := emit_event POSITION_CLOSED 0 sym p qty OK "Position closed" e in
        set_positions (delete key (positions_ e)) e
      else
        emit_event POSITION_UPDATED 0 sym p qty OK "Position updated" e
  end.

(** [order] is the pointer returned by the pool. *)
Definition simulate_fill (order : nat) (fill_price : PriceMicro)
    (e : ExecutionEngine) : ExecutionEngine :=
  let o := Pool.load Order_default (order_pool_ e) order in
  let '(now, e) := now_ns e in
  let o := mkOrder (id o) (created_at o) now (symbol o) (price o) (stop_price o)
                   (quantity o) (quantity o) (side o) (type o) (tif o) FILLED in
  let e := set_pool (Pool.store order o (order_pool_ e)) e in
  let e := update_position (symbol o) (side o) (quantity o) fill_price e in
  let e := emit_event ORDER_FILLED (id o) (symbol o) fill_price (quantity o)
                      OK "Order filled" e in
  let e := set_active_orders (delete (id o) (active_orders_ e)) e in
  set_pool (Pool.deallocate (Some order) (order_pool_ e)) e.

Definition submit_order (sym : Symbol) (s : Side) (ty : OrderType)
    (qty : QuantityNano) (p : PriceMicro) (stop : PriceMicro)
    (tf : TimeInForce) (e : ExecutionEngine) : OrderId * ExecutionEngine :=
  if negb (check_position_risk sym s qty e) then
    (0, emit_event ORDER_REJECTED 0 sym 0 qty RISK_LIMIT_EXCEEDED
                   "Position size limit exceeded" e)
  else if negb (check_order_count_risk e) then
    (0, emit_event ORDER_REJECTED 0 sym 0 qty RISK_LIMIT_EXCEEDED
                   "Max open orders exceeded" e)
  else
    match Pool.allocate Order_default (order_pool_ e) with
    | (None, pool) =>
        (0, emit_event ORDER_REJECTED 0 sym 0 qty INTERNAL_ERROR
                       "Order pool exhausted" (set_pool pool e))
    | (Some order, pool) =>
        let e := set_pool pool e in
        let oid := next_order_id_ e in
        let e := set_next_order_id (wrapU64 (oid + 1)) e in
        let '(now, e) := now_ns e in
        let o := mkOrder oid now now sym p stop qty 0 s ty tf PENDING in
        let e := set_pool (Pool.store order o (order_pool_ e)) e in
        let e := set_active_orders (<[oid := order]> (active_orders_ e)) e in
        let e := emit_event ORDER_SUBMITTED oid sym p qty OK "Order submitted" e in
        let e :=
          if is_market ty then
            simulate_fill order
              (if negb (p =? 0) then p else get_execution_price sym s qty e) e
          else e in
        (oid, e)
    end.

Definition cancel_order (oid : OrderId) (e : ExecutionEngine)
    : bool * ExecutionEngine :=
  match active_orders_ e !! oid with
  | None => (false, e)
  | Some order =>
      let o := Pool.load Order_default (order_pool_ e) order in
      if negb (is_active o) then (false, e)
      else
        let '(now, e) := now_ns e in
        let o := mkOrder (id o) (created_at o) now (symbol o) (price o)
                         (stop_price o) (quantity o) (filled_qty o) (side o)
                         (type o) (tif o) CANCELLED in
        let e := set_pool (Pool.store order o (order_pool_ e)) e in
        let e := emit_event ORDER_CANCELLED oid (symbol o) (price o) (remaining o)
                            OK "Order cancelled" e in
        let e := set_active_orders (delete oid (active_orders_ e)) e in
        (true, set_pool (Pool.deallocate (Some order) (order_pool_ e)) e)
  end.

Definition close_position (sym : Symbol) (e : ExecutionEngine)
    : bool * ExecutionEngine :=
  match positions_ e !! view sym with
  | None => (false, e)
  | Some pos =>
      if is_flat pos then (false, e)
      else
        let close_side := if is_long pos then SELL else BUY in
        let qty := abs64 (pos_quantity pos) in
        (true, snd (submit_order sym close_side MARKET qty 0 0 GTC e))
  end.

End WithClock.

End Engine.

(* ===================================================================== *)
(** * simd.hpp: [simd::total_liquidity]

    The function is compiled in one of two ways. With GODBRAIN_AVX2 it
    keeps four 64-bit lanes, adds four levels at a time, then adds the lanes
    and the levels left over; without it, it adds the levels one by one.
    The array [levels] and its length [n] are a list. Additions on
    [int64_t] wrap, as the lane additions of [_mm256_add_epi64] do. *)
(* ===================================================================== *)

Module Simd.
Import Types.
Local Open Scope Z_scope.

(** A [__m256i] seen as four 64-bit lanes, lane 0 first. *)
Record m256i := mk_m256i { lane0 : Z; lane1 : Z; lane2 : Z; lane3 : Z }.

Definition mm256_setzero_si256 : m256i := mk_m256i 0 0 0 0.

(** [_mm256_set_epi64x(e3, e2, e1, e0)] puts [e0] in lane 0. *)
Definition mm256_set_epi64x (e3 e2 e1 e0 : Z) : m256i := mk_m256i e0 e1 e2 e3.

Definition mm256_add_epi64 (a b : m256i) : m256i :=
  mk_m256i (add64 (lane0 a) (lane0 b)) (add64 (lane1 a) (lane1 b))
           (add64 (lane2 a) (lane2 b)) (add64 (lane3 a) (lane3 b)).

(** [_mm256_storeu_si256] into [int64_t tmp[4]]. *)
Definition mm256_storeu_si256 (a : m256i) : list Z :=
  [lane0 a; lane1 a; lane2 a; lane3 a].

(** [for (; i < n; ++i) result += levels[i].quantity;] *)
Definition add_quantities (levels : list Book.PriceLevel) (result : Z) : Z :=
  fold_left (fun result l => add64 result (Book.quantity l)) levels result.

(** Without GODBRAIN_AVX2. *)
Definition total_liquidity_scalar (levels : list Book.PriceLevel) : Z :=
  add_quantities levels 0.

(** [for (; i + 4 <= n; i += 4)]: the lanes and the levels from [i] on. *)
Fixpoint add_by_four (levels : list Book.PriceLevel) (vsum : m256i)
    : m256i * list Book.PriceLevel :=
  match levels with
  | l0 :: l1 :: l2 :: l3 :: rest =>
      let q := mm256_set_epi64x (Book.quantity l3) (Book.quantity l2)
                                (Book.quantity l1) (Book.quantity l0) in
      add_by_four rest (mm256_add_epi64 vsum q)
  | rest => (vsum, rest)
  end.

(** With GODBRAIN_AVX2. *)
Definition total_liquidity_avx2 (levels : list Book.PriceLevel) : Z :=
  let '(vsum, rest) := add_by_four levels mm256_setzero_si256 in
  let tmp := mm256_storeu_si256 vsum in
  let result := fold_left add64 tmp 0 in
  add_quantities rest result.

End Simd.

(* ===================================================================== *)
(** * Specifications

    Reference definitions the theorems below compare the code with. They
    follow the wording of the specification, not the code. *)
(* ===================================================================== *)

Module QueueSpec.
Import Types.
Local Open Scope Z_scope.

Section Ops.
Context {T : Type}.

Inductive op := Push (v : T) | Pop.
Inductive outcome := Pushed (ok : bool) | Popped (r : option T).

(** One call into the code. *)
Definition step (Capacity : Z) (o : op) (q : SPSC.SPSCQueue T)
    : outcome * SPSC.SPSCQueue T :=
  match o with
  | Push v => let '(ok, q') := SPSC.push Capacity v q in (Pushed ok, q')
  | Pop => let '(r, q') := SPSC.pop Capacity q in (Popped r, q')
  end.

(** A sequence of calls, one after the other, with everything returned. *)
Fixpoint run (Capacity : Z) (ops : list op) (q : SPSC.SPSCQueue T)
    : list outcome * SPSC.SPSCQueue T :=
  match ops with
  | [] => ([], q)
  | o :: ops' =>
      let '(r, q') := step Capacity o q in
      let '(rs, q'') := run Capacity ops' q' in
      (r :: rs, q'')
  end.

(** The specification: a first-in first-out list that refuses a push
    exactly when it already holds [usable] elements. *)
Definition fifo_step (usable : nat) (o : op) (l : list T) : outcome * list T :=
  match o with
  | Push v =>
      if (length l =? usable)%nat then (Pushed false, l)
      else (Pushed true, l ++ [v])
  | Pop =>
      match l with
      | [] => (Popped None, [])
      | x :: l' => (Popped (Some x), l')
      end
  end.

Fixpoint fifo_run (usable : nat) (ops : list op) (l : list T)
    : list outcome * list T :=
  match ops with
  | [] => ([], l)
  | o :: ops' =>
      let '(r, l') := fifo_step usable o l in
      let '(rs, l'') := fifo_run usable ops' l' in
      (r :: rs, l'')
  end.

(** [q] represents the list [l]: the unread elements are the slots from
    [tail_] up to [head_], in ring order. *)
Definition represents (Capacity : Z) (q : SPSC.SPSCQueue T) (l : list T) : Prop :=
  length (SPSC.buffer_ q) = Z.to_nat Capacity /\
  0 <= SPSC.head_ q < Capacity /\
  0 <= SPSC.tail_ q < Capacity /\
  Z.of_nat (length l) = (SPSC.head_ q - SPSC.tail_ q) mod Capacity /\
  forall (i : nat) (x : T),
    l !! i = Some x ->
    SPSC.buffer_ q !! Z.to_nat ((SPSC.tail_ q + Z.of_nat i) mod Capacity) = Some x.

End Ops.
Arguments op T : clear implicits.
Arguments outcome T : clear implicits.

End QueueSpec.

Module PoolSpec.
Import Types.
Local Open Scope Z_scope.

Section Trace.
Context {T : Type}.
Variable T_default : T.
Variable PoolSize : nat.

(** What a client does with a pool: allocate, or give back a pointer. *)
Inductive op := Alloc | Dealloc (ptr : nat).

(** The pool together with the set of pointers the client holds, the live
    allocations. *)
Definition client : Type := Pool.ObjectPool T * gset nat.

(** One call. Giving back a pointer that is not live (a foreign pointer, a
    second [deallocate]) is excluded by the pool's contract: such a call
    has no outcome here. The result of [allocate] is recorded. *)
Definition step (o : op) (c : client) : option (option nat * client) :=
  match o with
  | Alloc =>
      match Pool.allocate T_default (fst c) with
      | (Some ptr, p') => Some (Some ptr, (p', {[ptr]} ∪ snd c))
      | (None, p') => Some (None, (p', snd c))
      end
  | Dealloc ptr =>
      if decide (ptr ∈ snd c)
      then Some (None, (Pool.deallocate (Some ptr) (fst c), snd c ∖ {[ptr]}))
      else None
  end.

Fixpoint run (ops : list op) (c : client) : option (list (option nat) * client) :=
  match ops with
  | [] => Some ([], c)
  | o :: ops' =>
      match step o c with
      | None => None
      | Some (r, c') =>
          match run ops' c' with
          | None => None
          | Some (rs, c'') => Some (r :: rs, c'')
          end
      end
  end.

Definition fresh : client := (Pool.ObjectPool_new T_default PoolSize, ∅).

(** [free] is the free list: the nodes met when following [next] from
    the head [h] to the null pointer. *)
Fixpoint chain (nx : nat -> option nat) (h : option nat) (free : list nat) : Prop :=
  match free with
  | [] => h = None
  | n :: rest => h = Some n /\ chain nx (nx n) rest
  end.

(** Every node is either on the free list or live, never both, never
    twice; the counter equals the number of live allocations. *)
Definition pool_inv (c : client) : Prop :=
  exists free : list nat,
    chain (Pool.node_next (fst c)) (Pool.free_list_ (fst c)) free /\
    NoDup free /\
    (forall n, n ∈ free -> n ∉ snd c) /\
    (forall n, n ∈ free -> (n < PoolSize)%nat) /\
    (forall n, n ∈ snd c -> (n < PoolSize)%nat) /\
    (length free + size (snd c) = PoolSize)%nat /\
    length (Pool.nodes_ (fst c)) = PoolSize /\
    Pool.allocated_ (fst c) = Z.of_nat (size (snd c)).

End Trace.

End PoolSpec.

Module PoolUse.
Import Types.
Local Open Scope Z_scope.

Section Trace.
Context {T : Type}.
Variable T_default : T.

(** What a client does with a pool and its objects: allocate, write to an
    object it holds, or give an object back. *)
Inductive op := Alloc | Write (ptr : nat) (v : T) | Dealloc (ptr : nat).

(** One call, on the pool and the set of pointers the client holds. A
    write through a pointer the client does not hold has no outcome here,
    like the return of one. Only [allocate] has a result. *)
Definition step (o : op) (c : @PoolSpec.client T)
    : option (option nat * @PoolSpec.client T) :=
  match o with
  | Alloc => PoolSpec.step T_default PoolSpec.Alloc c
  | Write ptr v =>
      if decide (ptr ∈ snd c)
      then Some (None, (Pool.store ptr v (fst c), snd c))
      else None
  | Dealloc ptr => PoolSpec.step T_default (PoolSpec.Dealloc ptr) c
  end.

Fixpoint run (ops : list op) (c : @PoolSpec.client T)
    : option (list (option nat) * @PoolSpec.client T) :=
  match ops with
  | [] => Some ([], c)
  | o :: ops' =>
      match step o c with
      | None => None
      | Some (r, c') =>
          match run ops' c' with
          | None => None
          | Some (rs, c'') => Some (r :: rs, c'')
          end
      end
  end.

End Trace.
Arguments op T : clear implicits.

End PoolUse.

Module ArenaSpec.
Import Types.
Local Open Scope Z_scope.

(** What a client does with an arena: allocate [count] objects of a type
    of alignment [2 ^ align_log2] and size [size_of], or reset. *)
Inductive op :=
  | Alloc (align_log2 : nat) (size_of count : Z)
  | Reset.

(** A block handed out: where it starts in the buffer, how many bytes it
    has, and the alignment asked for. *)
Record block := mkBlock {
  start : Z;
  bytes : Z;
  align : Z
}.

(** The arena and the blocks handed out since the last reset, oldest
    first. *)
Definition client : Type := Arena.Arena * list block.

Definition step (Size : Z) (o : op) (c : client) : client :=
  match o with
  | Alloc j size_of count =>
      match Arena.allocate Size (2 ^ Z.of_nat j) size_of count (fst c) with
      | (Some ptr, a') =>
          (a', snd c ++ [mkBlock ptr (size_of * count) (2 ^ Z.of_nat j)])
      | (None, a') => (a', snd c)
      end
  | Reset => (Arena.reset (fst c), [])
  end.

Definition run (Size : Z) (ops : list op) (c : client) : client :=
  fold_left (fun c o => step Size o c) ops c.

(** A request whose byte count does not wrap around: the alignment is at
    most [2 ^ 61] and [sizeof(T) * count] is below [2 ^ 62]. *)
Definition request_ok (o : op) : Prop :=
  match o with
  | Alloc j size_of count =>
      (j <= 61)%nat /\ 0 <= size_of /\ 0 <= count /\ size_of * count < 2 ^ 62
  | Reset => True
  end.

(** [b2] lies wholly after [b1]. *)
Definition before (b1 b2 : block) : Prop := start b1 + bytes b1 <= start b2.

(** The bytes in use end within the buffer; every block handed out since
    the last reset starts at a multiple of its alignment and lies within
    the bytes in use; a block handed out later lies wholly after one
    handed out earlier. *)
Definition arena_inv (Size : Z) (c : client) : Prop :=
  0 <= Arena.offset_ (fst c) <= Size /\
  Forall (fun b => 0 <= start b /\ 0 <= bytes b /\ start b mod align b = 0 /\
                   start b + bytes b <= Arena.offset_ (fst c)) (snd c) /\
  forall i1 i2 b1 b2, (i1 < i2)%nat ->
    snd c !! i1 = Some b1 -> snd c !! i2 = Some b2 -> before b1 b2.

End ArenaSpec.

Module BookSpec.
Import Types.
Local Open Scope Z_scope.

(** The side an order trades against, best level first, as deep as the
    book records it: the asks for a buy, the bids for a sell. *)
Definition opposing (s : Side) (b : Book.Orderbook) : list Book.PriceLevel :=
  match s with
  | BUY => map (Book.level_at (Book.asks_ b)) (seq 0 (Book.ask_count_ b))
  | SELL => map (Book.level_at (Book.bids_ b)) (seq 0 (Book.bid_count_ b))
  end.

(** What each level gives to an order of [qty], walking outward: a level
    is consumed whole unless it holds more than is still needed. *)
Fixpoint fills (levels : list Book.PriceLevel) (qty : Z) : list Z :=
  match levels with
  | [] => []
  | lv :: rest =>
      if 0 <? qty then
        let f := Z.min qty (Book.quantity lv) in
        f :: fills rest (qty - f)
      else []
  end.

Fixpoint sum_list (l : list Z) : Z :=
  match l with
  | [] => 0
  | x :: r => x + sum_list r
  end.

Definition filled (levels : list Book.PriceLevel) (qty : Z) : Z :=
  sum_list (fills levels qty).

Definition liquidity (levels : list Book.PriceLevel) : Z :=
  sum_list (map Book.quantity levels).

(** Price times quantity filled, summed over the levels (in micro-units
    times nano-units). *)
Fixpoint notional (levels : list Book.PriceLevel) (fs : list Z) : Z :=
  match levels, fs with
  | lv :: rest, f :: fs' => Book.price lv * f + notional rest fs'
  | _, _ => 0
  end.

(** The same sum with each term brought back to micro-units first, as a
    fixed-point accumulator holds it. *)
Fixpoint scaled_notional (levels : list Book.PriceLevel) (fs : list Z) : Z :=
  match levels, fs with
  | lv :: rest, f :: fs' =>
      Book.price lv * f / QUANTITY_SCALE + scaled_notional rest fs'
  | _, _ => 0
  end.

(** The quantity-weighted average price of what was filled, in
    micro-units; 0 when nothing was filled. *)
Definition weighted_average (levels : list Book.PriceLevel) (qty : Z) : Z :=
  if 0 <? filled levels qty
  then notional levels (fills levels qty) / filled levels qty
  else 0.

(** Every term of the sum is a whole number of micro-units. *)
Fixpoint whole_terms (levels : list Book.PriceLevel) (fs : list Z) : Prop :=
  match levels, fs with
  | lv :: rest, f :: fs' =>
      (Book.price lv * f) mod QUANTITY_SCALE = 0 /\ whole_terms rest fs'
  | _, _ => True
  end.

(** Prices and quantities are non-negative values of their type. *)
Definition level_ok (lv : Book.PriceLevel) : Prop :=
  0 <= Book.price lv <= INT64_MAX /\ 0 <= Book.quantity lv <= INT64_MAX.

(** A book with the given asks and nothing else. *)
Definition book_of_asks (asks : list Book.PriceLevel) : Book.Orderbook :=
  Book.update_snapshot [] 0 asks (length asks) 1 0 Book.Orderbook_default.

(** What a feed does to a book: a snapshot, or the update of one level. *)
Inductive update :=
  | Snapshot (bids : list Book.PriceLevel) (bid_count : nat)
             (asks : list Book.PriceLevel) (ask_count : nat)
             (sequence : Z) (timestamp : Timestamp)
  | UpdateBid (level : nat) (p : PriceMicro) (qty : QuantityNano)
  | UpdateAsk (level : nat) (p : PriceMicro) (qty : QuantityNano).

Definition apply_update (b : Book.Orderbook) (u : update) : Book.Orderbook :=
  match u with
  | Snapshot bids bc asks ac sq ts => Book.update_snapshot bids bc asks ac sq ts b
  | UpdateBid level p qty => Book.update_bid level p qty b
  | UpdateAsk level p qty => Book.update_ask level p qty b
  end.

(** The book after a sequence of updates. *)
Definition after_updates (us : list update) (b : Book.Orderbook) : Book.Orderbook :=
  fold_left apply_update us b.

(** Both arrays have their 25 slots, as a [std::array] always has. *)
Definition arrays_full (b : Book.Orderbook) : Prop :=
  length (Book.bids_ b) = Book.MAX_ORDERBOOK_LEVELS /\
  length (Book.asks_ b) = Book.MAX_ORDERBOOK_LEVELS.

(** No level holds a negative quantity. *)
Definition quantities_nonneg (levels : list Book.PriceLevel) : Prop :=
  Forall (fun lv => 0 <= Book.quantity lv) levels.

(** The sum of the first [n] quantities of a side, in exact integers. *)
Definition side_liquidity (levels : list Book.PriceLevel) (n : nat) : Z :=
  liquidity (map (Book.level_at levels) (seq 0 n)).

End BookSpec.

Module EngineSpec.
Import Types.
Local Open Scope Z_scope.

(** ** The position-size gate, in the words of the specification *)

(** The signed quantity of an order: positive for a buy, negative for a
    sell. *)
Definition signed_quantity (s : Side) (qty : Z) : Z :=
  match s with BUY => qty | SELL => - qty end.

(** The signed quantity held in a symbol, 0 when there is no position. *)
Definition held_quantity (sym : Symbol) (e : Engine.ExecutionEngine) : Z :=
  match Engine.positions_ e !! view sym with
  | Some pos => pos_quantity pos
  | None => 0
  end.

(** The position if the order fills in full: the quantity held plus the
    signed quantity of the order. *)
Definition projected_quantity (sym : Symbol) (s : Side) (qty : Z)
    (e : Engine.ExecutionEngine) : Z :=
  held_quantity sym e + signed_quantity s qty.

(** The price a position is valued at: the mid price of the symbol's book,
    or the unit price 1.0 when the engine has no book for it. *)
Definition valuation_price (sym : Symbol) (e : Engine.ExecutionEngine) : Z :=
  match Engine.orderbooks_ e !! view sym with
  | Some book => Book.mid_price book
  | None => 1 * PRICE_SCALE
  end.

(** Projected notional as a fraction of equity, in double arithmetic: the
    magnitude of the projected quantity and the two prices are converted to
    [double] and brought to units, then multiplied and divided, each
    operation rounded to nearest. *)
Definition equity_fraction (sym : Symbol) (s : Side) (qty : Z)
    (e : Engine.ExecutionEngine) : double :=
  ddiv (dmul (from_quantity_nano (Z.abs (projected_quantity sym s qty e)))
             (from_price_micro (valuation_price sym e)))
       (from_price_micro (Engine.equity_ e)).

(** The same fraction as a rational number: with the quantity in
    nano-units and both prices in micro-units it is
    [|projected| * price / (10^9 * equity)]. *)
Definition exact_fraction (sym : Symbol) (s : Side) (qty : Z)
    (e : Engine.ExecutionEngine) : QArith_base.Q :=
  QArith_base.Qdiv
    (QArith_base.inject_Z
       (Z.abs (projected_quantity sym s qty e) * valuation_price sym e))
    (QArith_base.inject_Z (QUANTITY_SCALE * Engine.equity_ e)).

(** The rational number a finite double stands for. *)
Definition exact_value (x : double) : QArith_base.Q :=
  match x with
  | S754_finite sign m e =>
      QArith_base.Qmult
        (QArith_base.inject_Z (if sign then Zneg m else Zpos m))
        (QArith_base.Qpower (QArith_base.inject_Z 2) e)
  | _ => QArith_base.inject_Z 0
  end.

(** ** Position accounting, in the words of the specification *)

(** [(oldAvg * |oldQty| + fillPrice * |fillQty|) / |newQty|]. *)
Definition claimed_average (old_avg old_qty fill_price fill_qty new_qty : Z) : Z :=
  (old_avg * Z.abs old_qty + fill_price * Z.abs fill_qty) / Z.abs new_qty.

(** The same average with each notional first brought to micro-units, as
    the fixed-point code accumulates it. *)
Definition fixed_point_average (old_avg old_qty fill_price fill_qty new_qty : Z) : Z :=
  (old_avg * Z.abs old_qty / QUANTITY_SCALE
   + fill_price * Z.abs fill_qty / QUANTITY_SCALE) * QUANTITY_SCALE
  / Z.abs new_qty.

(** [(fillPrice - avgEntryPrice) * min(|oldQty|, |fillQty|)] in micro-units,
    signed by the direction of the prior position. *)
Definition realized_on_close (old_avg old_qty fill_price fill_qty : Z) : Z :=
  let pnl := Z.quot ((fill_price - old_avg) * Z.min (Z.abs old_qty) (Z.abs fill_qty))
                    QUANTITY_SCALE in
  if 0 <? old_qty then pnl else - pnl.

(** A fill adds to a position when it has the position's direction. *)
Definition same_direction (old_qty : Z) (s : Side) : Prop :=
  (0 < old_qty /\ s = BUY) \/ (old_qty < 0 /\ s = SELL).

Definition opposite_direction (old_qty : Z) (s : Side) : Prop :=
  (0 < old_qty /\ s = SELL) \/ (old_qty < 0 /\ s = BUY).

(** ** Scenarios *)

Definition DOGE : Symbol := mk_Symbol "DOGE/USDT".

(** A clock that advances by one nanosecond at each reading. *)
Definition tick_clock : nat -> Timestamp := Z.of_nat.

(** A fresh engine with the default risk parameters. *)
Definition fresh : Engine.ExecutionEngine :=
  Engine.ExecutionEngine_new RiskParams_default.

(** A market order at an explicit price, filled at once at that price. *)
Definition market (clock : nat -> Timestamp) (s : Side) (qty : QuantityNano)
    (p : PriceMicro) (e : Engine.ExecutionEngine) : Engine.ExecutionEngine :=
  snd (Engine.submit_order clock DOGE s MARKET qty p 0 GTC e).

(** The calls a client can make. *)
Inductive call :=
  | Submit (sym : Symbol) (s : Side) (ty : OrderType) (qty : QuantityNano)
           (p stop : PriceMicro) (tf : TimeInForce)
  | Cancel (oid : OrderId)
  | ClosePosition (sym : Symbol)
  | UpdateOrderbook (sym : Symbol) (book : Book.Orderbook)
  | SetEquity (eq : PriceMicro).

Definition do_call (clock : nat -> Timestamp) (c : call)
    (e : Engine.ExecutionEngine) : Engine.ExecutionEngine :=
  match c with
  | Submit sym s ty qty p stop tf =>
      snd (Engine.submit_order clock sym s ty qty p stop tf e)
  | Cancel oid => snd (Engine.cancel_order clock oid e)
  | ClosePosition sym => snd (Engine.close_position clock sym e)
  | UpdateOrderbook sym book => Engine.update_orderbook sym book e
  | SetEquity eq => Engine.set_equity eq e
  end.

(** The engine after a sequence of calls. *)
Definition after_calls (clock : nat -> Timestamp) (cs : list call)
    (e : Engine.ExecutionEngine) : Engine.ExecutionEngine :=
  fold_left (fun e c => do_call clock c e) cs e.

(** No order stored in the pool is OPEN or PARTIALLY_FILLED. *)
Definition pool_inactive (p : Pool.ObjectPool Order) : Prop :=
  forall ptr : nat, is_active (Pool.load Order_default p ptr) = false.

Definition no_active_order (e : Engine.ExecutionEngine) : Prop :=
  pool_inactive (Engine.order_pool_ e).

End EngineSpec.

Module EngineState.
Import Types.
Local Open Scope Z_scope.

(** The order table and the order pool agree: the slots the table points
    to are the live objects of the pool, one slot per order, the order
    stored in a slot carries the id it is filed under, and every id in use
    is below the next id to be given. [accepted] bounds the number of
    orders accepted so far. *)
Definition consistent (accepted : Z) (e : Engine.ExecutionEngine) : Prop :=
  exists live : gset nat,
    PoolSpec.pool_inv Engine.ORDER_POOL_SIZE (Engine.order_pool_ e, live) /\
    size (Engine.active_orders_ e) = size live /\
    (forall oid ptr, Engine.active_orders_ e !! oid = Some ptr ->
       ptr ∈ live /\
       id (Pool.load Order_default (Engine.order_pool_ e) ptr) = oid /\
       1 <= oid < Engine.next_order_id_ e) /\
    1 <= Engine.next_order_id_ e <= 1 + accepted.

(** The signed quantity of a fill as the code computes it. *)
Definition fill_delta (s : Side) (qty : QuantityNano) : QuantityNano :=
  match s with BUY => qty | SELL => neg64 qty end.

(** The order as [simulate_fill] leaves it in its slot. *)
Definition filled_order (now : Timestamp) (o : Order) : Order :=
  mkOrder (id o) (created_at o) now (symbol o) (price o) (stop_price o)
          (quantity o) (quantity o) (side o) (type o) (tif o) FILLED.

(** The engine once [submit_order] has filed an accepted order, stored in
    slot [ptr] of the pool [pool] that [allocate] left, and has emitted
    ORDER_SUBMITTED. *)
Definition submitted (clock : nat -> Timestamp) (sym : Symbol) (s : Side)
    (ty : OrderType) (qty : QuantityNano) (p stop : PriceMicro)
    (tf : TimeInForce) (ptr : nat) (pool : Pool.ObjectPool Order)
    (e : Engine.ExecutionEngine) : Engine.ExecutionEngine :=
  let oid := Engine.next_order_id_ e in
  let now := clock (Engine.ticks_ e) in
  let o := mkOrder oid now now sym p stop qty 0 s ty tf PENDING in
  Engine.mkEngine (Engine.risk_params_ e) (wrapU64 (oid + 1)) (Engine.equity_ e)
    (Engine.is_running_ e) (Pool.store ptr o pool)
    (<[oid := ptr]> (Engine.active_orders_ e)) (Engine.positions_ e)
    (Engine.orderbooks_ e)
    (Engine.events_ e
     ++ [Engine.mkEvent Engine.ORDER_SUBMITTED oid sym p qty
           (clock (S (Engine.ticks_ e))) OK "Order submitted"])
    (S (S (Engine.ticks_ e))).

(** The price a market order is filled at: the price given with the order,
    or when that is 0 the estimate from the symbol's book. *)
Definition fill_price (sym : Symbol) (s : Side) (qty : QuantityNano)
    (p : PriceMicro) (e : Engine.ExecutionEngine) : PriceMicro :=
  if p =? 0 then Engine.get_execution_price sym s qty e else p.

End EngineState.

Module DoubleSpec.
Import Types.
Local Open Scope Z_scope.

(** Round to nearest, ties to even, on a quotient [q] whose first dropped
    bit is [r] and whose other dropped bits are summarised by [s]: the
    quotient is incremented when more than half was dropped, or exactly
    half and the quotient is odd. *)
Definition round_up (r s : bool) (q : Z) : bool := r && (s || Z.odd q).

(** A rounded mantissa of at most 53 bits, or [2^53] after a carry, as a
    double. *)
Definition normalise (sign : bool) (m e : Z) : spec_float :=
  if m =? 2 ^ 53 then S754_finite sign (Z.to_pos (2 ^ 52)) (e + 1)
  else S754_finite sign (Z.to_pos m) e.

(** The integer nearest to [z] that a double can hold, for [z > 0]. *)
Definition nearest (z : Z) : Z :=
  let d := Zdigits2 z in
  if d <=? 53 then z
  else
    let n := d - 53 in
    let q := z / 2 ^ n in
    (if round_up (Z.odd (z / 2 ^ (n - 1))) (negb (z mod 2 ^ (n - 1) =? 0)) q
     then q + 1 else q) * 2 ^ n.

(** The literal [-1.0]. *)
Definition d_minus_one : double := double_of_int (-1).

(** [-1.0 <= r] and [r <= 1.0]. *)
Definition in_unit_interval (r : double) : Prop :=
  dle d_minus_one r = true /\ dle r d_one = true.

End DoubleSpec.

Module MPSCSpec.
Import Types.
Local Open Scope Z_scope.

Section History.
Context {T : Type}.

(** The values claimed, in the order the compare-and-swaps succeeded. *)
Definition claims (h : list (MPSC.event T)) : list T :=
  omap (fun e => match e with MPSC.Claimed _ v => Some v | _ => None end) h.

(** The values the consumer has received, in order. *)
Definition pops (h : list (MPSC.event T)) : list T :=
  omap (fun e => match e with MPSC.Popped (Some v) => Some v | _ => None end) h.

(** The calls of [push] that returned true, with the position each had
    claimed, in the order they returned. *)
Definition pushed (h : list (MPSC.event T)) : list (Z * T) :=
  omap (fun e => match e with MPSC.Pushed p v => Some (p, v) | _ => None end) h.

(** Producer [p] has claimed position [pos] for [v] and has not published
    it yet. *)
Definition in_flight (p : option (MPSC.producer T)) (v : T) (pos : Z) : Prop :=
  p = Some (MPSC.PWriteData v pos) \/ p = Some (MPSC.PStoreSeq v pos).

(** Producer [p] owns position [pos]: it claimed it for [v], and once its
    write is done the slot holds [v]. [d] is what the slot holds now. *)
Definition owns (p : option (MPSC.producer T)) (v : T) (pos : Z) (d : T)
    : Prop :=
  p = Some (MPSC.PWriteData v pos) \/ (p = Some (MPSC.PStoreSeq v pos) /\ d = v).

(** No thread is inside a call. *)
Definition quiescent (s : MPSC.system T) : Prop :=
  Forall (fun p => p = MPSC.PIdle) (MPSC.producers s) /\
  MPSC.the_consumer s = MPSC.CIdle.

(** The counters have not come near the end of their 64 bits. *)
Definition within_bound (s : MPSC.system T) : Prop :=
  Z.of_nat (length (claims (MPSC.history s))) < 2 ^ 62.

(** What holds of every state of a queue of capacity [Capacity] that the
    threads can reach. Positions count the claims from 0; position [p]
    lives in slot [p mod Capacity]. *)
Record invariant (Capacity : Z) (s : MPSC.system T) : Prop := mkInvariant {
  inv_len :
    length (MPSC.slots_ (MPSC.queue s)) = Z.to_nat Capacity;
  inv_head :
    MPSC.head_ (MPSC.queue s) = Z.of_nat (length (claims (MPSC.history s)));
  inv_tail :
    MPSC.tail_ (MPSC.queue s) = Z.of_nat (length (pops (MPSC.history s)));
  inv_room :
    MPSC.tail_ (MPSC.queue s) <= MPSC.head_ (MPSC.queue s)
    <= MPSC.tail_ (MPSC.queue s) + Capacity;
  (** the consumer has received the first claims, in claim order *)
  inv_pops :
    pops (MPSC.history s)
    = take (length (pops (MPSC.history s))) (claims (MPSC.history s));
  (** positions not claimed yet: the slot waits with the position as
      sequence *)
  inv_free :
    forall p, MPSC.head_ (MPSC.queue s) <= p
              < MPSC.tail_ (MPSC.queue s) + Capacity ->
      exists d, MPSC.slot_at Capacity (MPSC.queue s) p = Some (MPSC.mkSlot p d);
  (** positions claimed and not consumed: published with the claimed
      value, or still owned by the producer that claimed them *)
  inv_live :
    forall p, MPSC.tail_ (MPSC.queue s) <= p < MPSC.head_ (MPSC.queue s) ->
      exists v, claims (MPSC.history s) !! Z.to_nat p = Some v /\
        (MPSC.slot_at Capacity (MPSC.queue s) p = Some (MPSC.mkSlot (p + 1) v) \/
         exists d tid,
           MPSC.slot_at Capacity (MPSC.queue s) p = Some (MPSC.mkSlot p d) /\
           owns (MPSC.producers s !! tid) v p d);
  inv_own :
    forall tid v p, in_flight (MPSC.producers s !! tid) v p ->
      MPSC.tail_ (MPSC.queue s) <= p < MPSC.head_ (MPSC.queue s) /\
      exists d, MPSC.slot_at Capacity (MPSC.queue s) p = Some (MPSC.mkSlot p d);
  inv_uniq :
    forall t1 t2 v1 v2 p,
      in_flight (MPSC.producers s !! t1) v1 p ->
      in_flight (MPSC.producers s !! t2) v2 p -> t1 = t2;
  inv_cas :
    forall tid v h, MPSC.producers s !! tid = Some (MPSC.PCas v h) ->
      0 <= h < MPSC.tail_ (MPSC.queue s) + Capacity;
  inv_loc :
    forall tid v h, MPSC.producers s !! tid = Some (MPSC.PLoadSeq v h) ->
      0 <= h <= MPSC.head_ (MPSC.queue s);
  inv_cons :
    match MPSC.the_consumer s with
    | MPSC.CReadData =>
        MPSC.tail_ (MPSC.queue s) < MPSC.head_ (MPSC.queue s) /\
        exists v, MPSC.slot_at Capacity (MPSC.queue s) (MPSC.tail_ (MPSC.queue s))
                  = Some (MPSC.mkSlot (MPSC.tail_ (MPSC.queue s) + 1) v)
    | MPSC.CStoreSeq v =>
        MPSC.tail_ (MPSC.queue s) < MPSC.head_ (MPSC.queue s) /\
        MPSC.slot_at Capacity (MPSC.queue s) (MPSC.tail_ (MPSC.queue s))
        = Some (MPSC.mkSlot (MPSC.tail_ (MPSC.queue s) + 1) v)
    | _ => True
    end;
  (** an element whose push returned true was claimed at its position, and
      if not consumed yet it sits published in its slot *)
  inv_pushed :
    forall p v, (p, v) ∈ pushed (MPSC.history s) ->
      0 <= p < MPSC.head_ (MPSC.queue s) /\
      claims (MPSC.history s) !! Z.to_nat p = Some v /\
      (MPSC.tail_ (MPSC.queue s) <= p ->
       MPSC.slot_at Capacity (MPSC.queue s) p = Some (MPSC.mkSlot (p + 1) v));
  (** no position is pushed twice *)
  inv_once :
    NoDup (pushed (MPSC.history s)).*1
}.

(** The consumer calls [pop] and runs it to its end, alone. *)
Definition pop_alone : list (MPSC.action T) :=
  [MPSC.CallPop; MPSC.ConsumerStep; MPSC.ConsumerStep; MPSC.ConsumerStep].

(** Every element whose push returned true is consumed exactly once, in
    claim order:
    - what the consumer has received is the claims from the first on, in
      the order they were claimed, none skipped and none repeated;
    - every push that returned true had a position of its own;
    - its element is the claim at that position, and it has been received
      as the element of that position or else waits, published, in its
      slot;
    - when the element at the consumer's position has been pushed, the
      consumer's next [pop] returns it. *)
Definition delivers_in_claim_order (Capacity : Z) (s : MPSC.system T) : Prop :=
  pops (MPSC.history s)
  = take (length (pops (MPSC.history s))) (claims (MPSC.history s)) /\
  NoDup (pushed (MPSC.history s)).*1 /\
  (forall p v, (p, v) ∈ pushed (MPSC.history s) ->
     0 <= p /\
     claims (MPSC.history s) !! Z.to_nat p = Some v /\
     (pops (MPSC.history s) !! Z.to_nat p = Some v \/
      (Z.of_nat (length (pops (MPSC.history s))) <= p /\
       MPSC.slot_at Capacity (MPSC.queue s) p = Some (MPSC.mkSlot (p + 1) v)))) /\
  (MPSC.the_consumer s = MPSC.CIdle ->
   forall v,
     (Z.of_nat (length (pops (MPSC.history s))), v) ∈ pushed (MPSC.history s) ->
     exists s', MPSC.run Capacity pop_alone s = Some s' /\
                MPSC.history s' = MPSC.history s ++ [MPSC.Popped (Some v)]).

End History.

(** A producer calls [push] and runs it to its end, alone, when the
    position is free. *)
Definition push_alone (tid : nat) (v : Z) : list (MPSC.action Z) :=
  [MPSC.CallPush tid v; MPSC.ProducerStep tid true; MPSC.ProducerStep tid true;
   MPSC.ProducerStep tid true; MPSC.ProducerStep tid true;
   MPSC.ProducerStep tid true].

(** One producer pushes 11 and then 22; then the consumer calls [pop],
    which returns after its load of the sequence. *)
Definition two_pushes : list (MPSC.action Z) :=
  push_alone 0 11 ++ push_alone 0 22 ++ [MPSC.CallPop; MPSC.ConsumerStep].

(** Two producers race for position 0: producer 1 wins the compare-and-swap,
    producer 0 retries and takes position 1 and publishes first; the
    consumer finds position 0 unpublished, and later receives both. *)
Definition a_race : list (MPSC.action Z) :=
  [MPSC.CallPush 0 11; MPSC.CallPush 1 22;
   MPSC.ProducerStep 0 true; MPSC.ProducerStep 1 true;
   MPSC.ProducerStep 0 true; MPSC.ProducerStep 1 true;
   MPSC.ProducerStep 1 true; MPSC.ProducerStep 0 true;
   MPSC.ProducerStep 0 true; MPSC.ProducerStep 0 true;
   MPSC.ProducerStep 0 true; MPSC.ProducerStep 0 true;
   MPSC.CallPop; MPSC.ConsumerStep;
   MPSC.ProducerStep 1 true; MPSC.ProducerStep 1 true]
  ++ pop_alone ++ pop_alone.



Definition pop_to_load {T : Type} : list (MPSC.action T) :=
  [MPSC.CallPop; MPSC.ConsumerStep].

End MPSCSpec.

Module SimdSpec.
Import Types.
Local Open Scope Z_scope.
(** The sum of the quantities as an integer. *)
Definition sum_quantities (levels : list Book.PriceLevel) : Z :=
  fold_right (fun l acc => Book.quantity l + acc) 0 levels.

End SimdSpec.

(* ===================================================================== *)
(** * Verification *)
(* ===================================================================== *)

Import Types.
Local Open Scope Z_scope.

(* --------------------------------------------------------------------- *)
(** ** SPSCQueue is a bounded first-in first-out queue *)
(* --------------------------------------------------------------------- *)

Section QueueProofs.
Import QueueSpec.
Local Open Scope Z_scope.
Context {T : Type}.
Variable k : nat.
Hypothesis k_size_t : (k < 64)%nat.

Local Abbreviation Capacity := (2 ^ Z.of_nat k).

Lemma Capacity_pos : 0 < Capacity.
Proof. apply Z.pow_pos_nonneg; lia. Qed.

Lemma Capacity_le : Capacity <= 2 ^ 63.
Proof using k_size_t. apply Z.pow_le_mono_r; lia. Qed.

Lemma land_MASK (x : Z) : Z.land x (SPSC.MASK Capacity) = x mod Capacity.
Proof.
  unfold SPSC.MASK. rewrite <- Z.land_ones by lia.
  f_equal. rewrite Z.ones_equiv. lia.
Qed.

Lemma ring_succ (x : Z) :
  0 <= x < Capacity ->
  Z.land (wrapU64 (x + 1)) (SPSC.MASK Capacity)
  = if x + 1 =? Capacity then 0 else x + 1.
Proof using k_size_t.
  intros Hx. pose proof Capacity_le.
  rewrite land_MASK. unfold wrapU64.
  rewrite (Z.mod_small (x + 1)) by lia.
  destruct (Z.eqb_spec (x + 1) Capacity) as [->|Hne].
  - apply Z.mod_same. lia.
  - apply Z.mod_small. lia.
Qed.

Lemma ring_offset (a i : Z) :
  0 <= a < Capacity -> 0 <= i < Capacity ->
  (a + i) mod Capacity = if a + i <? Capacity then a + i else a + i - Capacity.
Proof.
  intros Ha Hi. destruct (Z.ltb_spec (a + i) Capacity).
  - apply Z.mod_small. lia.
  - symmetry. apply Z.mod_unique_pos with (q := 1); lia.
Qed.

Lemma ring_distance (a b : Z) :
  0 <= a < Capacity -> 0 <= b < Capacity ->
  (a - b) mod Capacity = if b <=? a then a - b else a - b + Capacity.
Proof.
  intros Ha Hb. destruct (Z.leb_spec b a).
  - apply Z.mod_small. lia.
  - symmetry. apply Z.mod_unique_pos with (q := -1); lia.
Qed.

Lemma represents_new (d : T) :
  represents Capacity (SPSC.SPSCQueue_new Capacity d) [].
Proof.
  pose proof Capacity_pos.
  unfold represents, SPSC.SPSCQueue_new; simpl.
  rewrite length_replicate. repeat split; try lia.
  intros i x Hi. discriminate Hi.
Qed.

Lemma represents_size (q : SPSC.SPSCQueue T) (l : list T) :
  represents Capacity q l -> SPSC.size Capacity q = Z.of_nat (length l).
Proof using k_size_t.
  intros (Hlen & Hh & Ht & Hsz & Hel). pose proof Capacity_le.
  unfold SPSC.size. rewrite land_MASK, Hsz. unfold wrapU64.
  destruct (Z.leb_spec (SPSC.tail_ q) (SPSC.head_ q)).
  - rewrite (Z.mod_small (_ - _) (2 ^ 64)) by lia. reflexivity.
  - rewrite !ring_distance by lia.
    destruct (Z.leb_spec (SPSC.tail_ q) (SPSC.head_ q)); [lia|].
    replace ((SPSC.head_ q - SPSC.tail_ q) mod 2 ^ 64)
      with (SPSC.head_ q - SPSC.tail_ q + 2 ^ 64)
      by (apply Z.mod_unique_pos with (q := -1); lia).
    replace (SPSC.head_ q - SPSC.tail_ q + 2 ^ 64)
      with (SPSC.head_ q - SPSC.tail_ q + Capacity
            + (2 ^ (64 - Z.of_nat k) - 1) * Capacity).
    + rewrite Z.mod_add by lia. apply Z.mod_small. lia.
    + replace (2 ^ 64) with (2 ^ (64 - Z.of_nat k) * Capacity); [lia|].
      rewrite <- Z.pow_add_r by lia. f_equal. lia.
Qed.

Lemma push_refines (v : T) (q : SPSC.SPSCQueue T) (l : list T) :
  represents Capacity q l ->
  let '(ok, q') := SPSC.push Capacity v q in
  let '(r, l') := fifo_step (Z.to_nat (SPSC.capacity Capacity)) (Push v) l in
  r = Pushed ok /\ represents Capacity q' l' /\ (ok = false -> q' = q).
Proof using k_size_t.
  intros (Hlen & Hh & Ht & Hsz & Hel). pose proof Capacity_pos as Hc.
  unfold SPSC.push, fifo_step, SPSC.capacity.
  rewrite ring_succ by lia.
  rewrite ring_distance in Hsz by lia.
  destruct (Z.leb_spec (SPSC.tail_ q) (SPSC.head_ q)) as [Hth|Hth];
    destruct (Z.eqb_spec (SPSC.head_ q + 1) Capacity) as [Hw|Hw];
    match goal with
    | |- context [?a =? SPSC.tail_ q] => destruct (Z.eqb_spec a (SPSC.tail_ q)) as [Hf|Hf]
    end;
    match goal with
    | |- context [(?a =? ?b)%nat] => destruct (Nat.eqb_spec a b) as [Hn|Hn]
    end; try lia.
  all: try (split; [reflexivity|]; split; [|intros; reflexivity];
            repeat split; try assumption; try lia;
            rewrite ?ring_distance by lia;
            try (destruct (Z.leb_spec (SPSC.tail_ q) (SPSC.head_ q)); lia)).
  all: split; [reflexivity|]; split; [|intros; discriminate].
  all: unfold represents; simpl; rewrite length_insert, length_app; simpl.
  all: repeat split; try lia.
  all: try (rewrite ring_distance by lia;
            match goal with |- context [?a <=? ?b] => destruct (Z.leb_spec a b) end; lia).
  all: intros i x Hi;
       assert (Hil : (i < length l + 1)%nat) by
         (apply lookup_lt_Some in Hi; rewrite length_app in Hi; simpl in Hi; lia);
       destruct (decide (i = length l)) as [->|Hne];
       [ rewrite lookup_app_r in Hi by lia;
         rewrite Nat.sub_diag in Hi; simpl in Hi; inversion Hi; subst x;
         rewrite ring_offset by lia;
         match goal with |- context [?a <? ?b] => destruct (Z.ltb_spec a b) end;
         (match goal with
          | |- <[?a := _]> _ !! ?b = _ => replace b with a by lia
          end; apply list_lookup_insert_eq; lia)
       | rewrite lookup_app_l in Hi by lia;
         rewrite list_lookup_insert_ne;
         [ apply Hel; exact Hi
         | rewrite ring_offset by lia;
           match goal with |- context [?a <? ?b] => destruct (Z.ltb_spec a b) end; lia ] ].
Qed.

Lemma pop_refines (q : SPSC.SPSCQueue T) (l : list T) :
  represents Capacity q l ->
  let '(r, q') := SPSC.pop Capacity q in
  let '(r', l') := fifo_step (Z.to_nat (SPSC.capacity Capacity)) Pop l in
  r' = Popped r /\ represents Capacity q' l'.
Proof using k_size_t.
  intros (Hlen & Hh & Ht & Hsz & Hel). pose proof Capacity_pos as Hc.
  unfold SPSC.pop, fifo_step.
  rewrite ring_distance in Hsz by lia.
  destruct l as [|x l]; simpl in Hsz.
  - (* nothing unread: the indices coincide *)
    assert (Heq : SPSC.tail_ q = SPSC.head_ q)
      by (destruct (Z.leb_spec (SPSC.tail_ q) (SPSC.head_ q)); lia).
    rewrite Heq, Z.eqb_refl. split; [reflexivity|].
    repeat split; try assumption; try lia.
    rewrite Heq, Z.sub_diag, Z.mod_0_l by lia. reflexivity.
  - destruct (Z.eqb_spec (SPSC.tail_ q) (SPSC.head_ q)) as [Heq|Hne].
    { rewrite Heq, Z.leb_refl in Hsz. lia. }
    pose proof (Hel 0%nat x eq_refl) as H0. simpl in H0.
    rewrite Z.add_0_r, Z.mod_small in H0 by lia.
    rewrite H0. split; [reflexivity|].
    unfold represents; simpl. rewrite ring_succ by lia.
    assert (Hlt : Z.of_nat (length l) + 1 < Capacity)
      by (destruct (Z.leb_spec (SPSC.tail_ q) (SPSC.head_ q)); lia).
    destruct (Z.eqb_spec (SPSC.tail_ q + 1) Capacity) as [Hw|Hw].
    + repeat split; try assumption; try lia.
      * rewrite ring_distance by lia.
        destruct (Z.leb_spec (SPSC.tail_ q) (SPSC.head_ q));
          destruct (Z.leb_spec 0 (SPSC.head_ q)); lia.
      * intros i y Hi. pose proof (lookup_lt_Some _ _ _ Hi) as Hil.
        specialize (Hel (S i) y Hi).
        rewrite ring_offset in Hel by lia.
        destruct (Z.ltb_spec (SPSC.tail_ q + Z.of_nat (S i)) Capacity); [lia|].
        rewrite Z.mod_small by lia.
        replace (0 + Z.of_nat i) with (SPSC.tail_ q + Z.of_nat (S i) - Capacity) by lia.
        exact Hel.
    + repeat split; try assumption; try lia.
      * rewrite ring_distance by lia.
        destruct (Z.leb_spec (SPSC.tail_ q) (SPSC.head_ q));
          destruct (Z.leb_spec (SPSC.tail_ q + 1) (SPSC.head_ q)); lia.
      * intros i y Hi. pose proof (lookup_lt_Some _ _ _ Hi) as Hil.
        specialize (Hel (S i) y Hi).
        replace (SPSC.tail_ q + 1 + Z.of_nat i) with (SPSC.tail_ q + Z.of_nat (S i)) by lia.
        exact Hel.
Qed.

Lemma run_refines (ops : list (op T)) :
  forall (q : SPSC.SPSCQueue T) (l : list T),
    represents Capacity q l ->
    fst (run Capacity ops q)
    = fst (fifo_run (Z.to_nat (SPSC.capacity Capacity)) ops l) /\
    represents Capacity (snd (run Capacity ops q))
      (snd (fifo_run (Z.to_nat (SPSC.capacity Capacity)) ops l)).
Proof using k_size_t.
  induction ops as [|o ops IH]; intros q l Hrep; simpl.
  - split; [reflexivity | exact Hrep].
  - destruct o as [v|].
    + pose proof (push_refines v q l Hrep) as Hp.
      unfold step. destruct (SPSC.push Capacity v q) as [ok q'].
      destruct (fifo_step _ (Push v) l) as [r l'].
      destruct Hp as (-> & Hrep' & _).
      specialize (IH q' l' Hrep').
      destruct (run Capacity ops q') as [rs q''].
      destruct (fifo_run _ ops l') as [rs' l''].
      simpl in *. destruct IH as [-> ?]. split; [reflexivity | assumption].
    + pose proof (pop_refines q l Hrep) as Hp.
      unfold step. destruct (SPSC.pop Capacity q) as [r q'].
      destruct (fifo_step _ Pop l) as [r' l'].
      destruct Hp as (-> & Hrep').
      specialize (IH q' l' Hrep').
      destruct (run Capacity ops q') as [rs q''].
      destruct (fifo_run _ ops l') as [rs' l''].
      simpl in *. destruct IH as [-> ?]. split; [reflexivity | assumption].
Qed.

Lemma push_full_iff (v : T) (q : SPSC.SPSCQueue T) (l : list T) :
  represents Capacity q l ->
  (fst (SPSC.push Capacity v q) = false
   <-> SPSC.size Capacity q = SPSC.capacity Capacity).
Proof using k_size_t.
  intros Hrep. pose proof Capacity_pos.
  rewrite (represents_size q l Hrep).
  pose proof (push_refines v q l Hrep) as Hp.
  destruct (SPSC.push Capacity v q) as [ok q']. simpl.
  unfold fifo_step in Hp.
  destruct (Nat.eqb_spec (length l) (Z.to_nat (SPSC.capacity Capacity))) as [He|He];
    destruct Hp as (Hr & _ & _); inversion Hr; subst ok;
    unfold SPSC.capacity in *; split; intros; try discriminate; try lia;
    reflexivity.
Qed.

(** C6. Run by one producer and one consumer, one call after the other, a
    queue of capacity [C = 2^k] returns from [pop] the pushed values in push
    order; it behaves as a first-in first-out list that refuses a push
    exactly when it holds [C - 1] elements, which is what [capacity()]
    reports; a refused push leaves the queue, and so the unread data,
    untouched. *)
Theorem spsc_fifo (d : T) (ops : list (op T)) :
  let q0 := SPSC.SPSCQueue_new Capacity d in
  let q := snd (run Capacity ops q0) in
  fst (run Capacity ops q0)
  = fst (fifo_run (Z.to_nat (Capacity - 1)) ops []) /\
  SPSC.capacity Capacity = Capacity - 1 /\
  forall v : T,
    (fst (SPSC.push Capacity v q) = false
     <-> SPSC.size Capacity q = Capacity - 1) /\
    (fst (SPSC.push Capacity v q) = false -> snd (SPSC.push Capacity v q) = q).
Proof using k_size_t.
  intros q0 q.
  destruct (run_refines ops q0 [] (represents_new d)) as [Hout Hrep].
  split; [exact Hout|]. split; [reflexivity|].
  intros v. split.
  - exact (push_full_iff v q _ Hrep).
  - pose proof (push_refines v q _ Hrep) as Hp.
    destruct (SPSC.push Capacity v q) as [ok q'].
    destruct (fifo_step _ _ _) as [r l']. simpl.
    destruct Hp as (_ & _ & Hsame). exact Hsame.
Qed.

End QueueProofs.

Lemma spsc_fifo_witness :
  (2 < 64)%nat /\
  fst (QueueSpec.run 4%Z
         [QueueSpec.Push 10%Z; QueueSpec.Push 20%Z; QueueSpec.Push 30%Z;
          QueueSpec.Push 40%Z; QueueSpec.Pop; QueueSpec.Pop; QueueSpec.Push 50%Z;
          QueueSpec.Pop; QueueSpec.Pop; QueueSpec.Pop]
         (SPSC.SPSCQueue_new 4%Z 0%Z))
  = [QueueSpec.Pushed true; QueueSpec.Pushed true; QueueSpec.Pushed true;
     QueueSpec.Pushed false; QueueSpec.Popped (Some 10%Z);
     QueueSpec.Popped (Some 20%Z); QueueSpec.Pushed true;
     QueueSpec.Popped (Some 30%Z); QueueSpec.Popped (Some 50%Z);
     QueueSpec.Popped None].
Proof.
  split; [lia|].
  exact (proj1 (spsc_fifo 2 ltac:(lia) 0%Z
    [QueueSpec.Push 10%Z; QueueSpec.Push 20%Z; QueueSpec.Push 30%Z;
     QueueSpec.Push 40%Z; QueueSpec.Pop; QueueSpec.Pop; QueueSpec.Push 50%Z;
     QueueSpec.Pop; QueueSpec.Pop; QueueSpec.Pop])).
Defined.

(* --------------------------------------------------------------------- *)
(** ** ObjectPool hands out each slot once *)
(* --------------------------------------------------------------------- *)

Section PoolProofs.
Import PoolSpec.
Local Open Scope Z_scope.
Context {T : Type}.
Variable T_default : T.
Variable PoolSize : nat.
Hypothesis PoolSize_pos : (0 < PoolSize)%nat.
Hypothesis PoolSize_size_t : Z.of_nat PoolSize < 2 ^ 64.

Local Abbreviation inv := (@pool_inv T PoolSize).
Local Abbreviation client := (@PoolSpec.client T).
Local Abbreviation new_pool := (Pool.ObjectPool_new T_default PoolSize).

Lemma size_add_fresh (x : nat) (X : gset nat) :
  x ∉ X -> size ({[x]} ∪ X) = S (size X).
Proof.
  intros Hx. rewrite size_union by (apply disjoint_singleton_l; exact Hx).
  rewrite size_singleton. reflexivity.
Qed.

Lemma size_remove_live (x : nat) (X : gset nat) :
  x ∈ X -> (size (X ∖ {[x]}) + 1 = size X)%nat.
Proof.
  intros Hx.
  assert (HX : X = {[x]} ∪ (X ∖ {[x]})).
  { apply set_eq. intros y.
    rewrite elem_of_union, elem_of_difference, elem_of_singleton.
    destruct (decide (y = x)) as [->|Hne]; tauto. }
  rewrite HX at 2. rewrite size_add_fresh; [lia|].
  rewrite elem_of_difference, elem_of_singleton. tauto.
Qed.

Lemma node_next_new (i : nat) :
  (i < PoolSize)%nat ->
  Pool.node_next new_pool i = if (S i <? PoolSize)%nat then Some (S i) else None.
Proof.
  intros Hi. unfold Pool.node_next, Pool.ObjectPool_new; simpl.
  rewrite list_lookup_fmap, lookup_seq_lt by lia. reflexivity.
Qed.

Lemma chain_new (len start : nat) :
  (start + len = PoolSize)%nat ->
  chain (Pool.node_next new_pool)
        (if (start <? PoolSize)%nat then Some start else None)
        (seq start len).
Proof.
  revert start. induction len as [|len IH]; intros start Hsum; simpl.
  - destruct (Nat.ltb_spec start PoolSize); [lia | reflexivity].
  - destruct (Nat.ltb_spec start PoolSize); [|lia].
    split; [reflexivity|].
    rewrite node_next_new by lia. apply IH. lia.
Qed.

Lemma chain_ext (nx nx' : nat -> option nat) (free : list nat) :
  forall h, (forall n, n ∈ free -> nx' n = nx n) ->
  chain nx h free -> chain nx' h free.
Proof.
  induction free as [|n rest IH]; intros h Hext Hc; simpl in *; [exact Hc|].
  destruct Hc as [-> Hc]. split; [reflexivity|].
  rewrite Hext by (left). apply IH; [|exact Hc].
  intros m Hm. apply Hext. right. exact Hm.
Qed.

Lemma inv_fresh : inv (fresh T_default PoolSize).
Proof.
  exists (seq 0 PoolSize). unfold fresh; cbn [fst snd].
  split_and!.
  - pose proof (chain_new PoolSize 0 eq_refl) as Hc.
    destruct (Nat.ltb_spec 0 PoolSize); [exact Hc | lia].
  - apply NoDup_seq.
  - intros n _. apply not_elem_of_empty.
  - intros n Hn. apply elem_of_seq in Hn. lia.
  - intros n Hn. exfalso. revert Hn. apply not_elem_of_empty.
  - rewrite length_seq, size_empty. lia.
  - simpl. rewrite length_map, length_seq. reflexivity.
  - rewrite size_empty. reflexivity.
Qed.

Lemma node_next_set_storage (fl : option nat) (al : Z)
    (p : Pool.ObjectPool T) (n m : nat) (v : T) :
  Pool.node_next (Pool.mkPool fl al (Pool.set_storage (Pool.nodes_ p) n v)) m
  = Pool.node_next p m.
Proof.
  unfold Pool.node_next, Pool.set_storage; simpl.
  destruct (Pool.nodes_ p !! n) as [nd|] eqn:Hn; [|reflexivity].
  destruct (decide (m = n)) as [->|Hne].
  - rewrite list_lookup_insert_eq by (eapply lookup_lt_Some; eauto).
    rewrite Hn. reflexivity.
  - rewrite list_lookup_insert_ne by congruence. reflexivity.
Qed.

Lemma node_next_set_next (fl : option nat) (al : Z)
    (p : Pool.ObjectPool T) (n m : nat) (nx : option nat) :
  (n < length (Pool.nodes_ p))%nat ->
  Pool.node_next (Pool.mkPool fl al (Pool.set_next (Pool.nodes_ p) n nx)) m
  = if decide (m = n) then nx else Pool.node_next p m.
Proof.
  intros Hn. unfold Pool.node_next, Pool.set_next; simpl.
  destruct (lookup_lt_is_Some_2 (Pool.nodes_ p) n Hn) as [nd Hnd]. rewrite Hnd.
  destruct (decide (m = n)) as [->|Hne].
  - rewrite list_lookup_insert_eq by exact Hn. reflexivity.
  - rewrite list_lookup_insert_ne by congruence. reflexivity.
Qed.

Lemma length_set_storage (nodes : list (Pool.Node T)) (n : nat) (v : T) :
  length (Pool.set_storage nodes n v) = length nodes.
Proof.
  unfold Pool.set_storage. destruct (nodes !! n); [apply length_insert | reflexivity].
Qed.

Lemma length_set_next (nodes : list (Pool.Node T)) (n : nat) (nx : option nat) :
  length (Pool.set_next nodes n nx) = length nodes.
Proof.
  unfold Pool.set_next. destruct (nodes !! n); [apply length_insert | reflexivity].
Qed.

(** [allocate] hands out a node exactly when fewer than [PoolSize]
    allocations are live, and keeps the invariant. *)
Lemma allocate_inv (c : client) :
  inv c ->
  match Pool.allocate T_default (fst c) with
  | (Some ptr, p') =>
      (size (snd c) < PoolSize)%nat /\ (ptr ∉ snd c) /\
      inv (p', {[ptr]} ∪ snd c)
  | (None, p') => size (snd c) = PoolSize /\ p' = fst c
  end.
Proof.
  destruct c as [p live]. cbn [fst snd].
  intros (free & Hchain & Hnd & Hdisj & Hfree & Hlive & Hcount & Hlen & Hal).
  simpl in *. unfold Pool.allocate, Pool.pop_free.
  destruct free as [|n rest]; simpl in Hchain.
  - rewrite Hchain. simpl in Hcount. split; [lia | reflexivity].
  - destruct Hchain as [Hhead Hchain]. rewrite Hhead. simpl in Hcount.
    assert (Hn : n ∉ live) by (apply Hdisj; left).
    split; [lia|]. split; [exact Hn|].
    apply NoDup_cons in Hnd as [Hnrest Hnd].
    exists rest; cbn [fst snd]. split_and!.
    + eapply chain_ext; [|exact Hchain].
      intros m _. rewrite node_next_set_storage. reflexivity.
    + exact Hnd.
    + intros m Hm. rewrite elem_of_union, elem_of_singleton.
      intros [->|Hml]; [contradiction|].
      revert Hml. apply Hdisj. right. exact Hm.
    + intros m Hm. apply Hfree. right. exact Hm.
    + intros m. rewrite elem_of_union, elem_of_singleton.
      intros [->|Hml]; [apply Hfree; left | apply Hlive; exact Hml].
    + rewrite size_add_fresh by exact Hn. lia.
    + simpl. rewrite length_set_storage. exact Hlen.
    + simpl. rewrite size_add_fresh by exact Hn.
      rewrite Hal. unfold wrapU64. rewrite Z.mod_small; lia.
Qed.

Lemma node_next_deallocate (p : Pool.ObjectPool T) (n m : nat) :
  (n < length (Pool.nodes_ p))%nat ->
  Pool.node_next (Pool.deallocate (Some n) p) m
  = if decide (m = n) then Pool.free_list_ p else Pool.node_next p m.
Proof. intros Hn. apply node_next_set_next. exact Hn. Qed.

(** Giving back a live pointer keeps the invariant and frees one slot. *)
Lemma deallocate_inv (c : client) (ptr : nat) :
  inv c -> ptr ∈ snd c ->
  inv (Pool.deallocate (Some ptr) (fst c), snd c ∖ {[ptr]}) /\
  (size (snd c ∖ {[ptr]}) + 1 = size (snd c))%nat.
Proof.
  destruct c as [p live]. cbn [fst snd].
  intros (free & Hchain & Hnd & Hdisj & Hfree & Hlive & Hcount & Hlen & Hal) Hptr.
  cbn [fst snd] in *.
  pose proof (size_remove_live ptr live Hptr) as Hsz.
  split; [|exact Hsz].
  assert (Hpl : (ptr < length (Pool.nodes_ p))%nat) by (rewrite Hlen; auto).
  exists (ptr :: free); cbn [fst snd]. split_and!.
  - cbn [chain]. split; [reflexivity|].
    rewrite node_next_deallocate by exact Hpl.
    rewrite decide_True by reflexivity.
    eapply chain_ext; [|exact Hchain].
    intros m Hm.
    rewrite node_next_deallocate by exact Hpl.
    rewrite decide_False; [reflexivity|].
    intros ->. exact (Hdisj _ Hm Hptr).
  - apply NoDup_cons. split; [|exact Hnd].
    intros Hin. exact (Hdisj _ Hin Hptr).
  - intros m Hm. rewrite elem_of_difference, elem_of_singleton.
    intros [Hml Hne]. apply elem_of_cons in Hm as [Heq|Hmf]; [contradiction|].
    exact (Hdisj m Hmf Hml).
  - intros m Hm. apply elem_of_cons in Hm as [Heq|Hmf];
      [subst m; apply Hlive; exact Hptr | apply Hfree; exact Hmf].
  - intros m Hm. apply Hlive.
    apply elem_of_difference in Hm as [Hml _]. exact Hml.
  - simpl. lia.
  - simpl. rewrite length_set_next. exact Hlen.
  - simpl. rewrite Hal. unfold wrapU64. rewrite Z.mod_small; lia.
Qed.

Lemma step_inv (o : op) (c : client) :
  inv c ->
  forall r c', step T_default o c = Some (r, c') -> inv c'.
Proof.
  intros Hinv r c' Hstep. destruct o as [|ptr]; simpl in Hstep.
  - pose proof (allocate_inv c Hinv) as Ha.
    destruct (Pool.allocate T_default (fst c)) as [[n|] p'].
    + inversion Hstep; subst. apply Ha.
    + inversion Hstep; subst. destruct Ha as [_ ->].
      destruct c; exact Hinv.
  - destruct (decide (ptr ∈ snd c)) as [Hin|]; [|discriminate].
    inversion Hstep; subst. apply deallocate_inv; assumption.
Qed.

Lemma run_inv (ops : list op) :
  forall c, inv c ->
  forall rs c', run T_default ops c = Some (rs, c') -> inv c'.
Proof.
  induction ops as [|o ops IH]; intros c Hinv rs c' Hrun; simpl in Hrun.
  - inversion Hrun; subst. exact Hinv.
  - destruct (step T_default o c) as [[r c1]|] eqn:Hs; [|discriminate].
    destruct (run T_default ops c1) as [[rs1 c2]|] eqn:Hr; [|discriminate].
    inversion Hrun; subst.
    eapply IH; [|exact Hr]. eapply step_inv; eauto.
Qed.

(** [n] allocations in a row all succeed while there is room. *)
Lemma run_allocs (n : nat) :
  forall c, inv c -> (size (snd c) + n <= PoolSize)%nat ->
  exists rs c',
    run T_default (replicate n Alloc) c = Some (rs, c') /\
    Forall is_Some rs /\ length rs = n /\
    size (snd c') = (size (snd c) + n)%nat.
Proof.
  induction n as [|n IH]; intros c Hinv Hroom; simpl.
  - exists [], c. repeat split; [constructor | lia].
  - pose proof (allocate_inv c Hinv) as Ha.
    destruct (Pool.allocate T_default (fst c)) as [[ptr|] p'].
    + destruct Ha as (_ & Hfresh & Hinv').
      destruct (IH _ Hinv') as (rs & c' & Hrun & Hall & Hlenrs & Hsz).
      { cbn [snd]. rewrite size_add_fresh by exact Hfresh. lia. }
      rewrite Hrun. exists (Some ptr :: rs), c'.
      repeat split; [constructor; eauto | simpl; lia |].
      rewrite Hsz. cbn [snd]. rewrite size_add_fresh by exact Hfresh. lia.
    + destruct Ha as [Hfull _]. lia.
Qed.

(** C7. A pool of [N] slots used by one thread: the first [N] calls of
    [allocate] each return a pointer, the next one returns null; after one
    of the allocated objects is given back, one more [allocate] succeeds and
    the one after it returns null again; and however allocations and
    deallocations of live objects are interleaved, the counter [allocated()]
    equals the number of live allocations, which never exceeds [N]. *)
Theorem pool_exhaustion :
  (exists rs c,
     run T_default (replicate PoolSize Alloc) (fresh T_default PoolSize)
     = Some (rs, c) /\
     length rs = PoolSize /\ Forall is_Some rs /\
     fst (Pool.allocate T_default (fst c)) = None /\
     forall x, x ∈ snd c ->
       exists y p2,
         Pool.allocate T_default (Pool.deallocate (Some x) (fst c)) = (Some y, p2) /\
         fst (Pool.allocate T_default p2) = None) /\
  (forall ops rs c,
     run T_default ops (fresh T_default PoolSize) = Some (rs, c) ->
     Pool.allocated (fst c) = Z.of_nat (size (snd c)) /\
     (size (snd c) <= PoolSize)%nat /\
     (is_Some (fst (Pool.allocate T_default (fst c)))
      <-> (size (snd c) < PoolSize)%nat)).
Proof.
  split.
  - destruct (run_allocs PoolSize _ inv_fresh) as (rs & c & Hrun & Hall & Hlen & Hsz).
    { unfold fresh; cbn [snd]. rewrite size_empty. lia. }
    unfold fresh in Hsz; cbn [snd] in Hsz. rewrite size_empty in Hsz.
    pose proof (run_inv _ _ inv_fresh _ _ Hrun) as Hinv.
    exists rs, c. split_and!; try assumption.
    + pose proof (allocate_inv c Hinv) as Ha.
      destruct (Pool.allocate T_default (fst c)) as [[ptr|] p']; [|reflexivity].
      lia.
    + intros x Hx.
      destruct (deallocate_inv c x Hinv Hx) as [Hinv1 Hsz1].
      pose proof (allocate_inv _ Hinv1) as Ha. cbn [fst snd] in Ha.
      destruct (Pool.allocate T_default (Pool.deallocate (Some x) (fst c)))
        as [[y|] p2].
      * destruct Ha as (_ & Hy & Hinv2). exists y, p2. split; [reflexivity|].
        pose proof (allocate_inv _ Hinv2) as Hb. cbn [fst snd] in Hb.
        destruct (Pool.allocate T_default p2) as [[z|] p3]; [|reflexivity].
        destruct Hb as (Hlt & _).
        rewrite size_add_fresh in Hlt by exact Hy. lia.
      * destruct Ha as [Hfull _]. lia.
  - intros ops rs c Hrun.
    pose proof (run_inv _ _ inv_fresh _ _ Hrun) as Hinv.
    pose proof (allocate_inv c Hinv) as Ha.
    destruct Hinv as (free & _ & _ & _ & _ & _ & Hcount & _ & Hal).
    split_and!; [exact Hal | lia |].
    destruct (Pool.allocate T_default (fst c)) as [[ptr|] p']; cbn [fst].
    + split; [intros _; apply Ha | eauto].
    + destruct Ha as [Hfull _]. split; [intros [? ?]; discriminate | lia].
Qed.

End PoolProofs.

Lemma pool_exhaustion_witness :
  (0 < 3)%nat /\ (Z.of_nat 3 < 2 ^ 64)%Z /\
  exists rs c,
    PoolSpec.run 0%Z (replicate 3 PoolSpec.Alloc) (PoolSpec.fresh 0%Z 3)
    = Some (rs, c) /\
    length rs = 3%nat /\ Forall is_Some rs /\
    fst (Pool.allocate 0%Z (fst c)) = None.
Proof.
  split; [lia|]. split; [reflexivity|].
  destruct (pool_exhaustion 0%Z 3 ltac:(lia) ltac:(reflexivity))
    as [(rs & c & Hrun & Hlen & Hall & Hnull & _) _].
  exists rs, c. auto.
Defined.

(* --------------------------------------------------------------------- *)
(** ** 64-bit arithmetic without overflow *)
(* --------------------------------------------------------------------- *)

Section IntegerFacts.
Local Open Scope Z_scope.

Lemma wrap64_id (z : Z) : in_int64 z -> wrap64 z = z.
Proof.
  unfold in_int64, wrap64, INT64_MIN, INT64_MAX. intros Hz.
  rewrite Z.mod_small; lia.
Qed.

Lemma wrap64_range (z : Z) : in_int64 (wrap64 z).
Proof.
  unfold in_int64, wrap64, INT64_MIN, INT64_MAX.
  pose proof (Z.mod_pos_bound (z + 2 ^ 63) (2 ^ 64)). lia.
Qed.

Lemma min64_min (a b : Z) : min64 a b = Z.min a b.
Proof. unfold min64. destruct (Z.ltb_spec b a); lia. Qed.

Lemma div64_nonneg (a b : Z) :
  0 <= a <= INT64_MAX -> 0 < b -> div64 a b = a / b.
Proof.
  intros Ha Hb. unfold div64. rewrite Z.quot_div_nonneg by lia.
  apply wrap64_id. unfold in_int64, INT64_MIN.
  pose proof (Z.div_pos a b).
  assert (a / b <= a) by (apply Z.div_le_upper_bound; nia).
  lia.
Qed.

End IntegerFacts.

(** Arithmetic goals over the 64-bit bounds and the two scales. *)
Ltac int64_lia :=
  unfold in_int64, INT64_MAX, INT64_MIN, QUANTITY_SCALE, PRICE_SCALE in *; lia.

(* --------------------------------------------------------------------- *)
(** ** Orderbook: single-level updates and the execution price *)
(* --------------------------------------------------------------------- *)

Section BookProofs.
Import BookSpec.
Local Open Scope Z_scope.

(** C10. A level index at or beyond the 25 levels of the book makes
    [update_bid] and [update_ask] return the book as it was: every price
    level of both sides, both depth counts, the sequence number and the
    timestamp keep their values. *)
Theorem update_level_out_of_range (b : Book.Orderbook) (level : nat)
    (p : PriceMicro) (qty : QuantityNano) :
  (Book.MAX_ORDERBOOK_LEVELS <= level)%nat ->
  Book.update_bid level p qty b = b /\ Book.update_ask level p qty b = b.
Proof.
  intros Hlevel. unfold Book.update_bid, Book.update_ask.
  destruct (Nat.ltb_spec level Book.MAX_ORDERBOOK_LEVELS) as [Hlt|_]; [lia|].
  split; reflexivity.
Qed.

Lemma fills_nonneg (levels : list Book.PriceLevel) :
  forall qty, Forall level_ok levels -> Forall (fun f => 0 <= f) (fills levels qty).
Proof.
  induction levels as [|lv rest IH]; intros qty Hok; simpl; [constructor|].
  apply Forall_cons in Hok as [[_ Hq] Hrest].
  destruct (Z.ltb_spec 0 qty); constructor; [lia | apply IH; exact Hrest].
Qed.

Lemma liquidity_nonneg (levels : list Book.PriceLevel) :
  Forall level_ok levels -> 0 <= liquidity levels.
Proof.
  unfold liquidity. induction 1 as [|lv r [_ Hq] _ IH]; simpl; lia.
Qed.

Lemma filled_min (levels : list Book.PriceLevel) :
  forall qty, Forall level_ok levels -> 0 <= qty ->
  filled levels qty = Z.min qty (liquidity levels).
Proof.
  unfold filled, liquidity.
  induction levels as [|lv rest IH]; intros qty Hok Hqty; simpl; [lia|].
  apply Forall_cons in Hok as [[_ Hq] Hrest].
  pose proof (liquidity_nonneg rest Hrest) as Hliq. unfold liquidity in Hliq.
  destruct (Z.ltb_spec 0 qty); simpl; [|lia].
  rewrite IH by (assumption || lia). lia.
Qed.

Lemma filled_nonpos (levels : list Book.PriceLevel) (qty : Z) :
  qty <= 0 -> filled levels qty = 0.
Proof.
  intros Hq. unfold filled. destruct levels; simpl; [reflexivity|].
  destruct (Z.ltb_spec 0 qty); [lia | reflexivity].
Qed.

Lemma scaled_le_notional (levels : list Book.PriceLevel) :
  forall fs, Forall level_ok levels -> Forall (fun f => 0 <= f) fs ->
  0 <= scaled_notional levels fs /\
  scaled_notional levels fs * QUANTITY_SCALE <= notional levels fs.
Proof.
  induction levels as [|lv rest IH]; intros fs Hok Hfs; simpl; [lia|].
  destruct fs as [|f fs]; [lia|].
  apply Forall_cons in Hok as [[Hp _] Hrest].
  apply Forall_cons in Hfs as [Hf Hfs].
  destruct (IH fs Hrest Hfs) as [H0 Hle].
  assert (0 <= Book.price lv * f) by nia.
  pose proof (Z.div_pos (Book.price lv * f) QUANTITY_SCALE).
  pose proof (Z.mul_div_le (Book.price lv * f) QUANTITY_SCALE).
  unfold QUANTITY_SCALE in *. lia.
Qed.

Lemma scaled_whole (levels : list Book.PriceLevel) :
  forall fs, whole_terms levels fs ->
  scaled_notional levels fs * QUANTITY_SCALE = notional levels fs.
Proof.
  induction levels as [|lv rest IH]; intros fs Hw; simpl; [reflexivity|].
  destruct fs as [|f fs]; [reflexivity|].
  destruct Hw as [Hm Hw]. specialize (IH fs Hw).
  pose proof (Z.div_mod (Book.price lv * f) QUANTITY_SCALE).
  unfold QUANTITY_SCALE in *. lia.
Qed.

(** The loop of [estimate_execution_price] computes the walk in exact
    integers as long as the notional fits in 64 bits. *)
Lemma walk_loop_exact (levels : list Book.PriceLevel) :
  forall (n i : nat) (w : Book.walk),
    let L := map (Book.level_at levels) (seq i n) in
    let fs := fills L (Book.w_remaining w) in
    Forall level_ok L ->
    in_int64 (Book.w_remaining w) ->
    0 <= Book.w_filled w -> 0 <= Book.w_weighted_sum w ->
    Book.w_filled w + Z.max 0 (Book.w_remaining w) <= INT64_MAX ->
    Book.w_weighted_sum w + notional L fs <= INT64_MAX ->
    Book.walk_loop levels n i w
    = Book.mkWalk (Book.w_remaining w - sum_list fs)
                  (Book.w_weighted_sum w + scaled_notional L fs)
                  (Book.w_filled w + sum_list fs).
Proof.
  induction n as [|n IH]; intros i [rem ws fl];
    cbn beta zeta iota delta [Book.w_remaining Book.w_filled Book.w_weighted_sum];
    intros Hok Hrem Hfl Hws Hflmax Hwsmax.
  - simpl. f_equal; lia.
  - cbn [seq map fills Book.walk_loop Book.w_remaining Book.w_filled Book.w_weighted_sum] in *.
    destruct (Z.ltb_spec 0 rem) as [Hpos|Hnp]; [|simpl; f_equal; lia].
    apply Forall_cons in Hok as [[Hp Hq] Hrest].
    set (lv := Book.level_at levels i) in *.
    set (f := Z.min rem (Book.quantity lv)) in *.
    pose proof (fills_nonneg _ (rem - f) Hrest) as Hfs.
    pose proof (scaled_le_notional _ _ Hrest Hfs) as [Hs0 Hsle].
    cbn [notional sum_list scaled_notional] in *.
    assert (Hf : 0 <= f <= rem) by lia.
    assert (Hpf : 0 <= Book.price lv * f) by nia.
    assert (Hn0 : 0 <= notional (map (Book.level_at levels) (seq (S i) n))
                         (fills (map (Book.level_at levels) (seq (S i) n)) (rem - f))).
    { int64_lia. }
    pose proof (Z.div_pos (Book.price lv * f) QUANTITY_SCALE) as Hd0.
    pose proof (Z.mul_div_le (Book.price lv * f) QUANTITY_SCALE) as Hdle.
    rewrite min64_min. fold f.
    unfold sub64, add64, mul64.
    rewrite (wrap64_id (rem - f)) by int64_lia.
    rewrite (wrap64_id (Book.price lv * f)) by int64_lia.
    rewrite div64_nonneg by int64_lia.
    rewrite (wrap64_id (ws + _)) by int64_lia.
    rewrite (wrap64_id (fl + f)) by int64_lia.
    rewrite IH; cbn [Book.w_remaining Book.w_filled Book.w_weighted_sum];
      [f_equal; lia | exact Hrest | int64_lia ..].
Qed.

Lemma estimate_walk (s : Side) (qty : QuantityNano) (b : Book.Orderbook) :
  Book.estimate_execution_price s qty b
  = let w := Book.walk_loop
               (match s with BUY => Book.asks_ b | SELL => Book.bids_ b end)
               (match s with BUY => Book.ask_count_ b | SELL => Book.bid_count_ b end)
               0 (Book.mkWalk qty 0 0) in
    if 0 <? Book.w_filled w
    then div64 (mul64 (Book.w_weighted_sum w) QUANTITY_SCALE) (Book.w_filled w)
    else 0.
Proof. reflexivity. Qed.


(** C5, as amended. For a side whose prices and quantities are non-negative
    and an order whose notional fits in 64 bits, [estimate_execution_price]
    walks the opposing side from the best level outward, each level giving
    all it holds except the last one touched; it returns 0 when nothing was
    filled, and otherwise the fixed-point value
    [(sum_i (price_i * fill_i / 10^9)) * 10^9 / filled]: never above the
    quantity-weighted average price of what was filled, and equal to it
    (rounded down) when every [price_i * fill_i] is a whole number of
    micro-units. With asks 5 @ 10.0 and 5 @ 11.0 a buy of 8 is estimated at
    10.375. *)
Theorem estimate_execution_price_fixed_point (s : Side) (qty : QuantityNano)
    (b : Book.Orderbook) :
  let L := opposing s b in
  let fs := fills L qty in
  let est := Book.estimate_execution_price s qty b in
  Forall level_ok L ->
  in_int64 qty ->
  notional L fs <= INT64_MAX ->
  est = (if 0 <? filled L qty
         then scaled_notional L fs * QUANTITY_SCALE / filled L qty
         else 0) /\
  filled L qty = Z.max 0 (Z.min qty (liquidity L)) /\
  (filled L qty = 0 -> est = 0) /\
  0 <= est <= weighted_average L qty /\
  (whole_terms L fs -> est = weighted_average L qty) /\
  Book.estimate_execution_price BUY 8000000000
    (book_of_asks [Book.mkPriceLevel 10000000 5000000000 0 0;
                   Book.mkPriceLevel 11000000 5000000000 0 0])
  = 10375000.
Proof.
  intros L fs est Hok Hqty Hfit.
  pose proof (fills_nonneg L qty Hok) as Hfs. fold fs in Hfs.
  pose proof (scaled_le_notional L fs Hok Hfs) as [Hs0 Hsle].
  assert (Hwalk : Book.walk_loop
            (match s with BUY => Book.asks_ b | SELL => Book.bids_ b end)
            (match s with BUY => Book.ask_count_ b | SELL => Book.bid_count_ b end)
            0 (Book.mkWalk qty 0 0)
          = Book.mkWalk (qty - filled L qty) (scaled_notional L fs) (filled L qty)).
  { rewrite walk_loop_exact;
      cbn [Book.w_remaining Book.w_filled Book.w_weighted_sum];
      try (destruct s; first [exact Hok | exact Hfit | exact Hqty]);
      try int64_lia.
    destruct s; reflexivity. }
  assert (Hfilled : filled L qty = Z.max 0 (Z.min qty (liquidity L))).
  { destruct (Z.le_gt_cases 0 qty) as [Hq|Hq].
    - rewrite filled_min by assumption.
      pose proof (liquidity_nonneg L Hok). lia.
    - rewrite filled_nonpos by lia. lia. }
  assert (Hest : est = if 0 <? filled L qty
                       then scaled_notional L fs * QUANTITY_SCALE / filled L qty
                       else 0).
  { unfold est. rewrite estimate_walk, Hwalk.
    cbn beta zeta iota delta [Book.w_remaining Book.w_filled Book.w_weighted_sum].
    destruct (Z.ltb_spec 0 (filled L qty)) as [Hpos|Hnp]; [|reflexivity].
    unfold mul64. rewrite wrap64_id by int64_lia.
    apply div64_nonneg; int64_lia. }
  split_and!; try assumption.
  - intros H0. rewrite Hest, H0. reflexivity.
  - rewrite Hest. unfold weighted_average. fold fs.
    destruct (Z.ltb_spec 0 (filled L qty)); [|lia].
    apply Z.div_pos; int64_lia.
  - rewrite Hest. unfold weighted_average. fold fs.
    destruct (Z.ltb_spec 0 (filled L qty)); [|lia].
    apply Z.div_le_mono; int64_lia.
  - intros Hw. rewrite Hest. unfold weighted_average. fold fs.
    rewrite (scaled_whole L fs Hw). reflexivity.
  - vm_compute. reflexivity.
Qed.

End BookProofs.

Lemma estimate_execution_price_fixed_point_witness :
  let asks := [Book.mkPriceLevel 10000000 5000000000 0 0;
               Book.mkPriceLevel 11000000 5000000000 0 0] in
  let b := BookSpec.book_of_asks asks in
  Forall BookSpec.level_ok (BookSpec.opposing BUY b) /\
  in_int64 8000000000 /\
  (BookSpec.notional (BookSpec.opposing BUY b)
     (BookSpec.fills (BookSpec.opposing BUY b) 8000000000) <= INT64_MAX)%Z /\
  Book.estimate_execution_price BUY 8000000000 b
  = BookSpec.weighted_average (BookSpec.opposing BUY b) 8000000000.
Proof.
  intros asks b.
  assert (Hok : Forall BookSpec.level_ok (BookSpec.opposing BUY b)).
  { repeat constructor; vm_compute; discriminate. }
  assert (Hq : in_int64 8000000000).
  { split; vm_compute; discriminate. }
  assert (Hfit : (BookSpec.notional (BookSpec.opposing BUY b)
     (BookSpec.fills (BookSpec.opposing BUY b) 8000000000) <= INT64_MAX)%Z).
  { vm_compute; discriminate. }
  split_and!; try assumption.
  destruct (estimate_execution_price_fixed_point BUY 8000000000 b Hok Hq Hfit)
    as (_ & _ & _ & _ & Hwhole & _).
  apply Hwhole. vm_compute. repeat split.
Defined.

(** C5 as the claim states it fails on small fills: a buy of 0.0015 against
    a single ask at 0.3201 is estimated at 0.32, not at the price of the only
    level it fills from; and a buy of 50 nano-units against 5 units offered
    at 10.0 is estimated at 0 although all 50 were filled. *)
Lemma estimate_execution_price_truncates :
  let b1 := BookSpec.book_of_asks [Book.mkPriceLevel 320100 80000000000000 0 0] in
  let b2 := BookSpec.book_of_asks [Book.mkPriceLevel 10000000 5000000000 0 0] in
  (Book.estimate_execution_price BUY 1500000 b1 = 320000 /\
   BookSpec.weighted_average (BookSpec.opposing BUY b1) 1500000 = 320100) /\
  (Book.estimate_execution_price BUY 50 b2 = 0 /\
   BookSpec.filled (BookSpec.opposing BUY b2) 50 = 50)%Z.
Proof. vm_compute. repeat split. Qed.

Lemma update_level_out_of_range_witness :
  (Book.MAX_ORDERBOOK_LEVELS <= 25)%nat /\
  Book.update_bid 25 1000000 5000000000 Book.Orderbook_default
  = Book.Orderbook_default /\
  Book.update_ask 25 1000000 5000000000 Book.Orderbook_default
  = Book.Orderbook_default.
Proof.
  split; [reflexivity|].
  apply (update_level_out_of_range Book.Orderbook_default 25 1000000 5000000000).
  reflexivity.
Defined.

(* --------------------------------------------------------------------- *)
(** ** Comparisons on doubles *)
(* --------------------------------------------------------------------- *)

Section DoubleOrder.

Lemma SFcompare_Lt_Gt (a b : spec_float) :
  SFcompare a b = Some Lt -> SFcompare b a = Some Gt.
Proof.
  destruct a as [sa|sa| |sa ma ea], b as [sb|sb| |sb mb eb]; simpl;
    try discriminate;
    try (destruct sa; discriminate || reflexivity);
    try (destruct sb; discriminate || reflexivity);
    try (destruct sa, sb; discriminate || reflexivity).
  destruct sa, sb; try discriminate; try reflexivity.
  - rewrite (Z.compare_antisym ea eb).
    destruct (ea ?= eb) eqn:He; simpl; try discriminate; try reflexivity.
    change (Pos.compare_cont Eq mb ma) with (Pos.compare mb ma).
    change (Pos.compare_cont Eq ma mb) with (Pos.compare ma mb).
    rewrite (Pos.compare_antisym ma mb).
    destruct (Pos.compare ma mb); simpl; discriminate || reflexivity.
  - rewrite (Z.compare_antisym ea eb).
    destruct (ea ?= eb) eqn:He; simpl; try discriminate; try reflexivity.
    change (Pos.compare_cont Eq mb ma) with (Pos.compare mb ma).
    change (Pos.compare_cont Eq ma mb) with (Pos.compare ma mb).
    rewrite (Pos.compare_antisym ma mb).
    destruct (Pos.compare ma mb); simpl; discriminate || reflexivity.
Qed.

(** [b < a] excludes [a <= b]. *)
Lemma dlt_not_dle (a b : double) : dlt b a = true -> dle a b = false.
Proof.
  unfold dlt, dle, SFltb, SFleb. intros H.
  destruct (SFcompare b a) as [[| |]|] eqn:Hc; try discriminate.
  rewrite (SFcompare_Lt_Gt b a Hc). reflexivity.
Qed.

End DoubleOrder.

(* --------------------------------------------------------------------- *)
(** ** ExecutionEngine: the position-size gate *)
(* --------------------------------------------------------------------- *)

Section RiskGate.
Import EngineSpec.
Variable clock : nat -> Timestamp.

Lemma abs64_abs (z : Z) : - INT64_MAX <= z <= INT64_MAX -> abs64 z = Z.abs z.
Proof.
  intros Hz. unfold abs64, neg64.
  destruct (Z.ltb_spec z 0); [|lia].
  rewrite wrap64_id by int64_lia. lia.
Qed.

Lemma unit_price : to_price_micro d_one = 1 * PRICE_SCALE.
Proof. reflexivity. Qed.

(** While the projected quantity fits in 64 bits, the quantity the code
    values is its magnitude. *)
Lemma projected_magnitude (sym : Symbol) (s : Side) (qty : QuantityNano)
    (e : Engine.ExecutionEngine) :
  - INT64_MAX <= projected_quantity sym s qty e <= INT64_MAX ->
  abs64 match Engine.get_position sym e with
        | Some pos =>
            match s with
            | BUY => add64 (pos_quantity pos) qty
            | SELL => sub64 (pos_quantity pos) qty
            end
        | None => qty
        end
  = Z.abs (projected_quantity sym s qty e).
Proof.
  unfold projected_quantity, held_quantity, Engine.get_position.
  destruct (Engine.positions_ e !! view sym) as [pos|]; destruct s;
    cbn [signed_quantity]; intros Hfit; unfold add64, sub64.
  - rewrite wrap64_id by int64_lia. apply abs64_abs. exact Hfit.
  - replace (pos_quantity pos - qty) with (pos_quantity pos + - qty) by lia.
    rewrite wrap64_id by int64_lia. apply abs64_abs. exact Hfit.
  - rewrite Z.add_0_l in *. apply abs64_abs. exact Hfit.
  - rewrite Z.add_0_l in *. rewrite Z.abs_opp. apply abs64_abs. lia.
Qed.

(** The gate of the code is the comparison the specification describes. *)
Lemma check_position_risk_fraction (sym : Symbol) (s : Side) (qty : QuantityNano)
    (e : Engine.ExecutionEngine) :
  - INT64_MAX <= projected_quantity sym s qty e <= INT64_MAX ->
  Engine.check_position_risk sym s qty e
  = dle (equity_fraction sym s qty e)
        (max_position_size (Engine.risk_params_ e)).
Proof.
  intros Hfit.
  unfold Engine.check_position_risk. cbn zeta.
  rewrite (projected_magnitude sym s qty e Hfit).
  unfold equity_fraction, valuation_price, Engine.get_current_price,
    Engine.get_orderbook.
  rewrite unit_price. reflexivity.
Qed.

(** C2, as amended. On an engine with positive equity, for an order whose
    projected position (held quantity plus signed order quantity) has a
    magnitude that fits in a signed 64-bit integer, [submit_order] values
    the magnitude of that sum at the mid price of the symbol's book, or at
    1.0 without a book, and compares the notional as a fraction of equity,
    computed in double arithmetic, with [max_position_size]: at most the
    limit, the gate lets the order through (and the order gets the next id
    when the order-count gate and the pool let it through too); strictly
    above the limit, the call returns id 0 and the only effect is one
    ORDER_REJECTED event carrying RISK_LIMIT_EXCEEDED. *)
Theorem position_size_gate (sym : Symbol) (s : Side) (ty : OrderType)
    (qty : QuantityNano) (p stop : PriceMicro) (tf : TimeInForce)
    (e : Engine.ExecutionEngine) :
  0 < Engine.equity_ e ->
  - INT64_MAX <= projected_quantity sym s qty e <= INT64_MAX ->
  let fraction := equity_fraction sym s qty e in
  let limit := max_position_size (Engine.risk_params_ e) in
  let r := Engine.submit_order clock sym s ty qty p stop tf e in
  Engine.check_position_risk sym s qty e = dle fraction limit /\
  (dle fraction limit = true ->
   Engine.check_order_count_risk e = true ->
   is_Some (fst (Pool.allocate Order_default (Engine.order_pool_ e))) ->
   fst r = Engine.next_order_id_ e) /\
  (dlt limit fraction = true ->
   fst r = 0 /\
   Engine.events_ (snd r)
   = Engine.events_ e
     ++ [Engine.mkEvent Engine.ORDER_REJECTED 0 sym 0 qty
           (clock (Engine.ticks_ e)) RISK_LIMIT_EXCEEDED
           "Position size limit exceeded"] /\
   Engine.active_orders_ (snd r) = Engine.active_orders_ e /\
   Engine.positions_ (snd r) = Engine.positions_ e /\
   Engine.order_pool_ (snd r) = Engine.order_pool_ e /\
   Engine.next_order_id_ (snd r) = Engine.next_order_id_ e).
Proof.
  intros _ Hfit fraction limit r.
  pose proof (check_position_risk_fraction sym s qty e Hfit) as Hgate.
  fold fraction limit in Hgate.
  split; [exact Hgate|]. split.
  - intros Hle Hcount [ptr Hptr]. subst r. unfold Engine.submit_order.
    rewrite Hgate, Hle, Hcount. cbn [negb].
    destruct (Pool.allocate Order_default (Engine.order_pool_ e)) as [[ptr'|] pool];
      [|discriminate Hptr].
    reflexivity.
  - intros Hlt. apply dlt_not_dle in Hlt.
    subst r. unfold Engine.submit_order.
    rewrite Hgate, Hlt. cbn [negb fst snd].
    repeat split.
Qed.

End RiskGate.

Lemma position_size_gate_witness :
  let e := EngineSpec.fresh in
  (* a buy worth exactly 100,000 on an equity of 1,000,000 passes *)
  fst (Engine.submit_order EngineSpec.tick_clock EngineSpec.DOGE BUY LIMIT
         100000000000000 0 0 GTC e) = 1 /\
  (* one nano-unit more is refused *)
  fst (Engine.submit_order EngineSpec.tick_clock EngineSpec.DOGE BUY LIMIT
         100000000000001 0 0 GTC e) = 0.
Proof.
  intros e.
  assert (He : 0 < Engine.equity_ e) by reflexivity.
  assert (Hq : - INT64_MAX
               <= EngineSpec.projected_quantity EngineSpec.DOGE BUY 100000000000001 e
               <= INT64_MAX) by (split; vm_compute; discriminate).
  assert (Hq' : - INT64_MAX
                <= EngineSpec.projected_quantity EngineSpec.DOGE BUY 100000000000000 e
                <= INT64_MAX) by (split; vm_compute; discriminate).
  split.
  - destruct (position_size_gate EngineSpec.tick_clock EngineSpec.DOGE BUY LIMIT
                100000000000000 0 0 GTC e He Hq') as (_ & Hacc & _).
    apply Hacc; [vm_compute; reflexivity | vm_compute; reflexivity |].
    vm_compute. eexists. reflexivity.
  - destruct (position_size_gate EngineSpec.tick_clock EngineSpec.DOGE BUY LIMIT
                100000000000001 0 0 GTC e He Hq) as (_ & _ & Hrej).
    apply Hrej. vm_compute. reflexivity.
Defined.

(** C2 as the claim states it fails where the doubles round: with an
    equity of 10,000,000,000 and no book, a buy of 1,000,000,000.000000056
    units has a notional that is strictly more than [max_position_size]
    (the double nearest 0.1) of the equity, and the order is accepted
    under id 1 with no ORDER_REJECTED event. The quantity is above 2^53
    and its conversion to [double] rounds it down to 10^18 nano-units;
    nothing leaves the 64-bit range. *)
Lemma position_size_gate_rounds :
  let e := Engine.set_equity 10000000000000000 EngineSpec.fresh in
  let qty := 1000000000000000056 in
  let r := Engine.submit_order EngineSpec.tick_clock EngineSpec.DOGE BUY LIMIT
             qty 0 0 GTC e in
  0 < Engine.equity_ e /\
  EngineSpec.projected_quantity EngineSpec.DOGE BUY qty e = qty /\
  qty <= INT64_MAX /\
  QArith_base.Qlt
    (EngineSpec.exact_value (max_position_size (Engine.risk_params_ e)))
    (EngineSpec.exact_fraction EngineSpec.DOGE BUY qty e) /\
  fst r = 1 /\
  Engine.ev_type <$> Engine.events_ (snd r) = [Engine.ORDER_SUBMITTED].
Proof.
  intros e qty r.
  split; [reflexivity|].
  split; [reflexivity|]. split; [vm_compute; discriminate|].
  split; [vm_compute; reflexivity|].
  split; vm_compute; reflexivity.
Qed.

(** The range the amended claim leaves out: when the projected quantity
    does not fit in 64 bits the sum wraps around. With a book at a mid
    price of 0.00002 and a long position of 4,900,000,000 units, a buy of
    9,000,000,000 units more would bring the position to 27.8 percent of the
    equity, and is accepted under id 2. *)
Lemma position_size_gate_wraps :
  let book := Book.update_snapshot [Book.mkPriceLevel 20 1 1 0] 1
                [Book.mkPriceLevel 20 1 1 0] 1 1 0 Book.Orderbook_default in
  let e1 := Engine.update_orderbook EngineSpec.DOGE book EngineSpec.fresh in
  let e2 := snd (Engine.submit_order EngineSpec.tick_clock EngineSpec.DOGE BUY
                   MARKET 4900000000000000000 20 0 GTC e1) in
  let r := Engine.submit_order EngineSpec.tick_clock EngineSpec.DOGE BUY LIMIT
             9000000000000000000 0 0 GTC e2 in
  EngineSpec.held_quantity EngineSpec.DOGE e2 = 4900000000000000000 /\
  INT64_MAX
  < EngineSpec.projected_quantity EngineSpec.DOGE BUY 9000000000000000000 e2 /\
  QArith_base.Qeq
    (EngineSpec.exact_fraction EngineSpec.DOGE BUY 9000000000000000000 e2)
    (QArith_base.Qmake 278 1000) /\
  fst r = 2.
Proof.
  intros book e1 e2 r.
  split; [vm_compute; reflexivity|]. split; [vm_compute; reflexivity|].
  split; vm_compute; reflexivity.
Qed.

(** The other range the amended claim leaves out: the quotient by an
    equity that is not positive. With an equity of -1,000,000 and no
    book, a buy of 9,000,000,000 units is valued at -9000 times the equity,
    which is below every limit, and is accepted under id 1. *)
Lemma position_size_gate_negative_equity :
  let e := Engine.set_equity (-1000000000000) EngineSpec.fresh in
  let qty := 9000000000000000000 in
  let r := Engine.submit_order EngineSpec.tick_clock EngineSpec.DOGE BUY LIMIT
             qty 0 0 GTC e in
  QArith_base.Qeq (EngineSpec.exact_fraction EngineSpec.DOGE BUY qty e)
                  (QArith_base.inject_Z (-9000)) /\
  fst r = 1.
Proof.
  intros e qty r. split; vm_compute; reflexivity.
Qed.

(* --------------------------------------------------------------------- *)
(** ** ExecutionEngine: position accounting *)
(* --------------------------------------------------------------------- *)

Section PositionProofs.
Import EngineSpec.

Lemma quot_in_int64 (a b : Z) : in_int64 a -> 0 < b -> in_int64 (Z.quot a b).
Proof.
  intros Ha Hb.
  destruct (Z.le_gt_cases 0 a) as [Hpos|Hneg].
  - rewrite Z.quot_div_nonneg by lia.
    pose proof (Z.div_pos a b).
    assert (a / b <= a) by (apply Z.div_le_upper_bound; nia).
    int64_lia.
  - replace a with (- - a) by lia. rewrite Z.quot_opp_l by lia.
    rewrite Z.quot_div_nonneg by lia.
    pose proof (Z.div_pos (- a) b).
    assert (- a / b <= - a) by (apply Z.div_le_upper_bound; nia).
    int64_lia.
Qed.

Lemma div64_quot (a b : Z) : in_int64 a -> 0 < b -> div64 a b = Z.quot a b.
Proof. intros Ha Hb. apply wrap64_id, quot_in_int64; assumption. Qed.

Lemma quot_abs_le (a b : Z) : 0 < b -> Z.abs (Z.quot a b) <= Z.abs a.
Proof.
  intros Hb. rewrite <- Z.quot_abs by lia.
  rewrite Z.quot_div_nonneg by lia.
  replace (Z.abs b) with b by lia.
  apply Z.div_le_upper_bound; nia.
Qed.

(** The signed quantity of a fill, as the code computes it. *)
Lemma fill_delta_signed (s : Side) (qty : QuantityNano) :
  0 < qty <= INT64_MAX ->
  match s with BUY => qty | SELL => neg64 qty end = signed_quantity s qty /\
  abs64 (signed_quantity s qty) = qty.
Proof.
  intros Hqty. split.
  - destruct s; cbn [signed_quantity]; [reflexivity|].
    unfold neg64. apply wrap64_id. int64_lia.
  - rewrite abs64_abs by (destruct s; cbn [signed_quantity]; int64_lia).
    destruct s; cbn [signed_quantity]; lia.
Qed.

(** A fill in the direction of the position. *)
Lemma apply_fill_same_direction (pos : Position) (s : Side) (qty : QuantityNano)
    (p : PriceMicro) :
  let old := pos_quantity pos in
  let avg := avg_entry_price pos in
  let new := old + signed_quantity s qty in
  let pos' := Engine.apply_fill pos s qty p in
  same_direction old s ->
  0 < qty -> 0 <= avg -> 0 <= p ->
  avg * Z.abs old + p * qty <= INT64_MAX ->
  Z.abs old + qty <= INT64_MAX ->
  pos_quantity pos' = new /\
  avg_entry_price pos' = fixed_point_average avg old p qty new /\
  avg_entry_price pos' <= claimed_average avg old p qty new /\
  ((avg * Z.abs old) mod QUANTITY_SCALE = 0 ->
   (p * qty) mod QUANTITY_SCALE = 0 ->
   avg_entry_price pos' = claimed_average avg old p qty new) /\
  realized_pnl pos' = realized_pnl pos.
Proof.
  intros old avg new pos' Hsame Hqty Havg Hp Hfit Hsize.
  assert (Habs : abs64 old = Z.abs old) by (apply abs64_abs; int64_lia).
  assert (Hao : 0 <= avg * Z.abs old) by nia.
  assert (Hpq : 0 <= p * qty) by nia.
  destruct (fill_delta_signed s qty) as [Hdelta Habsd]; [int64_lia|].
  assert (Hcond : (0 <=? old) && (0 <? signed_quantity s qty)
                  || (old <=? 0) && (signed_quantity s qty <? 0) = true).
  { destruct Hsame as [[Ho ->]|[Ho ->]]; cbn [signed_quantity]; lia. }
  assert (Hnew : Z.abs new = Z.abs old + qty).
  { subst new. destruct Hsame as [[Ho ->]|[Ho ->]]; cbn [signed_quantity]; lia. }
  assert (Hwn : add64 old (signed_quantity s qty) = new).
  { unfold add64. apply wrap64_id. subst new.
    destruct s; cbn [signed_quantity]; int64_lia. }
  subst pos'. unfold Engine.apply_fill. rewrite Hdelta. fold old avg.
  rewrite Hcond. cbn [pos_quantity avg_entry_price realized_pnl].
  rewrite Habs, Habsd, Hwn.
  split; [reflexivity|].
  destruct (Z.eqb_spec new 0) as [H0|_]; [lia|].
  rewrite abs64_abs by int64_lia.
  pose proof (Z.div_pos (avg * Z.abs old) QUANTITY_SCALE) as Hd1.
  pose proof (Z.div_pos (p * qty) QUANTITY_SCALE) as Hd2.
  pose proof (Z.mul_div_le (avg * Z.abs old) QUANTITY_SCALE) as Hm1.
  pose proof (Z.mul_div_le (p * qty) QUANTITY_SCALE) as Hm2.
  assert (Hval :
    div64 (mul64 (add64 (div64 (mul64 avg (Z.abs old)) QUANTITY_SCALE)
                        (div64 (mul64 p qty) QUANTITY_SCALE))
                 QUANTITY_SCALE) (Z.abs new)
    = fixed_point_average avg old p qty new).
  { unfold mul64 at 2 3.
    rewrite (wrap64_id (avg * Z.abs old)) by int64_lia.
    rewrite (wrap64_id (p * qty)) by int64_lia.
    rewrite (div64_nonneg (avg * Z.abs old)) by int64_lia.
    rewrite (div64_nonneg (p * qty)) by int64_lia.
    unfold add64. rewrite wrap64_id by int64_lia.
    unfold mul64. rewrite wrap64_id by int64_lia.
    rewrite div64_nonneg by int64_lia.
    unfold fixed_point_average. replace (Z.abs qty) with qty by lia.
    reflexivity. }
  rewrite Hval. unfold fixed_point_average, claimed_average.
  replace (Z.abs qty) with qty by lia.
  split_and!.
  - reflexivity.
  - apply Z.div_le_mono; int64_lia.
  - intros Hw1 Hw2. f_equal.
    pose proof (Z.div_mod (avg * Z.abs old) QUANTITY_SCALE).
    pose proof (Z.div_mod (p * qty) QUANTITY_SCALE).
    int64_lia.
  - reflexivity.
Qed.

(** A fill against the position. *)
Lemma apply_fill_opposite_direction (pos : Position) (s : Side)
    (qty : QuantityNano) (p : PriceMicro) :
  let old := pos_quantity pos in
  let avg := avg_entry_price pos in
  let new := old + signed_quantity s qty in
  let pos' := Engine.apply_fill pos s qty p in
  opposite_direction old s ->
  0 < qty <= INT64_MAX -> Z.abs old <= INT64_MAX ->
  Z.abs ((p - avg) * Z.min (Z.abs old) qty) <= INT64_MAX ->
  in_int64 (realized_pnl pos + realized_on_close avg old p qty) ->
  pos_quantity pos' = new /\
  avg_entry_price pos' = avg /\
  realized_pnl pos' = realized_pnl pos + realized_on_close avg old p qty.
Proof.
  intros old avg new pos' Hopp Hqty Hold Hprod Hsum.
  assert (Habs : abs64 old = Z.abs old) by (apply abs64_abs; int64_lia).
  destruct (fill_delta_signed s qty Hqty) as [Hdelta Habsd].
  assert (Hcond : (0 <=? old) && (0 <? signed_quantity s qty)
                  || (old <=? 0) && (signed_quantity s qty <? 0) = false).
  { destruct Hopp as [[Ho ->]|[Ho ->]]; cbn [signed_quantity]; lia. }
  assert (Hmin : 1 <= Z.min (Z.abs old) qty).
  { destruct Hopp as [[Ho _]|[Ho _]]; lia. }
  assert (Hdiff : Z.abs (p - avg) <= INT64_MAX).
  { rewrite Z.abs_mul in Hprod.
    assert (Z.abs (Z.min (Z.abs old) qty) = Z.min (Z.abs old) qty) as Hm by lia.
    rewrite Hm in Hprod. pose proof (Z.abs_nonneg (p - avg)). nia. }
  subst pos'. unfold Engine.apply_fill. rewrite Hdelta. fold old avg.
  rewrite Hcond. cbn [pos_quantity avg_entry_price realized_pnl].
  split.
  { unfold add64. apply wrap64_id. subst new.
    destruct Hopp as [[Ho ->]|[Ho ->]]; cbn [signed_quantity]; int64_lia. }
  split; [reflexivity|].
  rewrite Habs, Habsd, min64_min.
  unfold sub64. rewrite (wrap64_id (p - avg)) by int64_lia.
  unfold mul64. rewrite wrap64_id by int64_lia.
  rewrite div64_quot by int64_lia.
  assert (Hroc :
    (if 0 <? old
     then Z.quot ((p - avg) * Z.min (Z.abs old) qty) QUANTITY_SCALE
     else neg64 (Z.quot ((p - avg) * Z.min (Z.abs old) qty) QUANTITY_SCALE))
    = realized_on_close avg old p qty).
  { unfold realized_on_close. replace (Z.abs qty) with qty by lia.
    destruct (Z.ltb_spec 0 old); [reflexivity|].
    unfold neg64. apply wrap64_id.
    pose proof (quot_abs_le ((p - avg) * Z.min (Z.abs old) qty) QUANTITY_SCALE).
    int64_lia. }
  rewrite Hroc. unfold add64. apply wrap64_id. exact Hsum.
Qed.

(** C3, as amended. A fill of positive quantity applied to an existing
    position. In the position's direction, for prices that are not
    negative, notionals [oldAvg*|oldQty| + fillPrice*fillQty] that fit in
    64 bits and a new quantity [|oldQty| + fillQty] that fits as well: the
    fill adds the signed quantity and sets the average entry price to the
    fixed-point value
    [(oldAvg*|oldQty|/10^9 + fillPrice*fillQty/10^9) * 10^9 / |newQty|],
    which is never above [(oldAvg*|oldQty| + fillPrice*fillQty) / |newQty|]
    and equals it when both notionals are whole numbers of micro-units.
    Against the position, for quantities whose magnitudes fit in 64 bits, a
    product [(fillPrice - avg) * min(|oldQty|, fillQty)] that fits and a
    realized PnL that stays within 64 bits: the fill leaves the average
    entry price unchanged, adds the signed quantity, and adds to the
    realized PnL that product in micro-units rounded toward zero, signed
    by the direction of the prior position. Starting flat, buy 10 @ 100.0
    then buy 10 @ 110.0 gives quantity 20 at an average of 105.0; selling
    15 @ 120.0 then leaves 5, realizes 225.0 and keeps the average at
    105.0. *)
Theorem apply_fill_fixed_point (pos : Position) (s : Side) (qty : QuantityNano)
    (p : PriceMicro) :
  let old := pos_quantity pos in
  let avg := avg_entry_price pos in
  let new := old + signed_quantity s qty in
  let pos' := Engine.apply_fill pos s qty p in
  (same_direction old s ->
   0 < qty -> 0 <= avg -> 0 <= p ->
   avg * Z.abs old + p * qty <= INT64_MAX ->
   Z.abs old + qty <= INT64_MAX ->
   pos_quantity pos' = new /\
   avg_entry_price pos' = fixed_point_average avg old p qty new /\
   avg_entry_price pos' <= claimed_average avg old p qty new /\
   ((avg * Z.abs old) mod QUANTITY_SCALE = 0 ->
    (p * qty) mod QUANTITY_SCALE = 0 ->
    avg_entry_price pos' = claimed_average avg old p qty new) /\
   realized_pnl pos' = realized_pnl pos) /\
  (opposite_direction old s ->
   0 < qty <= INT64_MAX -> Z.abs old <= INT64_MAX ->
   Z.abs ((p - avg) * Z.min (Z.abs old) qty) <= INT64_MAX ->
   in_int64 (realized_pnl pos + realized_on_close avg old p qty) ->
   pos_quantity pos' = new /\
   avg_entry_price pos' = avg /\
   realized_pnl pos' = realized_pnl pos + realized_on_close avg old p qty) /\
  (forall clock : nat -> Timestamp,
     let e2 := market clock BUY 10000000000 110000000
                 (market clock BUY 10000000000 100000000 fresh) in
     let e3 := market clock SELL 15000000000 120000000 e2 in
     (pos_quantity <$> Engine.positions_ e2 !! view DOGE = Some 20000000000 /\
      avg_entry_price <$> Engine.positions_ e2 !! view DOGE = Some 105000000) /\
     (pos_quantity <$> Engine.positions_ e3 !! view DOGE = Some 5000000000 /\
      realized_pnl <$> Engine.positions_ e3 !! view DOGE = Some 225000000 /\
      avg_entry_price <$> Engine.positions_ e3 !! view DOGE = Some 105000000)).
Proof.
  cbn zeta. split_and!.
  - apply apply_fill_same_direction.
  - apply apply_fill_opposite_direction.
  - intros clock. vm_compute. repeat split.
Qed.

End PositionProofs.

Lemma apply_fill_fixed_point_witness :
  let long := mkPosition EngineSpec.DOGE 10000000000 100000000 0 0 0 0 in
  let large := mkPosition EngineSpec.DOGE 100000000000 100000000 0 0 0 0 in
  (* buy 10 @ 110.0 on a long position of 10 @ 100.0 *)
  (pos_quantity (Engine.apply_fill long BUY 10000000000 110000000) = 20000000000 /\
   avg_entry_price (Engine.apply_fill long BUY 10000000000 110000000)
   = 105000000) /\
  (* sell 50 @ 110.0 from a long position of 100 @ 100.0 *)
  (pos_quantity (Engine.apply_fill large SELL 50000000000 110000000)
   = 50000000000 /\
   avg_entry_price (Engine.apply_fill large SELL 50000000000 110000000)
   = 100000000 /\
   realized_pnl (Engine.apply_fill large SELL 50000000000 110000000)
   = 500000000).
Proof.
  intros long large. split.
  - destruct (apply_fill_fixed_point long BUY 10000000000 110000000)
      as (Hsame & _).
    destruct Hsame as (Hq & Havg & _).
    + left. split; reflexivity.
    + reflexivity.
    + vm_compute; discriminate.
    + vm_compute; discriminate.
    + vm_compute; discriminate.
    + vm_compute; discriminate.
    + split; [exact Hq|exact Havg].
  - destruct (apply_fill_fixed_point large SELL 50000000000 110000000)
      as (_ & Hopp & _).
    destruct Hopp as (Hq & Havg & Hpnl).
    + left. split; reflexivity.
    + split; [reflexivity|vm_compute; discriminate].
    + vm_compute; discriminate.
    + vm_compute; discriminate.
    + split; vm_compute; discriminate.
    + split; [exact Hq|]. split; [exact Havg|exact Hpnl].
Defined.

(** C3 as the claim states it fails on the average entry price: after two
    buys of 0.0015 at the same price 0.3201 the position's average entry
    price is 0.32, where the claimed formula gives 0.3201. *)
Lemma average_entry_price_truncates :
  let pos := mkPosition EngineSpec.DOGE 1500000 320100 0 0 0 0 in
  avg_entry_price (Engine.apply_fill pos BUY 1500000 320100) = 320000 /\
  EngineSpec.claimed_average 320100 1500000 320100 1500000 3000000 = 320100 /\
  avg_entry_price
    <$> Engine.positions_
          (EngineSpec.market EngineSpec.tick_clock BUY 1500000 320100
             (EngineSpec.market EngineSpec.tick_clock BUY 1500000 320100
                EngineSpec.fresh))
        !! view EngineSpec.DOGE
  = Some 320000.
Proof.
  intros pos. split; [reflexivity|]. split; [reflexivity|].
  vm_compute. reflexivity.
Qed.

(* --------------------------------------------------------------------- *)
(** ** ExecutionEngine: order lifecycle and flat positions *)
(* --------------------------------------------------------------------- *)

Section OrderLifecycle.
Import EngineSpec.
Variable clock : nat -> Timestamp.

(** *** What the pool stores *)

Lemma load_set_storage (fl : option nat) (al : Z) (p : Pool.ObjectPool Order)
    (n m : nat) (v : Order) :
  Pool.load Order_default
    (Pool.mkPool fl al (Pool.set_storage (Pool.nodes_ p) n v)) m
  = if decide (m = n)
    then match Pool.nodes_ p !! n with Some _ => v | None => Order_default end
    else Pool.load Order_default p m.
Proof.
  unfold Pool.load, Pool.set_storage; cbn [Pool.nodes_].
  destruct (Pool.nodes_ p !! n) as [nd|] eqn:Hn.
  - destruct (decide (m = n)) as [->|Hne].
    + rewrite list_lookup_insert_eq by (eapply lookup_lt_Some; eauto).
      reflexivity.
    + rewrite list_lookup_insert_ne by congruence. reflexivity.
  - destruct (decide (m = n)) as [->|Hne]; [rewrite Hn|]; reflexivity.
Qed.

Lemma load_set_next (fl : option nat) (al : Z) (p : Pool.ObjectPool Order)
    (n m : nat) (nx : option nat) :
  Pool.load Order_default
    (Pool.mkPool fl al (Pool.set_next (Pool.nodes_ p) n nx)) m
  = Pool.load Order_default p m.
Proof.
  unfold Pool.load, Pool.set_next; cbn [Pool.nodes_].
  destruct (Pool.nodes_ p !! n) as [nd|] eqn:Hn; [|reflexivity].
  destruct (decide (m = n)) as [->|Hne].
  - rewrite list_lookup_insert_eq by (eapply lookup_lt_Some; eauto).
    rewrite Hn. reflexivity.
  - rewrite list_lookup_insert_ne by congruence. reflexivity.
Qed.

Lemma pool_inactive_new (n : nat) :
  pool_inactive (Pool.ObjectPool_new Order_default n).
Proof.
  intros ptr. unfold Pool.load, Pool.ObjectPool_new; cbn [Pool.nodes_].
  rewrite list_lookup_fmap.
  destruct (seq 0 n !! ptr); reflexivity.
Qed.

Lemma pool_inactive_store (p : Pool.ObjectPool Order) (ptr : nat) (o : Order) :
  is_active o = false -> pool_inactive p -> pool_inactive (Pool.store ptr o p).
Proof.
  intros Ho Hp m. unfold Pool.store. rewrite load_set_storage.
  destruct (decide (m = ptr)); [|apply Hp].
  destruct (Pool.nodes_ p !! ptr); [exact Ho | reflexivity].
Qed.

Lemma pool_inactive_allocate (p : Pool.ObjectPool Order) :
  pool_inactive p -> pool_inactive (snd (Pool.allocate Order_default p)).
Proof.
  intros Hp. unfold Pool.allocate, Pool.pop_free.
  destruct (Pool.free_list_ p) as [head|]; cbn [snd]; [|exact Hp].
  intros m.
  change (Pool.nodes_ {| Pool.free_list_ := Pool.node_next p head;
                         Pool.allocated_ := Pool.allocated_ p;
                         Pool.nodes_ := Pool.nodes_ p |})
    with (Pool.nodes_ p).
  rewrite load_set_storage.
  destruct (decide (m = head)); [|apply Hp].
  destruct (Pool.nodes_ p !! head); reflexivity.
Qed.

Lemma pool_inactive_deallocate (p : Pool.ObjectPool Order) (ptr : option nat) :
  pool_inactive p -> pool_inactive (Pool.deallocate ptr p).
Proof.
  intros Hp. destruct ptr as [node|]; [|exact Hp].
  intros m. unfold Pool.deallocate, Pool.push_free; cbn [Pool.nodes_ Pool.free_list_ Pool.allocated_].
  rewrite load_set_next. apply Hp.
Qed.

(** *** The engine keeps every stored order inactive *)

Lemma order_pool_emit_event ty oid sym p qty err msg (e : Engine.ExecutionEngine) :
  Engine.order_pool_ (Engine.emit_event clock ty oid sym p qty err msg e)
  = Engine.order_pool_ e.
Proof. reflexivity. Qed.

Lemma positions_emit_event ty oid sym p qty err msg (e : Engine.ExecutionEngine) :
  Engine.positions_ (Engine.emit_event clock ty oid sym p qty err msg e)
  = Engine.positions_ e.
Proof. reflexivity. Qed.

Lemma order_pool_update_position sym s qty p (e : Engine.ExecutionEngine) :
  Engine.order_pool_ (Engine.update_position clock sym s qty p e)
  = Engine.order_pool_ e.
Proof.
  unfold Engine.update_position.
  destruct (Engine.positions_ e !! view sym) as [pos|]; [|reflexivity].
  cbn beta zeta iota delta [Engine.now_ns].
  destruct (is_flat _); reflexivity.
Qed.

Lemma no_active_simulate_fill (order : nat) (fill_price : PriceMicro)
    (e : Engine.ExecutionEngine) :
  no_active_order e -> no_active_order (Engine.simulate_fill clock order fill_price e).
Proof.
  intros He. unfold no_active_order, Engine.simulate_fill.
  cbn beta zeta iota delta [Engine.now_ns Engine.set_pool Engine.set_active_orders
                            Engine.order_pool_].
  rewrite order_pool_emit_event, order_pool_update_position.
  cbn [Engine.order_pool_].
  apply pool_inactive_deallocate, pool_inactive_store; [reflexivity | exact He].
Qed.

Lemma no_active_submit_order sym s ty qty p stop tf (e : Engine.ExecutionEngine) :
  no_active_order e ->
  no_active_order (snd (Engine.submit_order clock sym s ty qty p stop tf e)).
Proof.
  intros He. unfold Engine.submit_order.
  destruct (negb (Engine.check_position_risk sym s qty e)); [exact He|].
  destruct (negb (Engine.check_order_count_risk e)); [exact He|].
  pose proof (pool_inactive_allocate _ He) as Ha.
  destruct (Pool.allocate Order_default (Engine.order_pool_ e)) as [[order|] pool];
    cbn [snd] in *; [|exact Ha].
  cbn beta zeta iota delta [Engine.now_ns Engine.set_pool Engine.set_active_orders
                            Engine.set_next_order_id Engine.order_pool_].
  set (o := mkOrder _ _ _ _ _ _ _ _ _ _ _ PENDING).
  assert (Hstored : pool_inactive (Pool.store order o pool))
    by (apply pool_inactive_store; [reflexivity | exact Ha]).
  destruct (is_market ty); [|exact Hstored].
  apply no_active_simulate_fill. exact Hstored.
Qed.

(** With no active order stored, [cancel_order] refuses whatever the id. *)
Lemma cancel_order_refused (oid : OrderId) (e : Engine.ExecutionEngine) :
  no_active_order e -> Engine.cancel_order clock oid e = (false, e).
Proof.
  intros He. unfold Engine.cancel_order.
  destruct (Engine.active_orders_ e !! oid) as [order|]; [|reflexivity].
  rewrite (He order). reflexivity.
Qed.

Lemma no_active_close_position sym (e : Engine.ExecutionEngine) :
  no_active_order e -> no_active_order (snd (Engine.close_position clock sym e)).
Proof.
  intros He. unfold Engine.close_position.
  destruct (Engine.positions_ e !! view sym) as [pos|]; [|exact He].
  destruct (is_flat pos); [exact He|].
  cbn [snd]. apply no_active_submit_order. exact He.
Qed.

Lemma no_active_do_call (c : call) (e : Engine.ExecutionEngine) :
  no_active_order e -> no_active_order (do_call clock c e).
Proof.
  intros He. destruct c; cbn [do_call].
  - apply no_active_submit_order. exact He.
  - rewrite cancel_order_refused by exact He. exact He.
  - apply no_active_close_position. exact He.
  - exact He.
  - exact He.
Qed.

Lemma no_active_after_calls (cs : list call) :
  forall e, no_active_order e -> no_active_order (after_calls clock cs e).
Proof.
  induction cs as [|c cs IH]; intros e He; [exact He|].
  apply IH, no_active_do_call. exact He.
Qed.

(** No order ever leaves the PENDING status for OPEN, so after any sequence
    of calls on a new engine [cancel_order] returns false and changes
    nothing, for every id. *)
Lemma cancel_order_never_succeeds (rp : RiskParams) (cs : list call)
    (oid : OrderId) :
  let e := after_calls clock cs (Engine.ExecutionEngine_new rp) in
  Engine.cancel_order clock oid e = (false, e).
Proof.
  intros e. apply cancel_order_refused, no_active_after_calls.
  intros ptr. apply pool_inactive_new.
Qed.

(** C1 on the code. A limit order accepted by a new engine is stored under
    its id, but with status PENDING, not OPEN; cancelling it returns false
    and leaves the engine as it was, the order still in the table.
    Cancelling a market order that was filled returns false as the claim
    says. *)
Theorem limit_order_cannot_be_cancelled :
  let r := Engine.submit_order clock DOGE BUY LIMIT 1000000000000 320000 0 GTC fresh in
  let m := Engine.submit_order clock DOGE BUY MARKET 1000000000000 320000 0 GTC fresh in
  (fst r = 1 /\
   (fun ptr => status (Pool.load Order_default (Engine.order_pool_ (snd r)) ptr))
     <$> Engine.active_orders_ (snd r) !! 1 = Some PENDING /\
   fst (Engine.cancel_order clock 1 (snd r)) = false /\
   Engine.active_orders_ (snd (Engine.cancel_order clock 1 (snd r))) !! 1
   = Engine.active_orders_ (snd r) !! 1) /\
  (fst m = 1 /\
   Engine.active_orders_ (snd m) !! 1 = None /\
   fst (Engine.cancel_order clock 1 (snd m)) = false).
Proof. vm_compute. repeat split. Qed.

(** *** Flat positions *)

(** A fill on a symbol that has a position never leaves a flat entry: the
    entry is removed when the quantity comes to zero. *)
Lemma update_position_existing_not_flat sym s qty p (e : Engine.ExecutionEngine)
    (pos : Position) :
  Engine.positions_ e !! view sym = Some pos ->
  forall pos',
    Engine.positions_ (Engine.update_position clock sym s qty p e) !! view sym
    = Some pos' ->
    pos_quantity pos' <> 0.
Proof.
  intros Hpos pos'. unfold Engine.update_position. rewrite Hpos.
  cbn beta zeta iota delta [Engine.now_ns].
  set (t := clock _). set (np := Engine.touch t _).
  destruct (is_flat np) eqn:Hflat.
  - cbn [Engine.set_positions Engine.positions_].
    rewrite lookup_delete_eq. discriminate.
  - rewrite positions_emit_event. cbn [Engine.set_positions Engine.positions_].
    rewrite lookup_insert_eq. intros [= <-].
    unfold is_flat in Hflat. apply Z.eqb_neq. exact Hflat.
Qed.

(** C4 on the code. A market order of quantity zero on a symbol without a
    position is accepted by a new engine and leaves a position whose
    quantity is zero in the position table. *)
Theorem zero_quantity_order_opens_flat_position :
  let r := Engine.submit_order clock DOGE BUY MARKET 0 0 0 GTC fresh in
  fst r = 1 /\
  pos_quantity <$> Engine.positions_ (snd r) !! view DOGE = Some 0 /\
  is_flat <$> Engine.positions_ (snd r) !! view DOGE = Some true /\
  Engine.position_count (snd r) = 1%nat.
Proof. vm_compute. repeat split. Qed.

End OrderLifecycle.

(* --------------------------------------------------------------------- *)
(** ** Doubles: conversion from 64-bit integers and division *)
(* --------------------------------------------------------------------- *)

Import DoubleSpec.

Section Digits.

Lemma digits2_pos_bounds (p : positive) :
  2 ^ (Zpos (digits2_pos p) - 1) <= Zpos p < 2 ^ Zpos (digits2_pos p).
Proof.
  induction p as [p IH|p IH|]; cbn [digits2_pos].
  - rewrite Pos2Z.inj_succ.
    replace (Z.succ (Zpos (digits2_pos p)) - 1)
      with (Z.succ (Zpos (digits2_pos p) - 1)) by lia.
    rewrite !Z.pow_succ_r by lia. lia.
  - rewrite Pos2Z.inj_succ.
    replace (Z.succ (Zpos (digits2_pos p)) - 1)
      with (Z.succ (Zpos (digits2_pos p) - 1)) by lia.
    rewrite !Z.pow_succ_r by lia. lia.
  - split; reflexivity || discriminate.
Qed.

Lemma digits2_pos_unique (p : positive) (d : Z) :
  2 ^ (d - 1) <= Zpos p < 2 ^ d -> Zpos (digits2_pos p) = d.
Proof.
  intros [Hlo Hhi]. pose proof (digits2_pos_bounds p) as [Blo Bhi].
  assert (Hd : 0 < d).
  { destruct (Z.le_gt_cases d 0) as [Hle|]; [|assumption].
    destruct (Z.eq_dec d 0) as [->|]; [simpl in Hhi; lia|].
    rewrite Z.pow_neg_r in Hhi by lia. lia. }
  destruct (Z.lt_trichotomy (Zpos (digits2_pos p)) d) as [Hlt|[Heq|Hgt]];
    [|exact Heq|].
  - assert (2 ^ Zpos (digits2_pos p) <= 2 ^ (d - 1))
      by (apply Z.pow_le_mono_r; lia). lia.
  - assert (2 ^ d <= 2 ^ (Zpos (digits2_pos p) - 1))
      by (apply Z.pow_le_mono_r; lia). lia.
Qed.

End Digits.

Section Shifts.

(** [iter_pos] is iteration a number of times. *)
Lemma iter_pos_nat {A : Type} (f : A -> A) (p : positive) :
  forall x, SpecFloat.iter_pos f p x = Nat.iter (Pos.to_nat p) f x.
Proof.
  induction p as [p IH|p IH|]; intros x; cbn [SpecFloat.iter_pos].
  - rewrite !IH, Pos2Nat.inj_xI.
    replace (S (2 * Pos.to_nat p)) with (Pos.to_nat p + Pos.to_nat p + 1)%nat by lia.
    rewrite !Nat.iter_add. reflexivity.
  - rewrite !IH, Pos2Nat.inj_xO.
    replace (2 * Pos.to_nat p)%nat with (Pos.to_nat p + Pos.to_nat p)%nat by lia.
    rewrite Nat.iter_add. reflexivity.
  - reflexivity.
Qed.

Lemma shr_1_nonneg (m : Z) (r s : bool) :
  0 <= m ->
  shr_1 (Build_shr_record m r s) = Build_shr_record (m / 2) (Z.odd m) (r || s).
Proof.
  intros Hm. rewrite <- Z.div2_div.
  destruct m as [|[p|p|]|p]; try lia; reflexivity.
Qed.

(** After [k + 1] one-bit shifts of an exact non-negative [m]: the
    quotient by [2^(k+1)], the last bit dropped, and whether anything
    below it was set. *)
Lemma shr_iter (m : Z) (k : nat) :
  0 <= m ->
  Nat.iter (S k) shr_1 (Build_shr_record m false false)
  = Build_shr_record (m / 2 ^ Z.of_nat (S k))
                     (Z.odd (m / 2 ^ Z.of_nat k))
                     (negb (m mod 2 ^ Z.of_nat k =? 0)).
Proof.
  intros Hm. induction k as [|k IH].
  - cbn [Nat.iter]. rewrite shr_1_nonneg by exact Hm.
    change (2 ^ Z.of_nat 0) with 1. change (2 ^ Z.of_nat 1) with 2.
    rewrite Z.div_1_r, Z.mod_1_r. reflexivity.
  - rewrite Nat.iter_succ, IH.
    assert (Hp : 0 < 2 ^ Z.of_nat k) by (apply Z.pow_pos_nonneg; lia).
    rewrite shr_1_nonneg by (apply Z.div_pos; [lia | apply Z.pow_pos_nonneg; lia]).
    f_equal.
    + rewrite Z.div_div by lia. f_equal.
      rewrite (Nat2Z.inj_succ (S k)), Z.pow_succ_r by lia. lia.
    + rewrite (Nat2Z.inj_succ k), Z.pow_succ_r by lia.
      rewrite (Z.mul_comm 2), Z.rem_mul_r by lia.
      rewrite <- Z.bit0_mod, Z.bit0_odd.
      pose proof (Z.mod_pos_bound m (2 ^ Z.of_nat k) Hp).
      destruct (Z.odd (m / 2 ^ Z.of_nat k)); cbn [Z.b2z orb];
        repeat match goal with
               | |- context [?a =? 0] => destruct (Z.eqb_spec a 0)
               end; cbn [negb]; try reflexivity; lia.
Qed.

End Shifts.

Section Rounding.

Lemma fexp_normal (e : Z) : -1021 <= e -> fexp 53 1024 e = e - 53.
Proof. intros He. unfold fexp, emin. lia. Qed.

Lemma round_nearest_even_up (m : Z) (r s : bool) :
  round_nearest_even m (loc_of_shr_record (Build_shr_record m r s))
  = if round_up r s m then m + 1 else m.
Proof.
  unfold round_up. destruct r, s; cbn [loc_of_shr_record round_nearest_even andb orb];
    try reflexivity.
  rewrite <- Z.negb_even. destruct (Z.even m); reflexivity.
Qed.

Lemma round_nearest_even_cases (m : Z) (l : location) :
  round_nearest_even m l = m \/ round_nearest_even m l = m + 1.
Proof.
  destruct l as [|[| |]]; cbn [round_nearest_even]; auto.
  destruct (Z.even m); auto.
Qed.

(** The last step of [binary_round_aux]: a mantissa of 53 bits is kept; a
    carry into bit 53 moves to the next exponent. *)
Lemma round_finish (sign : bool) (m e : Z) :
  2 ^ 52 <= m <= 2 ^ 53 -> -1000 <= e <= 900 ->
  (let '(mrs, e') := shr_fexp 53 1024 m e loc_Exact in
   match shr_m mrs with
   | Z0 => S754_zero sign
   | Zpos p => if e' <=? 1024 - 53 then S754_finite sign p e'
               else S754_infinity sign
   | Zneg _ => S754_nan
   end)
  = normalise sign m e.
Proof.
  intros Hm He. unfold normalise.
  destruct (Z.eqb_spec m (2 ^ 53)) as [->|Hne].
  - unfold shr_fexp. change (Zdigits2 (2 ^ 53)) with 54.
    rewrite fexp_normal by lia.
    replace (54 + e - 53 - e) with 1 by lia.
    cbn [shr shr_record_of_loc SpecFloat.iter_pos].
    change (shr_m (shr_1 _)) with (2 ^ 52).
    destruct (Z.leb_spec (e + 1) (1024 - 53)); [reflexivity | lia].
  - destruct m as [|p|p]; try lia.
    assert (Hd : Zpos (digits2_pos p) = 53)
      by (apply digits2_pos_unique; change (53 - 1) with 52; lia).
    unfold shr_fexp. cbn [Zdigits2]. rewrite Hd, fexp_normal by lia.
    replace (53 + e - 53 - e) with 0 by lia.
    cbn [shr shr_record_of_loc shr_m Z.to_pos].
    destruct (Z.leb_spec e (1024 - 53)); [reflexivity | lia].
Qed.

(** [binary_round_aux] on a mantissa of exactly 53 bits. *)
Lemma binary_round_aux_53 (sign : bool) (p : positive) (e : Z) (l : location) :
  Zpos (digits2_pos p) = 53 -> -1000 <= e <= 900 ->
  binary_round_aux 53 1024 sign (Zpos p) e l
  = normalise sign (round_nearest_even (Zpos p) l) e.
Proof.
  intros Hd He. pose proof (digits2_pos_bounds p) as Hb. rewrite Hd in Hb.
  change (53 - 1) with 52 in Hb.
  unfold binary_round_aux.
  assert (Hfirst : shr_fexp 53 1024 (Zpos p) e l
                   = (shr_record_of_loc (Zpos p) l, e)).
  { unfold shr_fexp. cbn [Zdigits2]. rewrite Hd, fexp_normal by lia.
    replace (53 + e - 53 - e) with 0 by lia. reflexivity. }
  rewrite Hfirst.
  assert (Hloc : loc_of_shr_record (shr_record_of_loc (Zpos p) l) = l)
    by (destruct l as [|[| |]]; reflexivity).
  assert (Hm : shr_m (shr_record_of_loc (Zpos p) l) = Zpos p)
    by (destruct l as [|[| |]]; reflexivity).
  rewrite Hloc, Hm.
  apply round_finish; [|exact He].
  destruct (round_nearest_even_cases (Zpos p) l) as [-> | ->]; lia.
Qed.

(** [binary_round_aux] on a mantissa of 54 bits: one bit is shifted out
    before rounding. *)
Lemma binary_round_aux_54 (sign : bool) (p : positive) (e : Z) (l : location) :
  Zpos (digits2_pos p) = 54 -> -1000 <= e <= 899 ->
  exists m1, (m1 = Zpos p / 2 \/ m1 = Zpos p / 2 + 1) /\
    (l = loc_Exact -> Z.even (Zpos p) = true -> m1 = Zpos p / 2) /\
    binary_round_aux 53 1024 sign (Zpos p) e l = normalise sign m1 (e + 1).
Proof.
  intros Hd He. pose proof (digits2_pos_bounds p) as Hb. rewrite Hd in Hb.
  change (54 - 1) with 53 in Hb.
  unfold binary_round_aux.
  assert (Hfirst : shr_fexp 53 1024 (Zpos p) e l
                   = (shr_1 (shr_record_of_loc (Zpos p) l), e + 1)).
  { unfold shr_fexp. cbn [Zdigits2]. rewrite Hd, fexp_normal by lia.
    replace (54 + e - 53 - e) with 1 by lia. reflexivity. }
  rewrite Hfirst.
  assert (Hshift : exists r s,
            shr_1 (shr_record_of_loc (Zpos p) l)
            = Build_shr_record (Zpos p / 2) r s /\
            (l = loc_Exact -> Z.even (Zpos p) = true -> r = false)).
  { destruct l as [|[| |]]; cbn [shr_record_of_loc];
      rewrite shr_1_nonneg by lia; do 2 eexists; (split; [reflexivity|]);
      try discriminate.
    intros _ Hev. rewrite <- Z.negb_even, Hev. reflexivity. }
  destruct Hshift as (r & s & -> & Hexact).
  cbn [shr_m]. rewrite round_nearest_even_up.
  exists (if round_up r s (Zpos p / 2) then Zpos p / 2 + 1 else Zpos p / 2).
  split; [destruct (round_up r s _); auto|].
  split.
  - intros Hl Hev. rewrite (Hexact Hl Hev). reflexivity.
  - apply round_finish; [|lia].
    assert (2 ^ 52 <= Zpos p / 2 < 2 ^ 53).
    { split; [apply Z.div_le_lower_bound | apply Z.div_lt_upper_bound]; lia. }
    destruct (round_up r s _); lia.
Qed.


Lemma iter_xO (p k : positive) :
  Zpos (Pos.iter xO p k) = Zpos p * 2 ^ Zpos k.
Proof.
  induction k as [|k IH] using Pos.peano_ind.
  - cbn [Pos.iter]. lia.
  - rewrite Pos.iter_succ, Pos2Z.inj_succ, Z.pow_succ_r by lia.
    rewrite Pos2Z.inj_xO, IH. lia.
Qed.

Lemma pow2_split (a b : Z) : 0 <= a -> 0 <= b -> 2 ^ (a + b) = 2 ^ a * 2 ^ b.
Proof. intros. apply Z.pow_add_r; assumption. Qed.

(** The conversion of a positive 64-bit integer: a double with a 53-bit
    mantissa whose value is the integer rounded to nearest, ties to even. *)
Lemma double_of_int_pos (z : Z) :
  0 < z < 2 ^ 63 ->
  exists m e,
    double_of_int z = S754_finite false m e /\
    Zpos (digits2_pos m) = 53 /\ -52 <= e <= 11 /\
    Zpos m * 2 ^ (e + 52) = 2 ^ 52 * nearest z.
Proof.
  intros Hz. destruct z as [|p|p]; try lia.
  pose proof (digits2_pos_bounds p) as Hb.
  set (d := Zpos (digits2_pos p)) in *.
  assert (Hd : 1 <= d <= 63).
  { split; [subst d; lia|].
    destruct (Z.le_gt_cases d 63) as [|Hgt]; [assumption|].
    assert (2 ^ 63 <= 2 ^ (d - 1)) by (apply Z.pow_le_mono_r; lia). lia. }
  unfold double_of_int, dprec, demax, binary_normalize, binary_round, nearest.
  cbn [Zdigits2]. fold d. rewrite fexp_normal by lia.
  unfold shl_align. replace (d + 0 - 53 - 0) with (d - 53) by lia.
  destruct (d - 53) as [|n|k] eqn:Hn.
  - (* exactly 53 bits *)
    assert (Hd53 : d = 53) by lia.
    rewrite binary_round_aux_53 by (fold d; lia).
    cbn [round_nearest_even]. unfold normalise.
    rewrite Hd53 in Hb. change (53 - 1) with 52 in Hb.
    destruct (Z.eqb_spec (Zpos p) (2 ^ 53)); [lia|].
    exists p, 0. cbn [Z.to_pos].
    destruct (Z.leb_spec d 53); [|lia].
    split_and!; try reflexivity; try lia.
  - (* more than 53 bits: [n] bits are shifted out *)
    destruct (Pos2Nat.is_succ n) as [k Hk].
    assert (HSk : Z.of_nat (S k) = Zpos n) by (rewrite <- Hk; apply positive_nat_Z).
    assert (Hkk : Z.of_nat k = Zpos n - 1) by lia.
    assert (Hfirst : shr_fexp 53 1024 (Zpos p) 0 loc_Exact
              = (Build_shr_record (Zpos p / 2 ^ Zpos n)
                   (Z.odd (Zpos p / 2 ^ (Zpos n - 1)))
                   (negb (Zpos p mod 2 ^ (Zpos n - 1) =? 0)), Zpos n)).
    { unfold shr_fexp. cbn [Zdigits2]. fold d. rewrite fexp_normal by lia.
      replace (d + 0 - 53 - 0) with (Zpos n) by lia.
      cbn [shr shr_record_of_loc]. rewrite iter_pos_nat, Hk.
      rewrite shr_iter by lia. rewrite HSk, Hkk. reflexivity. }
    unfold binary_round_aux. rewrite Hfirst.
    cbn [shr_m]. rewrite round_nearest_even_up.
    assert (Hpn : 0 < 2 ^ Zpos n) by (apply Z.pow_pos_nonneg; lia).
    assert (Hsplit : 2 ^ (d - 1) = 2 ^ 52 * 2 ^ Zpos n).
    { rewrite <- pow2_split by lia. f_equal. lia. }
    assert (Hsplit' : 2 ^ d = 2 ^ 53 * 2 ^ Zpos n).
    { rewrite <- pow2_split by lia. f_equal. lia. }
    assert (Hq : 2 ^ 52 <= Zpos p / 2 ^ Zpos n < 2 ^ 53).
    { split; [apply Z.div_le_lower_bound | apply Z.div_lt_upper_bound]; lia. }
    set (q := Zpos p / 2 ^ Zpos n) in *.
    set (up := round_up _ _ q).
    set (m1 := if up then q + 1 else q).
    assert (Hm1 : 2 ^ 52 <= m1 <= 2 ^ 53) by (subst m1; destruct up; lia).
    rewrite round_finish by lia.
    destruct (Z.leb_spec d 53); [lia|].
    unfold normalise.
    destruct (Z.eqb_spec m1 (2 ^ 53)) as [Hc|Hc].
    + exists (Z.to_pos (2 ^ 52)), (Zpos n + 1).
      split_and!; try reflexivity; try lia.
      rewrite Hc. change (Zpos (Z.to_pos (2 ^ 52))) with (2 ^ 52).
      replace (Zpos n + 1 + 52) with (53 + Zpos n) by lia.
      rewrite pow2_split by lia. lia.
    + exists (Z.to_pos m1), (Zpos n).
      assert (Hm1p : Zpos (Z.to_pos m1) = m1) by (apply Z2Pos.id; lia).
      split_and!; try reflexivity; try lia.
      * apply digits2_pos_unique. rewrite Hm1p. change (53 - 1) with 52. lia.
      * rewrite Hm1p. replace (Zpos n + 52) with (52 + Zpos n) by lia.
        rewrite pow2_split by lia. lia.
  - (* fewer than 53 bits: the mantissa is shifted left *)
    assert (Hk : Zpos k = 53 - d) by lia.
    assert (Hmz : Zpos (Pos.iter xO p k) = Zpos p * 2 ^ Zpos k) by apply iter_xO.
    assert (Hpk : 0 < 2 ^ Zpos k) by (apply Z.pow_pos_nonneg; lia).
    assert (Hs1 : 2 ^ 52 = 2 ^ (d - 1) * 2 ^ Zpos k).
    { rewrite <- pow2_split by lia. f_equal. lia. }
    assert (Hs2 : 2 ^ 53 = 2 ^ d * 2 ^ Zpos k).
    { rewrite <- pow2_split by lia. f_equal. lia. }
    assert (Hdz : Zpos (digits2_pos (Pos.iter xO p k)) = 53).
    { apply digits2_pos_unique. rewrite Hmz. change (53 - 1) with 52. nia. }
    replace (d + 0 - 53) with (Zneg k) by lia.
    rewrite binary_round_aux_53 by (exact Hdz || lia).
    cbn [round_nearest_even]. unfold normalise.
    destruct (Z.eqb_spec (Zpos (Pos.iter xO p k)) (2 ^ 53)); [nia|].
    destruct (Z.leb_spec d 53); [|lia].
    exists (Pos.iter xO p k), (Zneg k).
    split_and!; try reflexivity; try lia; try exact Hdz.
    rewrite Hmz. replace (Zneg k + 52) with (d - 1) by lia. nia.
Qed.

End Rounding.

Section Monotone.

Lemma Zdigits2_bounds (z : Z) :
  0 < z -> 2 ^ (Zdigits2 z - 1) <= z < 2 ^ Zdigits2 z /\ 1 <= Zdigits2 z.
Proof.
  intros Hz. destruct z as [|p|p]; try lia. cbn [Zdigits2].
  split; [apply digits2_pos_bounds | lia].
Qed.

Lemma Zdigits2_mono (z1 z2 : Z) :
  0 < z1 <= z2 -> Zdigits2 z1 <= Zdigits2 z2.
Proof.
  intros Hz.
  destruct (Zdigits2_bounds z1) as [[Hl1 Hh1] Hd1]; [lia|].
  destruct (Zdigits2_bounds z2) as [[Hl2 Hh2] Hd2]; [lia|].
  destruct (Z.le_gt_cases (Zdigits2 z1) (Zdigits2 z2)) as [|Hgt]; [assumption|].
  assert (2 ^ Zdigits2 z2 <= 2 ^ (Zdigits2 z1 - 1))
    by (apply Z.pow_le_mono_r; lia).
  lia.
Qed.

(** The quotient and what rounding makes of it, for an integer of more
    than 53 bits. *)
Lemma nearest_big (z : Z) :
  0 < z -> 53 < Zdigits2 z ->
  let n := Zdigits2 z - 53 in
  let q := z / 2 ^ n in
  2 ^ 52 <= q < 2 ^ 53 /\
  q * 2 ^ n <= z < (q + 1) * 2 ^ n /\
  (nearest z = q * 2 ^ n \/ nearest z = (q + 1) * 2 ^ n).
Proof.
  intros Hz Hd n q.
  destruct (Zdigits2_bounds z Hz) as [[Hlo Hhi] _].
  assert (Hpn : 0 < 2 ^ n) by (apply Z.pow_pos_nonneg; lia).
  assert (Hs1 : 2 ^ (Zdigits2 z - 1) = 2 ^ 52 * 2 ^ n).
  { rewrite <- pow2_split by lia. f_equal. lia. }
  assert (Hs2 : 2 ^ Zdigits2 z = 2 ^ 53 * 2 ^ n).
  { rewrite <- pow2_split by lia. f_equal. lia. }
  split_and!.
  - apply Z.div_le_lower_bound; lia.
  - apply Z.div_lt_upper_bound; lia.
  - subst q. pose proof (Z.mul_div_le z (2 ^ n) Hpn). lia.
  - subst q. pose proof (Z.mul_succ_div_gt z (2 ^ n) Hpn). lia.
  - unfold nearest. destruct (Z.leb_spec (Zdigits2 z) 53); [lia|].
    fold n. fold q. destruct (round_up _ _ q); auto.
Qed.

Lemma nearest_bounds (z : Z) :
  0 < z -> 2 ^ (Zdigits2 z - 1) <= nearest z <= 2 ^ Zdigits2 z.
Proof.
  intros Hz. destruct (Zdigits2_bounds z Hz) as [[Hlo Hhi] Hd].
  destruct (Z.le_gt_cases (Zdigits2 z) 53) as [Hsmall|Hbig].
  - unfold nearest. destruct (Z.leb_spec (Zdigits2 z) 53); lia.
  - destruct (nearest_big z Hz Hbig) as ([Hq1 Hq2] & _ & Hn).
    set (n := Zdigits2 z - 53) in *. set (q := z / 2 ^ n) in *.
    assert (Hpn : 0 < 2 ^ n) by (apply Z.pow_pos_nonneg; lia).
    assert (Hs1 : 2 ^ (Zdigits2 z - 1) = 2 ^ 52 * 2 ^ n).
    { rewrite <- pow2_split by lia. f_equal. lia. }
    assert (Hs2 : 2 ^ Zdigits2 z = 2 ^ 53 * 2 ^ n).
    { rewrite <- pow2_split by lia. f_equal. lia. }
    rewrite Hs1, Hs2. destruct Hn as [-> | ->]; nia.
Qed.

Lemma odd_mod2 (a : Z) : Z.odd a = (a mod 2 =? 1).
Proof.
  rewrite <- Z.bit0_mod, Z.bit0_odd. destruct (Z.odd a); reflexivity.
Qed.

(** Rounding up is monotone among integers with the same quotient. *)
Lemma round_up_mono (z1 z2 h : Z) :
  0 < h -> 0 <= z1 <= z2 ->
  z1 / (h * 2) = z2 / (h * 2) ->
  round_up (Z.odd (z1 / h)) (negb (z1 mod h =? 0)) (z1 / (h * 2)) = true ->
  round_up (Z.odd (z2 / h)) (negb (z2 mod h =? 0)) (z2 / (h * 2)) = true.
Proof.
  intros Hh Hz Hq. unfold round_up. rewrite <- Hq.
  rewrite <- !Z.div_div in Hq by lia.
  pose proof (Z.div_mod z1 h) as E1. pose proof (Z.div_mod z2 h) as E2.
  pose proof (Z.mod_pos_bound z1 h Hh) as B1.
  pose proof (Z.mod_pos_bound z2 h Hh) as B2.
  assert (HA : z1 / h <= z2 / h) by (apply Z.div_le_mono; lia).
  set (A1 := z1 / h) in *. set (A2 := z2 / h) in *.
  pose proof (Z.div_mod A1 2) as F1. pose proof (Z.div_mod A2 2) as F2.
  pose proof (Z.mod_pos_bound A1 2) as G1. pose proof (Z.mod_pos_bound A2 2) as G2.
  rewrite (odd_mod2 A1), (odd_mod2 A2).
  intros Hup. apply andb_true_iff in Hup as [Hodd Hrest].
  apply Z.eqb_eq in Hodd.
  assert (HAeq : A2 = A1) by lia.
  rewrite HAeq in *.
  apply andb_true_iff. split; [apply Z.eqb_eq; exact Hodd|].
  apply orb_true_iff in Hrest as [Hs|Ho]; apply orb_true_iff; [left|right; exact Ho].
  apply negb_true_iff, Z.eqb_neq in Hs. apply negb_true_iff, Z.eqb_neq. nia.
Qed.

Lemma nearest_mono (z1 z2 : Z) :
  0 < z1 <= z2 -> nearest z1 <= nearest z2.
Proof.
  intros Hz.
  pose proof (Zdigits2_mono z1 z2 Hz) as Hd.
  pose proof (nearest_bounds z1 ltac:(lia)) as N1.
  pose proof (nearest_bounds z2 ltac:(lia)) as N2.
  destruct (Z.eq_dec (Zdigits2 z1) (Zdigits2 z2)) as [Heq|Hne].
  - destruct (Z.le_gt_cases (Zdigits2 z1) 53) as [Hsmall|Hbig].
    + unfold nearest. rewrite <- Heq.
      destruct (Z.leb_spec (Zdigits2 z1) 53); lia.
    + destruct (nearest_big z1 ltac:(lia) Hbig) as (Hq1 & Hz1 & Hn1).
      destruct (nearest_big z2 ltac:(lia) ltac:(lia)) as (Hq2 & Hz2 & Hn2).
      rewrite <- Heq in *.
      set (n := Zdigits2 z1 - 53) in *.
      assert (Hpn : 0 < 2 ^ n) by (apply Z.pow_pos_nonneg; lia).
      assert (Hqq : z1 / 2 ^ n <= z2 / 2 ^ n) by (apply Z.div_le_mono; lia).
      destruct (Z.eq_dec (z1 / 2 ^ n) (z2 / 2 ^ n)) as [Hqe|Hqne].
      * (* same quotient: compare the rounding decisions *)
        assert (Hh : 2 ^ n = 2 ^ (n - 1) * 2).
        { replace n with (n - 1 + 1) at 1 by lia.
          rewrite pow2_split by lia. reflexivity. }
        assert (Hhp : 0 < 2 ^ (n - 1)) by (apply Z.pow_pos_nonneg; lia).
        unfold nearest. rewrite <- Heq.
        destruct (Z.leb_spec (Zdigits2 z1) 53); [lia|]. fold n.
        destruct (round_up (Z.odd (z1 / 2 ^ (n - 1))) _ (z1 / 2 ^ n)) eqn:Hup1.
        -- rewrite Hh in Hup1, Hqe.
           pose proof (round_up_mono z1 z2 (2 ^ (n - 1)) Hhp ltac:(lia) Hqe Hup1) as Hup2.
           rewrite <- Hh in Hup2, Hqe. rewrite Hup2, Hqe. lia.
        -- rewrite Hqe. destruct (round_up _ _ (z2 / 2 ^ n)); nia.
      * (* a larger quotient wins whatever the rounding *)
        assert (z1 / 2 ^ n + 1 <= z2 / 2 ^ n) by lia.
        destruct Hn1 as [-> | ->], Hn2 as [-> | ->]; nia.
  - assert (2 ^ Zdigits2 z1 <= 2 ^ (Zdigits2 z2 - 1))
      by (apply Z.pow_le_mono_r; lia).
    lia.
Qed.

(** For doubles with 53-bit mantissas, the order of the values is the
    order of the exponents, then of the mantissas. *)
Lemma magnitude_of_value (m1 m2 : positive) (e1 e2 : Z) :
  Zpos (digits2_pos m1) = 53 -> Zpos (digits2_pos m2) = 53 ->
  -52 <= e1 -> -52 <= e2 ->
  Zpos m1 * 2 ^ (e1 + 52) <= Zpos m2 * 2 ^ (e2 + 52) ->
  e1 < e2 \/ (e1 = e2 /\ Zpos m1 <= Zpos m2).
Proof.
  intros Hd1 Hd2 He1 He2 Hv.
  pose proof (digits2_pos_bounds m1) as B1. rewrite Hd1 in B1.
  pose proof (digits2_pos_bounds m2) as B2. rewrite Hd2 in B2.
  change (53 - 1) with 52 in *.
  assert (Hp2 : 0 < 2 ^ (e2 + 52)) by (apply Z.pow_pos_nonneg; lia).
  destruct (Z.lt_trichotomy e1 e2) as [Hlt|[Heq|Hgt]]; [left; exact Hlt| |].
  - right. split; [exact Heq|]. subst e2. nia.
  - exfalso.
    assert (Hs : 2 ^ (e1 + 52) = 2 ^ (e1 - e2) * 2 ^ (e2 + 52)).
    { rewrite <- pow2_split by lia. f_equal. lia. }
    assert (2 ^ 1 <= 2 ^ (e1 - e2)) by (apply Z.pow_le_mono_r; lia).
    change (2 ^ 1) with 2 in *.
    rewrite Hs in Hv.
    assert (Zpos m1 * 2 * 2 ^ (e2 + 52) <= Zpos m1 * (2 ^ (e1 - e2) * 2 ^ (e2 + 52))) by nia.
    nia.
Qed.

End Monotone.

Section Division.

Lemma new_location_exact (nb : Z) : new_location nb 0 = loc_Exact.
Proof.
  unfold new_location, new_location_even, new_location_odd.
  destruct (Z.even nb); reflexivity.
Qed.

Lemma binary_round_aux_sign (m e : Z) (l : location) :
  binary_round_aux 53 1024 true m e l
  = SFopp (binary_round_aux 53 1024 false m e l).
Proof.
  unfold binary_round_aux.
  destruct (shr_fexp 53 1024 m e l) as [mrs e1].
  destruct (shr_fexp 53 1024 _ e1 loc_Exact) as [mrs2 e2].
  destruct (shr_m mrs2); [reflexivity| |reflexivity].
  destruct (e2 <=? 1024 - 53); reflexivity.
Qed.

Lemma double_of_int_opp (z : Z) :
  0 < z -> double_of_int (- z) = SFopp (double_of_int z).
Proof.
  intros Hz. destruct z as [|p|p]; try lia.
  change (- Zpos p) with (Zneg p).
  unfold double_of_int, dprec, demax, binary_normalize, binary_round.
  destruct (shl_align p 0 _) as [mz ez]. apply binary_round_aux_sign.
Qed.

(** The quotient of two doubles with 53-bit mantissas, the first not
    larger in magnitude than the second: a double of magnitude at most 1. *)
Lemma ddiv_magnitude (sx : bool) (mx my : positive) (ex ey : Z) :
  Zpos (digits2_pos mx) = 53 -> Zpos (digits2_pos my) = 53 ->
  -52 <= ex <= 11 -> -52 <= ey <= 11 ->
  (ex < ey \/ (ex = ey /\ Zpos mx <= Zpos my)) ->
  exists m e,
    ddiv (S754_finite sx mx ex) (S754_finite false my ey) = S754_finite sx m e /\
    (e < -52 \/ (e = -52 /\ m = Z.to_pos (2 ^ 52))).
Proof.
  intros Hdx Hdy Hex Hey Hle.
  pose proof (digits2_pos_bounds mx) as Bx. rewrite Hdx in Bx.
  pose proof (digits2_pos_bounds my) as By. rewrite Hdy in By.
  change (53 - 1) with 52 in *.
  set (q := Zpos mx * 2 ^ 53 / Zpos my).
  set (r := (Zpos mx * 2 ^ 53) mod Zpos my).
  assert (Hcore : SFdiv_core_binary 53 1024 (Zpos mx) ex (Zpos my) ey
                  = (q, ex - ey - 53, new_location (Zpos my) r)).
  { unfold SFdiv_core_binary. cbn [Zdigits2]. rewrite Hdx, Hdy.
    rewrite fexp_normal by lia.
    replace (Z.min (53 + ex - (53 + ey) - 53) (ex - ey)) with (ex - ey - 53) by lia.
    replace (ex - ey - (ex - ey - 53)) with 53 by lia.
    cbv beta iota. rewrite Z.shiftl_mul_pow2 by lia.
    unfold q, r, Z.div, Z.modulo.
    destruct (Z.div_eucl (Zpos mx * 2 ^ 53) (Zpos my)); reflexivity. }
  unfold ddiv, dprec, demax, SFdiv. rewrite Hcore. rewrite xorb_false_r.
  assert (Hq : 2 ^ 52 <= q < 2 ^ 54).
  { subst q. split; [apply Z.div_le_lower_bound | apply Z.div_lt_upper_bound]; lia. }
  destruct q as [|pq|pq] eqn:Hpq; try lia.
  destruct (Z.lt_ge_cases (Zpos pq) (2 ^ 53)) as [Hsmall|Hbig].
  - (* the quotient has 53 bits *)
    assert (Hd : Zpos (digits2_pos pq) = 53)
      by (apply digits2_pos_unique; change (53 - 1) with 52; lia).
    rewrite binary_round_aux_53 by (exact Hd || lia).
    unfold normalise.
    destruct (round_nearest_even_cases (Zpos pq) (new_location (Zpos my) r))
      as [-> | ->];
      match goal with |- context [?a =? 2 ^ 53] => destruct (Z.eqb_spec a (2 ^ 53)) end;
      do 2 eexists; (split; [reflexivity|]); lia.
  - (* the quotient has 54 bits *)
    assert (Hd : Zpos (digits2_pos pq) = 54)
      by (apply digits2_pos_unique; change (54 - 1) with 53; lia).
    destruct (binary_round_aux_54 sx pq (ex - ey - 53)
                (new_location (Zpos my) r) Hd ltac:(lia))
      as (m1 & Hm1 & Hexact & ->).
    assert (Hhalf : 2 ^ 52 <= Zpos pq / 2 < 2 ^ 53).
    { split; [apply Z.div_le_lower_bound | apply Z.div_lt_upper_bound]; lia. }
    unfold normalise.
    destruct Hle as [Hlt|[Heq Hm]].
    + destruct (Z.eqb_spec m1 (2 ^ 53));
        do 2 eexists; (split; [reflexivity|]); lia.
    + (* equal exponents: the mantissas are equal and the quotient is 2^53 *)
      assert (Hmm : Zpos mx = Zpos my).
      { assert (Zpos my * 2 ^ 53 <= Zpos mx * 2 ^ 53); [|lia].
        pose proof (Z.mul_div_le (Zpos mx * 2 ^ 53) (Zpos my) ltac:(lia)).
        fold q in H. rewrite Hpq in H. nia. }
      assert (Hq53 : Zpos pq = 2 ^ 53).
      { rewrite <- Hpq. subst q. rewrite Hmm, Z.mul_comm. apply Z.div_mul. lia. }
      assert (Hr0 : r = 0).
      { subst r. rewrite Hmm, Z.mul_comm. apply Z.mod_mul. lia. }
      rewrite Hr0, new_location_exact in Hexact.
      assert (Hm1v : m1 = Zpos pq / 2).
      { apply Hexact; [reflexivity|]. rewrite Hq53; try reflexivity. }
      rewrite Hm1v, Hq53. change (2 ^ 53 / 2 =? 2 ^ 53) with false. cbv iota.
      do 2 eexists. split; [reflexivity|]. right. split; [lia | reflexivity].
Qed.

Lemma unit_interval_of_magnitude (s : bool) (m : positive) (e : Z) :
  (e < -52 \/ (e = -52 /\ m = Z.to_pos (2 ^ 52))) ->
  in_unit_interval (S754_finite s m e).
Proof.
  intros Hm. unfold in_unit_interval, dle, SFleb, d_minus_one, d_one.
  change (double_of_int (-1)) with (S754_finite true (Z.to_pos (2 ^ 52)) (-52)).
  change (double_of_int 1) with (S754_finite false (Z.to_pos (2 ^ 52)) (-52)).
  cbn [SFcompare].
  destruct Hm as [Hlt|[-> ->]].
  - destruct s.
    + split; [|reflexivity].
      destruct (Z.compare_spec (-52) e); lia || reflexivity.
    + split; [reflexivity|].
      destruct (Z.compare_spec e (-52)); lia || reflexivity.
  - destruct s; split; reflexivity.
Qed.

(** The quotient of two 64-bit integers, the first not larger in
    magnitude than the second, computed in doubles, lies in [-1, 1]. *)
Lemma ddiv_int_unit_interval (d t : Z) :
  0 < t < 2 ^ 63 -> - t <= d <= t ->
  in_unit_interval (ddiv (double_of_int d) (double_of_int t)).
Proof.
  intros Ht Hd.
  destruct (double_of_int_pos t Ht) as (my & ey & Hy & Hdy & Hey & Hvy).
  rewrite Hy.
  destruct (Z.lt_trichotomy d 0) as [Hneg|[->|Hpos]].
  - destruct (double_of_int_pos (- d) ltac:(lia)) as (mx & ex & Hx & Hdx & Hex & Hvx).
    replace d with (- - d) by lia.
    rewrite double_of_int_opp by lia. rewrite Hx. cbn [SFopp negb].
    pose proof (nearest_mono (- d) t ltac:(lia)) as Hmono.
    destruct (ddiv_magnitude true mx my ex ey Hdx Hdy Hex Hey) as (m & e & -> & Hm).
    { apply magnitude_of_value; try assumption; lia. }
    apply unit_interval_of_magnitude. exact Hm.
  - split; reflexivity.
  - destruct (double_of_int_pos d ltac:(lia)) as (mx & ex & Hx & Hdx & Hex & Hvx).
    rewrite Hx.
    pose proof (nearest_mono d t ltac:(lia)) as Hmono.
    destruct (ddiv_magnitude false mx my ex ey Hdx Hdy Hex Hey) as (m & e & -> & Hm).
    { apply magnitude_of_value; try assumption; lia. }
    apply unit_interval_of_magnitude. exact Hm.
Qed.

End Division.

(* --------------------------------------------------------------------- *)
(** ** Orderbook: imbalance *)
(* --------------------------------------------------------------------- *)

Section Imbalance.
Import BookSpec.

Lemma liquidity_nonneg_quantities (levels : list Book.PriceLevel) :
  quantities_nonneg levels -> 0 <= liquidity levels.
Proof.
  unfold liquidity. induction 1 as [|lv r Hq _ IH]; simpl; lia.
Qed.

(** The summing loop computes the exact sum as long as it fits. *)
Lemma liquidity_loop_exact (levels : list Book.PriceLevel) :
  forall (n i : nat) (total : Z),
    let L := map (Book.level_at levels) (seq i n) in
    quantities_nonneg L ->
    0 <= total -> total + liquidity L <= INT64_MAX ->
    Book.liquidity_loop levels n i total = total + liquidity L.
Proof.
  induction n as [|n IH]; intros i total; cbv zeta; intros Hnn Ht Hfit.
  - unfold liquidity. simpl. lia.
  - cbn [seq map Book.liquidity_loop] in *.
    apply Forall_cons in Hnn as [Hq Hrest].
    pose proof (liquidity_nonneg_quantities _ Hrest) as Hl.
    unfold liquidity in *. cbn [map sum_list] in *.
    unfold add64. rewrite wrap64_id by int64_lia.
    rewrite IH; try assumption; lia.
Qed.

(** When the quantities of the levels summed are not negative and the two
    liquidity sums together fit the signed 64-bit quantity type,
    [imbalance(levels)] is the double quotient of
    [bid - ask] by [bid + ask] over the first [levels] levels of each side,
    lies in [-1, 1], and is 0.0 when the total is 0, in particular for a
    book with both sides empty. *)
Theorem imbalance_bounded (levels : nat) (b : Book.Orderbook) :
  let nb := Nat.min levels (Book.bid_count_ b) in
  let na := Nat.min levels (Book.ask_count_ b) in
  let bid := side_liquidity (Book.bids_ b) nb in
  let ask := side_liquidity (Book.asks_ b) na in
  quantities_nonneg (map (Book.level_at (Book.bids_ b)) (seq 0 nb)) ->
  quantities_nonneg (map (Book.level_at (Book.asks_ b)) (seq 0 na)) ->
  bid + ask <= INT64_MAX ->
  Book.total_bid_liquidity levels b = bid /\
  Book.total_ask_liquidity levels b = ask /\
  Book.imbalance levels b
  = (if bid + ask =? 0 then d_zero
     else ddiv (double_of_int (bid - ask)) (double_of_int (bid + ask))) /\
  in_unit_interval (Book.imbalance levels b) /\
  (bid + ask = 0 -> Book.imbalance levels b = d_zero) /\
  Book.imbalance levels Book.Orderbook_default = d_zero.
Proof.
  intros nb na bid ask Hb Ha Hfit.
  pose proof (liquidity_nonneg_quantities _ Hb) as Hb0. pose proof (liquidity_nonneg_quantities _ Ha) as Ha0.
  fold (side_liquidity (Book.bids_ b) nb) in Hb0. fold bid in Hb0.
  fold (side_liquidity (Book.asks_ b) na) in Ha0. fold ask in Ha0.
  assert (Hbid : Book.total_bid_liquidity levels b = bid).
  { unfold Book.total_bid_liquidity. fold nb.
    rewrite liquidity_loop_exact; try assumption; try lia.
    - reflexivity.
    - fold (side_liquidity (Book.bids_ b) nb). fold bid. lia. }
  assert (Hask : Book.total_ask_liquidity levels b = ask).
  { unfold Book.total_ask_liquidity. fold na.
    rewrite liquidity_loop_exact; try assumption; try lia.
    - reflexivity.
    - fold (side_liquidity (Book.asks_ b) na). fold ask. lia. }
  assert (Himb : Book.imbalance levels b
                 = if bid + ask =? 0 then d_zero
                   else ddiv (double_of_int (bid - ask)) (double_of_int (bid + ask))).
  { unfold Book.imbalance. rewrite Hbid, Hask. cbv zeta.
    unfold add64, sub64. rewrite !wrap64_id by int64_lia. reflexivity. }
  split_and!; try assumption.
  - rewrite Himb. destruct (Z.eqb_spec (bid + ask) 0).
    + split; reflexivity.
    + apply ddiv_int_unit_interval; unfold INT64_MAX in Hfit; lia.
  - intros H0. rewrite Himb, H0. reflexivity.
  - unfold Book.imbalance, Book.total_bid_liquidity, Book.total_ask_liquidity.
    cbn [Book.Orderbook_default Book.bid_count_ Book.ask_count_].
    rewrite Nat.min_0_r. reflexivity.
Qed.

End Imbalance.

Lemma imbalance_bounded_witness :
  let b := Book.update_snapshot
             [Book.mkPriceLevel 319900 100000000000000 5 0;
              Book.mkPriceLevel 319800 200000000000000 8 0] 2
             [Book.mkPriceLevel 320100 80000000000000 4 0] 1
             1 0 Book.Orderbook_default in
  BookSpec.quantities_nonneg (map (Book.level_at (Book.bids_ b)) (seq 0 2)) /\
  BookSpec.quantities_nonneg (map (Book.level_at (Book.asks_ b)) (seq 0 1)) /\
  300000000000000 + 80000000000000 <= INT64_MAX /\
  in_unit_interval (Book.imbalance 5 b).
Proof.
  intros b.
  assert (Hb : BookSpec.quantities_nonneg (map (Book.level_at (Book.bids_ b)) (seq 0 2)))
    by (repeat constructor; vm_compute; discriminate).
  assert (Ha : BookSpec.quantities_nonneg (map (Book.level_at (Book.asks_ b)) (seq 0 1)))
    by (repeat constructor; vm_compute; discriminate).
  assert (Hfit : 300000000000000 + 80000000000000 <= INT64_MAX)
    by (vm_compute; discriminate).
  split_and!; try assumption.
  exact (proj1 (proj2 (proj2 (proj2 (imbalance_bounded 5 b Hb Ha Hfit))))).
Defined.

(** C8. The bound of the claim, which is also the bound the comment of
    [imbalance] gives ("-1 to +1"), fails on the code when the sum of the
    quantities leaves the 64-bit range: after a snapshot with two bid
    levels of 2^63 - 1 nano-units and one ask level of 1, all
    non-negative, the bid sum wraps to -2, the total to -1, and
    [imbalance(5)] is 3.0. *)
Lemma imbalance_overflow :
  let b := Book.update_snapshot
             [Book.mkPriceLevel 1000000 9223372036854775807 0 0;
              Book.mkPriceLevel 999999 9223372036854775807 0 0] 2
             [Book.mkPriceLevel 1000001 1 0 0] 1
             1 0 Book.Orderbook_default in
  BookSpec.quantities_nonneg (map (Book.level_at (Book.bids_ b)) (seq 0 2)) /\
  BookSpec.quantities_nonneg (map (Book.level_at (Book.asks_ b)) (seq 0 1)) /\
  Book.imbalance 5 b = ddiv (double_of_int 3) (double_of_int 1) /\
  dle (Book.imbalance 5 b) d_one = false.
Proof.
  intros b. split_and!.
  - repeat constructor; vm_compute; discriminate.
  - repeat constructor; vm_compute; discriminate.
  - vm_compute. reflexivity.
  - vm_compute. reflexivity.
Qed.

(* --------------------------------------------------------------------- *)
(** ** MPSCQueue: slots and positions *)
(* --------------------------------------------------------------------- *)

Section MPSCSlots.
Context {T : Type}.
Variable k : nat.
Local Abbreviation Capacity := (2 ^ Z.of_nat k).

Lemma capacity_pos : 0 < Capacity.
Proof. apply Z.pow_pos_nonneg; lia. Qed.

Lemma slot_index_mod (p : Z) :
  MPSC.slot_index Capacity p = Z.to_nat (p mod Capacity).
Proof.
  unfold MPSC.slot_index, MPSC.MASK.
  replace (Capacity - 1) with (Z.ones (Z.of_nat k))
    by (rewrite Z.ones_equiv; lia).
  rewrite Z.land_ones by lia. reflexivity.
Qed.

Lemma slot_index_lt (p : Z) :
  (MPSC.slot_index Capacity p < Z.to_nat Capacity)%nat.
Proof.
  rewrite slot_index_mod.
  pose proof (Z.mod_pos_bound p Capacity capacity_pos). lia.
Qed.

(** Two positions less than a lap apart share a slot only when equal. *)
Lemma slot_index_inj (p p' : Z) :
  Z.abs (p - p') < Capacity ->
  MPSC.slot_index Capacity p = MPSC.slot_index Capacity p' -> p = p'.
Proof.
  intros Hnear Hidx. rewrite !slot_index_mod in Hidx.
  pose proof capacity_pos as Hc.
  pose proof (Z.mod_pos_bound p Capacity Hc).
  pose proof (Z.mod_pos_bound p' Capacity Hc).
  assert (Hm : p mod Capacity = p' mod Capacity) by lia.
  pose proof (Z.div_mod p Capacity ltac:(lia)) as Hp.
  pose proof (Z.div_mod p' Capacity ltac:(lia)) as Hp'.
  assert (p / Capacity = p' / Capacity) by nia.
  congruence.
Qed.

(** A position and the one a lap later share their slot. *)
Lemma slot_index_lap (p : Z) :
  MPSC.slot_index Capacity (p + Capacity) = MPSC.slot_index Capacity p.
Proof.
  rewrite !slot_index_mod. f_equal.
  rewrite <- (Z.mul_1_l Capacity) at 1.
  apply Z.mod_add. pose proof capacity_pos; lia.
Qed.

(** Every position has a representative in any window of one lap. *)
Lemma window_representative (lo p : Z) :
  exists p', lo <= p' < lo + Capacity /\
             MPSC.slot_index Capacity p' = MPSC.slot_index Capacity p /\
             exists m, p = p' + m * Capacity.
Proof.
  pose proof capacity_pos as Hc.
  exists (lo + (p - lo) mod Capacity).
  pose proof (Z.mod_pos_bound (p - lo) Capacity Hc).
  pose proof (Z.div_mod (p - lo) Capacity ltac:(lia)) as Hdm.
  assert (Hm : p = lo + (p - lo) mod Capacity + (p - lo) / Capacity * Capacity)
    by lia.
  split; [lia|]. split; [|eauto].
  rewrite !slot_index_mod. f_equal.
  rewrite Hm at 2. symmetry. apply Z.mod_add. lia.
Qed.

Lemma set_sequence_length (pos sq : Z) (slots : list (MPSC.Slot T)) :
  length (MPSC.set_sequence Capacity pos sq slots) = length slots.
Proof.
  unfold MPSC.set_sequence.
  destruct (slots !! _); [apply length_insert | reflexivity].
Qed.

Lemma set_data_length (pos : Z) (v : T) (slots : list (MPSC.Slot T)) :
  length (MPSC.set_data Capacity pos v slots) = length slots.
Proof.
  unfold MPSC.set_data.
  destruct (slots !! _); [apply length_insert | reflexivity].
Qed.

Lemma set_sequence_same (pos sq : Z) (slots : list (MPSC.Slot T)) sl i :
  slots !! MPSC.slot_index Capacity pos = Some sl ->
  i = MPSC.slot_index Capacity pos ->
  MPSC.set_sequence Capacity pos sq slots !! i
  = Some (MPSC.mkSlot sq (MPSC.data sl)).
Proof.
  intros Hsl ->. unfold MPSC.set_sequence. rewrite Hsl.
  apply list_lookup_insert_eq. eapply lookup_lt_Some, Hsl.
Qed.

Lemma set_sequence_other (pos sq : Z) (slots : list (MPSC.Slot T)) i :
  i <> MPSC.slot_index Capacity pos ->
  MPSC.set_sequence Capacity pos sq slots !! i = slots !! i.
Proof.
  intros Hne. unfold MPSC.set_sequence.
  destruct (slots !! MPSC.slot_index Capacity pos); [|reflexivity].
  apply list_lookup_insert_ne. congruence.
Qed.

Lemma set_data_same (pos : Z) (v : T) (slots : list (MPSC.Slot T)) sl i :
  slots !! MPSC.slot_index Capacity pos = Some sl ->
  i = MPSC.slot_index Capacity pos ->
  MPSC.set_data Capacity pos v slots !! i
  = Some (MPSC.mkSlot (MPSC.sequence sl) v).
Proof.
  intros Hsl ->. unfold MPSC.set_data. rewrite Hsl.
  apply list_lookup_insert_eq. eapply lookup_lt_Some, Hsl.
Qed.

Lemma set_data_other (pos : Z) (v : T) (slots : list (MPSC.Slot T)) i :
  i <> MPSC.slot_index Capacity pos ->
  MPSC.set_data Capacity pos v slots !! i = slots !! i.
Proof.
  intros Hne. unfold MPSC.set_data.
  destruct (slots !! MPSC.slot_index Capacity pos); [|reflexivity].
  apply list_lookup_insert_ne. congruence.
Qed.

(** The constructor leaves slot [i] waiting for position [i]. *)
Lemma slot_at_new (d : T) (p : Z) :
  0 <= p < Capacity ->
  MPSC.slot_at Capacity (MPSC.MPSCQueue_new Capacity d) p
  = Some (MPSC.mkSlot p d).
Proof.
  intros Hp. unfold MPSC.slot_at, MPSC.MPSCQueue_new. cbn [MPSC.slots_].
  rewrite slot_index_mod, Z.mod_small by lia.
  change (map ?f ?l) with (f <$> l).
  rewrite list_lookup_fmap, lookup_seq_lt by lia.
  cbn. f_equal. f_equal. lia.
Qed.

End MPSCSlots.

(* --------------------------------------------------------------------- *)
(** ** MPSCQueue: the invariant of the reachable states *)
(* --------------------------------------------------------------------- *)

Section MPSCInvariant.
Import MPSC MPSCSpec.
Context {T : Type}.
Variable k : nat.
Hypothesis k_min : (1 <= k)%nat.
Hypothesis k_max : (k <= 62)%nat.
Local Abbreviation Capacity := (2 ^ Z.of_nat k).

Lemma capacity_range : 2 <= Capacity <= 2 ^ 62.
Proof.
  split.
  - change 2 with (2 ^ 1) at 1. apply Z.pow_le_mono_r; lia.
  - apply Z.pow_le_mono_r; lia.
Qed.

Lemma claims_snoc (h : list (event T)) (e : event T) :
  claims (h ++ [e])
  = claims h ++ match e with Claimed _ v => [v] | _ => [] end.
Proof.
  unfold claims. rewrite omap_app. f_equal. destruct e; reflexivity.
Qed.

Lemma pops_snoc (h : list (event T)) (e : event T) :
  pops (h ++ [e])
  = pops h ++ match e with Popped (Some v) => [v] | _ => [] end.
Proof.
  unfold pops. rewrite omap_app. f_equal. destruct e as [| | |[]]; reflexivity.
Qed.

Lemma pushed_snoc (h : list (event T)) (e : event T) :
  pushed (h ++ [e])
  = pushed h ++ match e with Pushed p v => [(p, v)] | _ => [] end.
Proof.
  unfold pushed. rewrite omap_app. f_equal. destruct e; reflexivity.
Qed.

Lemma lookup_set_producer (ps : list (producer T)) tid st t x :
  <[tid:=st]> ps !! t = Some x ->
  (t = tid /\ x = st) \/ (t <> tid /\ ps !! t = Some x).
Proof.
  intros Hx. destruct (decide (t = tid)) as [->|Hne].
  - left. split; [reflexivity|].
    assert (Hlt : (tid < length ps)%nat).
    { apply lookup_lt_Some in Hx. rewrite length_insert in Hx. exact Hx. }
    rewrite list_lookup_insert_eq in Hx by exact Hlt. congruence.
  - right. split; [exact Hne|].
    rewrite list_lookup_insert_ne in Hx by congruence. exact Hx.
Qed.

Lemma in_flight_set_producer (ps : list (producer T)) tid st t v p :
  in_flight (<[tid:=st]> ps !! t) v p ->
  (t = tid /\ in_flight (Some st) v p) \/ (t <> tid /\ in_flight (ps !! t) v p).
Proof.
  unfold in_flight.
  intros [Hx|Hx]; apply lookup_set_producer in Hx as [[-> <-]|[Hne Hx]]; eauto.
Qed.

Lemma owns_in_flight (o : option (producer T)) v p d :
  owns o v p d -> in_flight o v p.
Proof. unfold owns, in_flight. intros [?|[? _]]; eauto. Qed.

(** Another thread's ownership is not touched when [tid] moves. *)
Lemma owns_other (ps : list (producer T)) tid st old t v p d :
  ps !! tid = Some old ->
  (forall v' p', ~ in_flight (Some old) v' p') ->
  owns (ps !! t) v p d -> owns (<[tid:=st]> ps !! t) v p d.
Proof.
  intros Hold Hidle Hown.
  destruct (decide (t = tid)) as [->|Hne].
  - apply owns_in_flight in Hown. rewrite Hold in Hown.
    destruct (Hidle _ _ Hown).
  - rewrite list_lookup_insert_ne by congruence. exact Hown.
Qed.

(** A producer steps between states that own nothing, the queue untouched. *)
Lemma invariant_producer_local (s : system T) tid old new h' :
  invariant Capacity s ->
  producers s !! tid = Some old ->
  (forall v p, ~ in_flight (Some old) v p) ->
  (forall v p, ~ in_flight (Some new) v p) ->
  (forall v h, new = PCas v h -> 0 <= h < tail_ (queue s) + Capacity) ->
  (forall v h, new = PLoadSeq v h -> 0 <= h <= head_ (queue s)) ->
  claims h' = claims (history s) ->
  pops h' = pops (history s) ->
  pushed h' = pushed (history s) ->
  invariant Capacity
    (mkSystem (queue s) (<[tid:=new]> (producers s)) (the_consumer s) h').
Proof.
  intros [] Hold Hidle Hidle' Hcas Hloc Hcl Hpo Hpu.
  constructor; cbn [queue producers the_consumer history];
    rewrite ?Hcl, ?Hpo, ?Hpu; try assumption.
  - intros p Hp. destruct (inv_live0 p Hp) as (v & Hv & [Hpub|(d & t & Hsl & Hown)]).
    + exists v. eauto.
    + exists v. split; [exact Hv|]. right. exists d, t. split; [exact Hsl|].
      eapply owns_other; eauto.
  - intros t v p Hfl.
    apply in_flight_set_producer in Hfl as [[-> Hfl]|[_ Hfl]].
    + destruct (Hidle' _ _ Hfl).
    + eauto.
  - intros t1 t2 v1 v2 p H1 H2.
    apply in_flight_set_producer in H1 as [[-> H1]|[_ H1]];
      [destruct (Hidle' _ _ H1)|].
    apply in_flight_set_producer in H2 as [[-> H2]|[_ H2]];
      [destruct (Hidle' _ _ H2)|].
    eauto.
  - intros t v h Ht.
    apply lookup_set_producer in Ht as [[-> Ht]|[_ Ht]]; eauto.
  - intros t v h Ht.
    apply lookup_set_producer in Ht as [[-> Ht]|[_ Ht]]; eauto.
Qed.

(** The consumer steps without storing, the queue untouched. *)
Lemma invariant_consumer_local (s : system T) c' h' :
  invariant Capacity s ->
  match c' with
  | CReadData =>
      tail_ (queue s) < head_ (queue s) /\
      exists v, slot_at Capacity (queue s) (tail_ (queue s))
                = Some (mkSlot (tail_ (queue s) + 1) v)
  | CStoreSeq v =>
      tail_ (queue s) < head_ (queue s) /\
      slot_at Capacity (queue s) (tail_ (queue s))
      = Some (mkSlot (tail_ (queue s) + 1) v)
  | _ => True
  end ->
  claims h' = claims (history s) ->
  pops h' = pops (history s) ->
  pushed h' = pushed (history s) ->
  invariant Capacity (mkSystem (queue s) (producers s) c' h').
Proof.
  intros [] Hc Hcl Hpo Hpu.
  constructor; cbn [queue producers the_consumer history];
    rewrite ?Hcl, ?Hpo, ?Hpu; try assumption.
Qed.

Lemma in_flight_position (o : option (producer T)) v v' p p' :
  in_flight o v p -> in_flight o v' p' -> p = p' /\ v = v'.
Proof. unfold in_flight. intros [->| ->] [E|E]; inversion E; auto. Qed.

(** The compare-and-swap on [head_] succeeds: the producer claims the
    position. *)
Lemma invariant_claim (s : system T) tid v :
  invariant Capacity s ->
  producers s !! tid = Some (PCas v (head_ (queue s))) ->
  head_ (queue s) < 2 ^ 62 ->
  invariant Capacity
    (mkSystem (mkMPSC (slots_ (queue s)) (wrapU64 (head_ (queue s) + 1))
                      (tail_ (queue s)))
              (<[tid:=PWriteData v (head_ (queue s))]> (producers s))
              (the_consumer s)
              (history s ++ [Claimed (head_ (queue s)) v])).
Proof.
  destruct s as [[slots hd tl] ps c hist]. intros [] Htid Hb.
  cbn [queue producers the_consumer history head_ tail_ slots_] in *.
  unfold slot_at in *. cbn [slots_] in *.
  assert (Hw : wrapU64 (hd + 1) = hd + 1)
    by (unfold wrapU64; apply Z.mod_small; lia).
  assert (Hidle : forall v' p', ~ in_flight (Some (PCas v hd)) v' p')
    by (intros v' p' [E|E]; discriminate E).
  pose proof (lookup_lt_Some _ _ _ Htid) as Hlt.
  constructor; cbn [queue producers the_consumer history head_ tail_ slots_];
    unfold slot_at; cbn [slots_];
    rewrite ?Hw, ?claims_snoc, ?pops_snoc, ?pushed_snoc, ?app_nil_r,
      ?length_app;
    cbn [length]; try assumption.
  - lia.
  - specialize (inv_cas0 _ _ _ Htid). lia.
  - rewrite take_app_le by lia. assumption.
  - intros p Hp. apply inv_free0. lia.
  - intros p Hp. destruct (decide (p = hd)) as [->|Hne].
    + exists v. split.
      * rewrite lookup_app_r by lia.
        replace (Z.to_nat hd - length (claims hist))%nat with 0%nat by lia.
        reflexivity.
      * right. destruct (inv_free0 hd) as [d Hd].
        { specialize (inv_cas0 _ _ _ Htid). lia. }
        exists d, tid. split; [exact Hd|]. left.
        apply list_lookup_insert_eq, Hlt.
    + destruct (inv_live0 p ltac:(lia))
        as (v' & Hv' & [Hpub|(d & t & Hsl & Hown)]).
      * exists v'. split; [|left; exact Hpub].
        rewrite lookup_app_l; [exact Hv'|]. eapply lookup_lt_Some, Hv'.
      * exists v'. split.
        { rewrite lookup_app_l; [exact Hv'|]. eapply lookup_lt_Some, Hv'. }
        right. exists d, t. split; [exact Hsl|].
        eapply owns_other; eauto.
  - intros t v' p Hfl.
    apply in_flight_set_producer in Hfl as [[-> Hfl]|[_ Hfl]].
    + destruct Hfl as [E|E]; inversion E; subst. split; [lia|].
      apply inv_free0. specialize (inv_cas0 _ _ _ Htid). lia.
    + destruct (inv_own0 _ _ _ Hfl) as [Hr Hs]. split; [lia|exact Hs].
  - intros t1 t2 v1 v2 p H1 H2.
    apply in_flight_set_producer in H1 as [[-> H1]|[Hn1 H1]];
      apply in_flight_set_producer in H2 as [[-> H2]|[Hn2 H2]].
    + reflexivity.
    + destruct H1 as [E|E]; inversion E; subst.
      destruct (inv_own0 _ _ _ H2) as [Hr _]. lia.
    + destruct H2 as [E|E]; inversion E; subst.
      destruct (inv_own0 _ _ _ H1) as [Hr _]. lia.
    + eauto.
  - intros t v' h Ht.
    apply lookup_set_producer in Ht as [[-> Ht]|[_ Ht]]; [discriminate Ht|eauto].
  - intros t v' h Ht.
    apply lookup_set_producer in Ht as [[-> Ht]|[_ Ht]]; [discriminate Ht|].
    specialize (inv_loc0 _ _ _ Ht). lia.
  - destruct c; try exact I.
    + destruct inv_cons0 as [Hlt' Hs]. split; [lia|exact Hs].
    + destruct inv_cons0 as [Hlt' Hs]. split; [lia|exact Hs].
  - intros p v' Hin.
    destruct (inv_pushed0 _ _ Hin) as (Hr & Hcl & Hs).
    split; [lia|]. split; [|exact Hs].
    rewrite lookup_app_l; [exact Hcl|]. eapply lookup_lt_Some, Hcl.
Qed.

(** Positions less than a lap apart and different live in different
    slots. *)
Lemma slot_index_apart (p p' : Z) :
  p <> p' -> Z.abs (p - p') < Capacity ->
  MPSC.slot_index Capacity p <> MPSC.slot_index Capacity p'.
Proof. intros Hne Hnear E. apply slot_index_inj in E; [contradiction|exact Hnear]. Qed.

(** [slot.data = value] by the producer that claimed the position. *)
Lemma invariant_write (s : system T) tid v h :
  invariant Capacity s ->
  producers s !! tid = Some (PWriteData v h) ->
  invariant Capacity
    (mkSystem (mkMPSC (set_data Capacity h v (slots_ (queue s)))
                      (head_ (queue s)) (tail_ (queue s)))
              (<[tid:=PStoreSeq v h]> (producers s))
              (the_consumer s) (history s)).
Proof.
  destruct s as [[slots hd tl] ps c hist]. intros [] Htid.
  cbn [queue producers the_consumer history head_ tail_ slots_] in *.
  unfold slot_at in *. cbn [slots_] in *.
  pose proof (lookup_lt_Some _ _ _ Htid) as Hlt.
  assert (Hmine : in_flight (ps !! tid) v h) by (left; exact Htid).
  destruct (inv_own0 _ _ _ Hmine) as [Hh [d0 Hd0]].
  pose proof (capacity_range) as Hcap.
  constructor; cbn [queue producers the_consumer history head_ tail_ slots_];
    unfold slot_at; cbn [slots_]; try assumption.
  - rewrite set_data_length. assumption.
  - intros p Hp. rewrite set_data_other by (apply slot_index_apart; lia).
    apply inv_free0, Hp.
  - intros p Hp. destruct (decide (p = h)) as [->|Hne].
    + destruct (inv_live0 h Hp) as (v' & Hv' & [Hpub|(d & t & Hsl & Hown)]).
      { rewrite Hd0 in Hpub. inversion Hpub. lia. }
      pose proof (owns_in_flight _ _ _ _ Hown) as Hfl.
      assert (t = tid) as -> by (eapply inv_uniq0; eauto).
      destruct (in_flight_position _ _ _ _ _ Hfl Hmine) as [_ Ev]. subst v'.
      exists v. split; [exact Hv'|]. right. exists v, tid. split.
      * erewrite set_data_same by eauto. reflexivity.
      * right. split; [apply list_lookup_insert_eq, Hlt|reflexivity].
    + destruct (inv_live0 p Hp) as (v' & Hv' & [Hpub|(d & t & Hsl & Hown)]);
        exists v'; (split; [exact Hv'|]).
      * left. rewrite set_data_other by (apply slot_index_apart; lia).
        exact Hpub.
      * right. exists d, t.
        rewrite set_data_other by (apply slot_index_apart; lia).
        split; [exact Hsl|].
        destruct (decide (t = tid)) as [->|Ht].
        { apply owns_in_flight in Hown.
          destruct (in_flight_position _ _ _ _ _ Hown Hmine); lia. }
        rewrite list_lookup_insert_ne by congruence. exact Hown.
  - intros t v' p Hfl.
    apply in_flight_set_producer in Hfl as [[-> Hfl]|[Hn Hfl]].
    + destruct Hfl as [E|E]; inversion E; subst. split; [exact Hh|].
      eexists. erewrite set_data_same by eauto. reflexivity.
    + destruct (inv_own0 _ _ _ Hfl) as [Hr Hs]. split; [exact Hr|].
      assert (p <> h).
      { intros ->. apply Hn. eapply inv_uniq0; eauto. }
      rewrite set_data_other by (apply slot_index_apart; lia). exact Hs.
  - intros t1 t2 v1 v2 p H1 H2.
    apply in_flight_set_producer in H1 as [[-> H1]|[Hn1 H1]];
      apply in_flight_set_producer in H2 as [[-> H2]|[Hn2 H2]].
    + reflexivity.
    + destruct H1 as [E|E]; inversion E; subst.
      destruct Hn2. eapply inv_uniq0; eauto.
    + destruct H2 as [E|E]; inversion E; subst.
      destruct Hn1. eapply inv_uniq0; eauto.
    + eauto.
  - intros t v' h' Ht.
    apply lookup_set_producer in Ht as [[-> Ht]|[_ Ht]]; [discriminate Ht|eauto].
  - intros t v' h' Ht.
    apply lookup_set_producer in Ht as [[-> Ht]|[_ Ht]]; [discriminate Ht|eauto].
  - destruct c; try exact I.
    + destruct inv_cons0 as [Hlt' [v' Hs]]. split; [exact Hlt'|]. exists v'.
      assert (h <> tl) by (intros ->; rewrite Hd0 in Hs; inversion Hs; lia).
      rewrite set_data_other by (apply slot_index_apart; lia). exact Hs.
    + destruct inv_cons0 as [Hlt' Hs]. split; [exact Hlt'|].
      assert (h <> tl) by (intros ->; rewrite Hd0 in Hs; inversion Hs; lia).
      rewrite set_data_other by (apply slot_index_apart; lia). exact Hs.
  - intros p v' Hin. destruct (inv_pushed0 _ _ Hin) as (Hr & Hcl & Hs).
    split; [exact Hr|]. split; [exact Hcl|]. intros Hp.
    specialize (Hs Hp).
    assert (p <> h) by (intros ->; rewrite Hd0 in Hs; inversion Hs; lia).
    rewrite set_data_other by (apply slot_index_apart; lia). exact Hs.
Qed.

(** [slot.sequence.store(head + 1)]: the element is published and [push]
    returns true. *)
Lemma invariant_publish (s : system T) tid v h :
  invariant Capacity s ->
  producers s !! tid = Some (PStoreSeq v h) ->
  head_ (queue s) < 2 ^ 62 ->
  invariant Capacity
    (mkSystem (mkMPSC (set_sequence Capacity h (wrapU64 (h + 1))
                                    (slots_ (queue s)))
                      (head_ (queue s)) (tail_ (queue s)))
              (<[tid:=PIdle]> (producers s))
              (the_consumer s) (history s ++ [Pushed h v])).
Proof.
  destruct s as [[slots hd tl] ps c hist]. intros [] Htid Hb.
  cbn [queue producers the_consumer history head_ tail_ slots_] in *.
  unfold slot_at in *. cbn [slots_] in *.
  pose proof (lookup_lt_Some _ _ _ Htid) as Hlt.
  assert (Hmine : in_flight (ps !! tid) v h) by (right; exact Htid).
  destruct (inv_own0 _ _ _ Hmine) as [Hh [d0 Hd0]].
  pose proof (capacity_range) as Hcap.
  assert (Hw : wrapU64 (h + 1) = h + 1)
    by (unfold wrapU64; apply Z.mod_small; lia).
  assert (Hidle : forall (v' : T) p', ~ in_flight (Some PIdle) v' p')
    by (intros v' p' [E|E]; discriminate E).
  (* what the slot holds is the claimed value *)
  assert (Hmy : claims hist !! Z.to_nat h = Some v /\ d0 = v).
  { destruct (inv_live0 h Hh) as (v' & Hv' & [Hpub|(d & t & Hsl & Hown)]).
    { rewrite Hd0 in Hpub. inversion Hpub. lia. }
    pose proof (owns_in_flight _ _ _ _ Hown) as Hfl.
    assert (t = tid) as -> by (eapply inv_uniq0; eauto).
    destruct (in_flight_position _ _ _ _ _ Hfl Hmine) as [_ Ev]. subst v'.
    split; [exact Hv'|].
    destruct Hown as [E|[_ ->]]; [congruence|]. congruence. }
  destruct Hmy as [Hcl ->].
  constructor; cbn [queue producers the_consumer history head_ tail_ slots_];
    unfold slot_at; cbn [slots_];
    rewrite ?Hw, ?claims_snoc, ?pops_snoc, ?pushed_snoc, ?app_nil_r;
    try assumption.
  - rewrite set_sequence_length. assumption.
  - intros p Hp. rewrite set_sequence_other by (apply slot_index_apart; lia).
    apply inv_free0, Hp.
  - intros p Hp. destruct (decide (p = h)) as [->|Hne].
    + exists v. split; [exact Hcl|]. left.
      erewrite set_sequence_same by eauto. reflexivity.
    + destruct (inv_live0 p Hp) as (v' & Hv' & [Hpub|(d & t & Hsl & Hown)]);
        exists v'; (split; [exact Hv'|]).
      * left. rewrite set_sequence_other by (apply slot_index_apart; lia).
        exact Hpub.
      * right. exists d, t.
        rewrite set_sequence_other by (apply slot_index_apart; lia).
        split; [exact Hsl|].
        destruct (decide (t = tid)) as [->|Ht].
        { apply owns_in_flight in Hown.
          destruct (in_flight_position _ _ _ _ _ Hown Hmine); lia. }
        rewrite list_lookup_insert_ne by congruence. exact Hown.
  - intros t v' p Hfl.
    apply in_flight_set_producer in Hfl as [[-> Hfl]|[Hn Hfl]];
      [destruct (Hidle _ _ Hfl)|].
    destruct (inv_own0 _ _ _ Hfl) as [Hr Hs]. split; [exact Hr|].
    assert (p <> h).
    { intros ->. apply Hn. eapply inv_uniq0; eauto. }
    rewrite set_sequence_other by (apply slot_index_apart; lia). exact Hs.
  - intros t1 t2 v1 v2 p H1 H2.
    apply in_flight_set_producer in H1 as [[-> H1]|[Hn1 H1]];
      [destruct (Hidle _ _ H1)|].
    apply in_flight_set_producer in H2 as [[-> H2]|[Hn2 H2]];
      [destruct (Hidle _ _ H2)|].
    eauto.
  - intros t v' h' Ht.
    apply lookup_set_producer in Ht as [[-> Ht]|[_ Ht]]; [discriminate Ht|eauto].
  - intros t v' h' Ht.
    apply lookup_set_producer in Ht as [[-> Ht]|[_ Ht]]; [discriminate Ht|eauto].
  - destruct c; try exact I.
    + destruct inv_cons0 as [Hlt' [v' Hs]]. split; [exact Hlt'|]. exists v'.
      assert (h <> tl) by (intros ->; rewrite Hd0 in Hs; inversion Hs; lia).
      rewrite set_sequence_other by (apply slot_index_apart; lia). exact Hs.
    + destruct inv_cons0 as [Hlt' Hs]. split; [exact Hlt'|].
      assert (h <> tl) by (intros ->; rewrite Hd0 in Hs; inversion Hs; lia).
      rewrite set_sequence_other by (apply slot_index_apart; lia). exact Hs.
  - intros p v' Hin. apply elem_of_app in Hin as [Hin|Hin].
    + destruct (inv_pushed0 _ _ Hin) as (Hr & Hcl' & Hs).
      split; [exact Hr|]. split; [exact Hcl'|]. intros Hp.
      specialize (Hs Hp).
      assert (p <> h) by (intros ->; rewrite Hd0 in Hs; inversion Hs; lia).
      rewrite set_sequence_other by (apply slot_index_apart; lia). exact Hs.
    + apply list_elem_of_singleton in Hin. inversion Hin; subst.
      split; [lia|]. split; [exact Hcl|]. intros _.
      erewrite set_sequence_same by eauto. reflexivity.
  - rewrite fmap_app. apply NoDup_app. split; [exact inv_once0|].
    split; [|apply NoDup_singleton].
    intros p Hin Hp. apply list_elem_of_singleton in Hp. cbn in Hp. subst p.
    apply list_elem_of_fmap in Hin as [[p v'] [Ep Hin]]. cbn in Ep. subst h.
    destruct (inv_pushed0 _ _ Hin) as (_ & _ & Hs).
    rewrite Hd0 in Hs. specialize (Hs ltac:(lia)). inversion Hs. lia.
Qed.

(** [slot.sequence.store(tail_ + Capacity); ++tail_]: the consumer frees
    the slot for the next lap and [pop] returns the value. *)
Lemma invariant_consume (s : system T) v :
  invariant Capacity s ->
  the_consumer s = CStoreSeq v ->
  head_ (queue s) < 2 ^ 62 ->
  invariant Capacity
    (mkSystem (mkMPSC (set_sequence Capacity (tail_ (queue s))
                                    (wrapU64 (tail_ (queue s) + Capacity))
                                    (slots_ (queue s)))
                      (head_ (queue s)) (wrapU64 (tail_ (queue s) + 1)))
              (producers s) CIdle (history s ++ [Popped (Some v)])).
Proof.
  destruct s as [[slots hd tl] ps c hist]. intros [] Hc Hb.
  cbn [queue producers the_consumer history head_ tail_ slots_] in *.
  unfold slot_at in *. cbn [slots_] in *. subst c.
  destruct inv_cons0 as [Hlt Hs].
  pose proof (capacity_range) as Hcap.
  assert (Hw : wrapU64 (tl + 1) = tl + 1)
    by (unfold wrapU64; apply Z.mod_small; lia).
  assert (Hw' : wrapU64 (tl + Capacity) = tl + Capacity)
    by (unfold wrapU64; apply Z.mod_small; lia).
  assert (Hcl : claims hist !! Z.to_nat tl = Some v).
  { destruct (inv_live0 tl ltac:(lia))
      as (v' & Hv' & [Hpub|(d & t & Hsl & Hown)]).
    - rewrite Hs in Hpub. inversion Hpub; subst. exact Hv'.
    - rewrite Hs in Hsl. inversion Hsl. lia. }
  constructor; cbn [queue producers the_consumer history head_ tail_ slots_];
    unfold slot_at; cbn [slots_];
    rewrite ?Hw, ?Hw', ?claims_snoc, ?pops_snoc, ?pushed_snoc, ?app_nil_r,
      ?length_app;
    cbn [length]; try assumption; try exact I.
  - rewrite set_sequence_length. assumption.
  - lia.
  - lia.
  - rewrite Nat.add_1_r.
    erewrite take_S_r; [rewrite <- inv_pops0; reflexivity|].
    replace (length (pops hist)) with (Z.to_nat tl) by lia. exact Hcl.
  - intros p Hp. destruct (decide (p = tl + Capacity)) as [->|Hne].
    + exists v. rewrite (set_sequence_same k _ _ _ _ _ Hs (slot_index_lap k tl)).
      reflexivity.
    + rewrite set_sequence_other by (apply slot_index_apart; lia).
      apply inv_free0. lia.
  - intros p Hp.
    rewrite set_sequence_other by (apply slot_index_apart; lia).
    apply inv_live0. lia.
  - intros t v' p Hfl. destruct (inv_own0 _ _ _ Hfl) as [Hr [d Hd]].
    assert (p <> tl) by (intros ->; rewrite Hs in Hd; inversion Hd; lia).
    split; [lia|]. exists d.
    rewrite set_sequence_other by (apply slot_index_apart; lia). exact Hd.
  - intros t v' h Ht. specialize (inv_cas0 _ _ _ Ht). lia.
  - intros p v' Hin.
    destruct (inv_pushed0 _ _ Hin) as (Hr & Hcl' & Hs').
    split; [exact Hr|]. split; [exact Hcl'|]. intros Hp.
    rewrite set_sequence_other by (apply slot_index_apart; lia).
    apply Hs'. lia.
Qed.

(** What a slot's sequence can be: the slot of position [p] holds the
    position [p'] of the current lap, or [p' + 1] once it is published. *)
Lemma slot_sequence (s : system T) (p : Z) (sl : Slot T) :
  invariant Capacity s ->
  slot_at Capacity (queue s) p = Some sl ->
  exists p' m,
    tail_ (queue s) <= p' < tail_ (queue s) + Capacity /\
    p = p' + m * Capacity /\
    (sequence sl = p' \/ sequence sl = p' + 1).
Proof.
  intros Hinv Hsl.
  destruct (window_representative k (tail_ (queue s)) p)
    as (p' & Hwin & Hidx & m & Hm).
  exists p', m. split; [exact Hwin|]. split; [exact Hm|].
  unfold slot_at in Hsl. rewrite <- Hidx in Hsl.
  destruct (Z_lt_le_dec p' (head_ (queue s))) as [Hlive|Hfree].
  - destruct (inv_live _ _ Hinv p' ltac:(lia))
      as (v & _ & [Hpub|(d & t & Hs & _)]); unfold slot_at in *.
    + rewrite Hsl in Hpub. inversion Hpub. right. reflexivity.
    + rewrite Hsl in Hs. inversion Hs. left. reflexivity.
  - destruct (inv_free _ _ Hinv p' ltac:(lia)) as [d Hd]; unfold slot_at in *.
    rewrite Hsl in Hd. inversion Hd. left. reflexivity.
Qed.

Lemma tail_nonneg (s : system T) :
  invariant Capacity s -> 0 <= tail_ (queue s).
Proof. intros Hinv. rewrite (inv_tail _ _ Hinv). lia. Qed.

(** The history only grows. *)
Lemma step_history (a : action T) (s s' : system T) :
  step Capacity a s = Some s' ->
  exists es, history s' = history s ++ es.
Proof.
  destruct a as [tid v| |tid allowed|]; cbn [step].
  - destruct (producers s !! tid) as [[]|]; intros E; inversion E.
    exists []. cbn. rewrite app_nil_r. reflexivity.
  - destruct (the_consumer s); intros E; inversion E.
    exists []. cbn. rewrite app_nil_r. reflexivity.
  - unfold producer_step.
    destruct (producers s !! tid) as [[]|]; try discriminate.
    + intros E; inversion E. exists []. cbn. rewrite app_nil_r. reflexivity.
    + destruct (slot_at _ _ _); [|discriminate].
      destruct (_ =? 0); [|destruct (_ <? 0)]; intros E; inversion E;
        cbn; eauto; exists []; rewrite app_nil_r; reflexivity.
    + destruct (_ && _); intros E; inversion E; cbn; eauto.
      exists []. rewrite app_nil_r. reflexivity.
    + intros E; inversion E. exists []. cbn. rewrite app_nil_r. reflexivity.
    + intros E; inversion E. cbn. eauto.
  - unfold consumer_step. destruct (the_consumer s); try discriminate.
    + destruct (slot_at _ _ _); [|discriminate].
      destruct (_ =? 0); intros E; inversion E; cbn; eauto.
      exists []. rewrite app_nil_r. reflexivity.
    + destruct (slot_at _ _ _); [|discriminate].
      intros E; inversion E. exists []. cbn. rewrite app_nil_r. reflexivity.
    + intros E; inversion E. cbn. eauto.
Qed.

Lemma claims_app_length (h es : list (event T)) :
  (length (claims h) <= length (claims (h ++ es)))%nat.
Proof. unfold claims. rewrite omap_app, length_app. lia. Qed.

Lemma step_within_bound (a : action T) (s s' : system T) :
  step Capacity a s = Some s' -> within_bound s' -> within_bound s.
Proof.
  intros Hstep Hb. destruct (step_history _ _ _ Hstep) as [es Hes].
  unfold within_bound in *. rewrite Hes in Hb.
  pose proof (claims_app_length (history s) es). lia.
Qed.

Lemma head_bound (s : system T) :
  invariant Capacity s -> within_bound s -> 0 <= head_ (queue s) < 2 ^ 62.
Proof.
  intros Hinv Hb. unfold within_bound in Hb.
  rewrite (inv_head _ _ Hinv). lia.
Qed.

Lemma not_in_flight_idle (v : T) (p : Z) : ~ in_flight (Some PIdle) v p.
Proof. intros [E|E]; discriminate E. Qed.

Lemma not_in_flight_load_head (v0 v : T) (p : Z) :
  ~ in_flight (Some (PLoadHead v0)) v p.
Proof. intros [E|E]; discriminate E. Qed.

Lemma not_in_flight_load_seq (v0 : T) h (v : T) (p : Z) :
  ~ in_flight (Some (PLoadSeq v0 h)) v p.
Proof. intros [E|E]; discriminate E. Qed.

Lemma not_in_flight_cas (v0 : T) h (v : T) (p : Z) :
  ~ in_flight (Some (PCas v0 h)) v p.
Proof. intros [E|E]; discriminate E. Qed.


(** [seq = slot.sequence.load()] in [push]: the three outcomes. *)
Lemma invariant_producer_load_seq (s s' : system T) tid v h :
  invariant Capacity s ->
  within_bound s ->
  producers s !! tid = Some (PLoadSeq v h) ->
  producer_step Capacity tid true s = Some s' \/
  producer_step Capacity tid false s = Some s' ->
  invariant Capacity s'.
Proof.
  intros Hinv Hb Htid Hstep.
  assert (Hstep' : producer_step Capacity tid true s = Some s').
  { destruct Hstep as [E|E]; [exact E|].
    unfold producer_step in *. rewrite Htid in *. exact E. }
  clear Hstep. unfold producer_step in Hstep'. rewrite Htid in Hstep'.
  destruct (slot_at Capacity (queue s) h) as [sl|] eqn:Hsl; [|discriminate].
  pose proof (capacity_range) as Hcap.
  pose proof (head_bound _ Hinv Hb) as Hhd.
  pose proof (tail_nonneg _ Hinv) as Htl.
  pose proof (inv_room _ _ Hinv) as Hroom.
  pose proof (inv_loc _ _ Hinv _ _ _ Htid) as Hh.
  destruct (slot_sequence _ _ _ Hinv Hsl) as (p' & m & Hwin & Hm & Hseq).
  assert (Hfit : in_int64 (sequence sl - h)).
  { unfold in_int64, INT64_MIN, INT64_MAX. lia. }
  rewrite wrap64_id in Hstep' by exact Hfit.
  destruct (sequence sl - h =? 0) eqn:Hd0.
  - apply Z.eqb_eq in Hd0. inversion Hstep'; subst s'.
    eapply invariant_producer_local; eauto using not_in_flight_load_seq,
      not_in_flight_cas; try discriminate.
    intros v0 h0 E. inversion E; subst v0 h0.
    destruct Hseq as [Hseq|Hseq]; [lia|].
    assert (Hlap : m * Capacity = 1) by lia.
    destruct (Z_le_gt_dec m 0); nia.
  - destruct (sequence sl - h <? 0); inversion Hstep'; subst s'.
    + eapply invariant_producer_local; eauto using not_in_flight_load_seq,
        not_in_flight_idle; try discriminate.
      * rewrite claims_snoc, app_nil_r. reflexivity.
      * rewrite pops_snoc, app_nil_r. reflexivity.
      * rewrite pushed_snoc, app_nil_r. reflexivity.
    + eapply invariant_producer_local; eauto using not_in_flight_load_seq,
        not_in_flight_load_head; try discriminate.
Qed.

(** [seq = slot.sequence.load()] in [pop]. *)
Lemma invariant_consumer_load_seq (s s' : system T) :
  invariant Capacity s ->
  within_bound s ->
  the_consumer s = CLoadSeq ->
  consumer_step Capacity s = Some s' ->
  invariant Capacity s'.
Proof.
  intros Hinv Hb Hc Hstep. unfold consumer_step in Hstep. rewrite Hc in Hstep.
  destruct (slot_at Capacity (queue s) (tail_ (queue s))) as [sl|] eqn:Hsl;
    [|discriminate].
  pose proof (capacity_range) as Hcap.
  pose proof (head_bound _ Hinv Hb) as Hhd.
  pose proof (tail_nonneg _ Hinv) as Htl.
  pose proof (inv_room _ _ Hinv) as Hroom.
  assert (Hw : wrapU64 (tail_ (queue s) + 1) = tail_ (queue s) + 1)
    by (unfold wrapU64; apply Z.mod_small; lia).
  rewrite Hw in Hstep.
  destruct (wrap64 (sequence sl - (tail_ (queue s) + 1)) =? 0) eqn:Hd0;
    inversion Hstep; subst s'.
  - apply Z.eqb_eq in Hd0.
    apply invariant_consumer_local; try reflexivity; [exact Hinv|].
    destruct (Z_lt_le_dec (tail_ (queue s)) (head_ (queue s))) as [Hlive|Hfree].
    + split; [exact Hlive|].
      destruct (inv_live _ _ Hinv (tail_ (queue s)) ltac:(lia))
        as (v & _ & [Hpub|(d & t & Hs & _)]).
      * exists v. exact Hpub.
      * rewrite Hsl in Hs. inversion Hs as [Es]. rewrite Es in Hd0.
        cbn [sequence] in Hd0.
        rewrite wrap64_id in Hd0
          by (unfold in_int64, INT64_MIN, INT64_MAX; lia).
        lia.
    + destruct (inv_free _ _ Hinv (tail_ (queue s)) ltac:(lia)) as [d Hs].
      rewrite Hsl in Hs. inversion Hs as [Es]. rewrite Es in Hd0.
      cbn [sequence] in Hd0.
      rewrite wrap64_id in Hd0
        by (unfold in_int64, INT64_MIN, INT64_MAX; lia).
      lia.
  - apply invariant_consumer_local; [exact Hinv|exact I| | |].
    + rewrite claims_snoc, app_nil_r. reflexivity.
    + rewrite pops_snoc, app_nil_r. reflexivity.
    + rewrite pushed_snoc, app_nil_r. reflexivity.
Qed.

(** Every step of every thread keeps the invariant. *)
Lemma step_invariant (a : action T) (s s' : system T) :
  invariant Capacity s ->
  step Capacity a s = Some s' ->
  within_bound s' ->
  invariant Capacity s'.
Proof.
  intros Hinv Hstep Hb'.
  pose proof (step_within_bound _ _ _ Hstep Hb') as Hb.
  pose proof (head_bound _ Hinv Hb) as Hhd.
  destruct a as [tid v| |tid allowed|]; cbn [step] in Hstep.
  - destruct (producers s !! tid) as [[]|] eqn:Htid; inversion Hstep; subst s'.
    eapply invariant_producer_local; eauto using not_in_flight_idle,
      not_in_flight_load_head; discriminate.
  - destruct (the_consumer s) eqn:Hc; inversion Hstep; subst s'.
    apply invariant_consumer_local; try reflexivity; try exact I. exact Hinv.
  - destruct (producers s !! tid) as [[|v|v h|v h|v h|v h]|] eqn:Htid;
      try (unfold producer_step in Hstep; rewrite Htid in Hstep; discriminate).
    + unfold producer_step in Hstep. rewrite Htid in Hstep.
      inversion Hstep; subst s'.
      eapply invariant_producer_local; eauto using not_in_flight_load_seq,
        not_in_flight_load_head; try discriminate.
      intros v0 h0 E. inversion E; subst. lia.
    + eapply invariant_producer_load_seq; eauto.
      destruct allowed; eauto.
    + unfold producer_step in Hstep. rewrite Htid in Hstep.
      destruct (head_ (queue s) =? h) eqn:Hcas; cbn [andb] in Hstep;
        [destruct allowed|]; inversion Hstep; subst s'.
      * apply Z.eqb_eq in Hcas. subst h.
        apply invariant_claim; [exact Hinv|exact Htid|lia].
      * eapply invariant_producer_local; eauto using not_in_flight_load_seq,
          not_in_flight_cas; try discriminate.
        intros v0 h0 E. inversion E; subst. lia.
      * eapply invariant_producer_local; eauto using not_in_flight_load_seq,
          not_in_flight_cas; try discriminate.
        intros v0 h0 E. inversion E; subst. lia.
    + unfold producer_step in Hstep. rewrite Htid in Hstep.
      inversion Hstep; subst s'.
      apply invariant_write; [exact Hinv|exact Htid].
    + unfold producer_step in Hstep. rewrite Htid in Hstep.
      inversion Hstep; subst s'.
      apply invariant_publish; [exact Hinv|exact Htid|lia].
  - destruct (the_consumer s) as [| | |v] eqn:Hc;
      try (unfold consumer_step in Hstep; rewrite Hc in Hstep; discriminate).
    + eapply invariant_consumer_load_seq; eauto.
    + unfold consumer_step in Hstep. rewrite Hc in Hstep.
      destruct (slot_at Capacity (queue s) (tail_ (queue s))) as [sl|] eqn:Hsl;
        inversion Hstep; subst s'.
      apply invariant_consumer_local; try reflexivity; [exact Hinv|].
      pose proof (inv_cons _ _ Hinv) as Hcons. rewrite Hc in Hcons.
      destruct Hcons as [Hlt [v Hv]]. split; [exact Hlt|].
      rewrite Hsl in Hv |- *. inversion Hv. reflexivity.
    + unfold consumer_step in Hstep. rewrite Hc in Hstep.
      inversion Hstep; subst s'.
      apply invariant_consume; [exact Hinv|exact Hc|lia].
Qed.

(** The constructor establishes the invariant. *)
Lemma initial_invariant (d : T) (n : nat) :
  invariant Capacity (initial Capacity d n).
Proof.
  pose proof (capacity_range) as Hcap.
  assert (Hidle : forall t (v : T) p,
             ~ in_flight (replicate n PIdle !! t) v p).
  { intros t v p [E|E]; apply lookup_replicate in E as [E _]; discriminate E. }
  constructor; unfold initial;
    cbn [queue producers the_consumer history head_ tail_ slots_
         MPSCQueue_new claims pops pushed omap list_omap length];
    try exact I.
  - rewrite length_map, length_seq. reflexivity.
  - reflexivity.
  - reflexivity.
  - lia.
  - reflexivity.
  - intros p Hp. exists d. apply (slot_at_new k). lia.
  - intros p Hp. lia.
  - intros t v p Hfl. destruct (Hidle _ _ _ Hfl).
  - intros t1 t2 v1 v2 p Hfl. destruct (Hidle _ _ _ Hfl).
  - intros t v h E. apply lookup_replicate in E as [E _]. discriminate E.
  - intros t v h E. apply lookup_replicate in E as [E _]. discriminate E.
  - intros p v Hin. apply elem_of_nil in Hin. destruct Hin.
  - apply NoDup_nil_2.
Qed.

Lemma run_within_bound (sched : list (action T)) (s s' : system T) :
  run Capacity sched s = Some s' -> within_bound s' -> within_bound s.
Proof.
  revert s. induction sched as [|a rest IH]; intros s Hrun Hb; cbn [run] in Hrun.
  - inversion Hrun; subst. exact Hb.
  - destruct (step Capacity a s) as [s1|] eqn:Hstep; [|discriminate].
    eapply step_within_bound; eauto.
Qed.

Lemma run_invariant (sched : list (action T)) (s s' : system T) :
  invariant Capacity s ->
  run Capacity sched s = Some s' ->
  within_bound s' ->
  invariant Capacity s'.
Proof.
  revert s. induction sched as [|a rest IH]; intros s Hinv Hrun Hb;
    cbn [run] in Hrun.
  - inversion Hrun; subst. exact Hinv.
  - destruct (step Capacity a s) as [s1|] eqn:Hstep; [|discriminate].
    apply (IH s1); [|exact Hrun|exact Hb].
    eapply step_invariant; eauto using run_within_bound.
Qed.

(** With the element at its position published, [pop] run alone returns
    it. *)
Lemma pop_alone_returns (s : system T) (v : T) :
  invariant Capacity s ->
  within_bound s ->
  the_consumer s = CIdle ->
  slot_at Capacity (queue s) (tail_ (queue s))
  = Some (mkSlot (tail_ (queue s) + 1) v) ->
  exists s', run Capacity pop_alone s = Some s' /\
             history s' = history s ++ [Popped (Some v)].
Proof.
  intros Hinv Hb Hc Hsl.
  pose proof (head_bound _ Hinv Hb) as Hhd.
  pose proof (tail_nonneg _ Hinv) as Htl.
  pose proof (inv_room _ _ Hinv) as Hroom.
  assert (Hw : wrapU64 (tail_ (queue s) + 1) = tail_ (queue s) + 1)
    by (unfold wrapU64; apply Z.mod_small; lia).
  exists (mkSystem
            (mkMPSC (set_sequence Capacity (tail_ (queue s))
                                  (wrapU64 (tail_ (queue s) + Capacity))
                                  (slots_ (queue s)))
                    (head_ (queue s)) (wrapU64 (tail_ (queue s) + 1)))
            (producers s) CIdle (history s ++ [Popped (Some v)])).
  split; [|reflexivity].
  unfold pop_alone. cbn [run step]. rewrite Hc.
  unfold consumer_step at 1. cbn [the_consumer queue]. rewrite Hsl, Hw.
  cbn [sequence]. rewrite Z.sub_diag. change (wrap64 0 =? 0) with true.
  cbn iota.
  unfold consumer_step at 1. cbn [the_consumer queue]. rewrite Hsl.
  unfold consumer_step at 1. cbn [the_consumer queue history producers data].
  rewrite ?Hw. reflexivity.
Qed.

Lemma invariant_delivers (s : system T) :
  invariant Capacity s -> within_bound s ->
  delivers_in_claim_order Capacity s.
Proof.
  intros Hinv Hb. split; [exact (inv_pops _ _ Hinv)|].
  split; [exact (inv_once _ _ Hinv)|]. split.
  - intros p v Hin.
    destruct (inv_pushed _ _ Hinv _ _ Hin) as (Hr & Hcl & Hs).
    split; [lia|]. split; [exact Hcl|].
    pose proof (inv_tail _ _ Hinv) as Htl.
    destruct (Z_lt_le_dec p (tail_ (queue s))) as [Hdone|Hwait].
    + left. rewrite (inv_pops _ _ Hinv).
      rewrite lookup_take_lt by lia. exact Hcl.
    + right. split; [lia|]. apply Hs, Hwait.
  - intros Hc v Hin. rewrite <- (inv_tail _ _ Hinv) in Hin.
    destruct (inv_pushed _ _ Hinv _ _ Hin) as (_ & _ & Hs).
    apply pop_alone_returns; auto. apply Hs. lia.
Qed.

End MPSCInvariant.

(** C9, as amended. For capacities [2 ^ k] from 2 up, in every interleaving of
    the accesses of any number of producers and the consumer, and while fewer
    than [2 ^ 62] positions have been claimed, every element whose push
    returned true is consumed exactly once and in claim order: the consumer
    has received the claims from the first on, in claim order; each push
    that returned true has a position of its own and its element is the
    claim at that position; the element has been received or waits published
    in its slot; and the consumer's next pop returns it once it is the
    oldest. *)
Theorem mpsc_exactly_once_in_claim_order {T : Type} (k : nat) (d : T)
    (n_producers : nat) (sched : list (MPSC.action T)) (s : MPSC.system T) :
  (1 <= k)%nat -> (k <= 62)%nat ->
  MPSC.run (2 ^ Z.of_nat k) sched (MPSC.initial (2 ^ Z.of_nat k) d n_producers)
  = Some s ->
  MPSCSpec.within_bound s ->
  MPSCSpec.delivers_in_claim_order (2 ^ Z.of_nat k) s.
Proof.
  intros Hmin Hmax Hrun Hb.
  apply invariant_delivers; [exact Hmin|exact Hmax| |exact Hb].
  eapply run_invariant; eauto using initial_invariant.
Qed.

Lemma mpsc_exactly_once_in_claim_order_witness :
  MPSCSpec.delivers_in_claim_order (2 ^ Z.of_nat 1)
    (MPSC.mkSystem
       (MPSC.mkMPSC [MPSC.mkSlot 2 22; MPSC.mkSlot 3 11] 2 2)
       [MPSC.PIdle; MPSC.PIdle] MPSC.CIdle
       [MPSC.Claimed 0 22; MPSC.Claimed 1 11; MPSC.Pushed 1 11;
        MPSC.Popped None; MPSC.Pushed 0 22; MPSC.Popped (Some 22);
        MPSC.Popped (Some 11)]).
Proof.
  apply (mpsc_exactly_once_in_claim_order 1 0 2 MPSCSpec.a_race).
  - lia.
  - lia.
  - vm_compute. reflexivity.
  - vm_compute. reflexivity.
Defined.

(** C9 as stated fails for capacity 1, which the [static_assert] admits:
    one producer pushes 11 and 22, both calls return true, the second
    overwrites the first in the only slot, and the consumer's pop finds
    nothing. *)
Lemma mpsc_capacity_one_loses_elements :
  MPSC.run 1 MPSCSpec.two_pushes (MPSC.initial 1 0 1)
  = Some (MPSC.mkSystem (MPSC.mkMPSC [MPSC.mkSlot 2 22] 2 0)
            [MPSC.PIdle] MPSC.CIdle
            [MPSC.Claimed 0 11; MPSC.Pushed 0 11; MPSC.Claimed 1 22;
             MPSC.Pushed 1 22; MPSC.Popped None]) /\
  ~ MPSCSpec.delivers_in_claim_order 1
      (MPSC.mkSystem (MPSC.mkMPSC [MPSC.mkSlot 2 22] 2 0)
         [MPSC.PIdle] MPSC.CIdle
         [MPSC.Claimed 0 11; MPSC.Pushed 0 11; MPSC.Claimed 1 22;
          MPSC.Pushed 1 22; MPSC.Popped None]).
Proof.
  split; [vm_compute; reflexivity|].
  intros (_ & _ & Hkept & _).
  destruct (Hkept 0 11) as (_ & _ & [Hpop|[_ Hslot]]).
  - cbn. constructor.
  - discriminate Hpop.
  - vm_compute in Hslot. discriminate Hslot.
Qed.

(* --------------------------------------------------------------------- *)
(** ** Orderbook: updates and accessors *)
(* --------------------------------------------------------------------- *)

Section BookUpdates.
Import BookSpec.

Lemma level_at_set_level (levels : list Book.PriceLevel) (level l : nat)
    (p : PriceMicro) (qty : QuantityNano) :
  (level < length levels)%nat ->
  Book.level_at (Book.set_level levels level p qty) l
  = if decide (l = level)
    then Book.mkPriceLevel p qty
           (Book.order_count (Book.level_at levels level))
           (Book.padding (Book.level_at levels level))
    else Book.level_at levels l.
Proof.
  intros Hlt. unfold Book.set_level, Book.level_at at 1.
  destruct (decide (l = level)) as [->|Hne].
  - rewrite list_lookup_insert_eq by exact Hlt. reflexivity.
  - rewrite list_lookup_insert_ne by congruence. reflexivity.
Qed.

Lemma length_set_level (levels : list Book.PriceLevel) (level : nat)
    (p : PriceMicro) (qty : QuantityNano) :
  length (Book.set_level levels level p qty) = length levels.
Proof. unfold Book.set_level. apply length_insert. Qed.

Lemma length_copy_levels (n : nat) (src dst : list Book.PriceLevel) :
  (n <= length dst)%nat ->
  length (Book.copy_levels n src dst) = length dst.
Proof.
  intros Hn. unfold Book.copy_levels.
  rewrite length_app, length_drop, length_take. lia.
Qed.

Lemma level_at_copy_levels (n : nat) (src dst : list Book.PriceLevel) (i : nat) :
  (n <= length src)%nat ->
  Book.level_at (Book.copy_levels n src dst) i
  = if (i <? n)%nat then Book.level_at src i else Book.level_at dst i.
Proof.
  intros Hn. unfold Book.copy_levels, Book.level_at.
  rewrite length_take, Nat.min_l by exact Hn.
  destruct (Nat.ltb_spec i n) as [Hlt|Hge].
  - rewrite lookup_app_l by (rewrite length_take; lia).
    rewrite lookup_take_lt by exact Hlt. reflexivity.
  - rewrite lookup_app_r by (rewrite length_take; lia).
    rewrite length_take, Nat.min_l by exact Hn.
    rewrite lookup_drop. do 2 f_equal. lia.
Qed.

(** After every sequence of snapshots and level updates on a new book, both
    arrays still have their 25 slots, neither depth exceeds 25, and every
    level below a depth is a slot of its array: the loops over a side never
    read past the end. *)
Theorem depth_within_arrays (us : list update) :
  let b := after_updates us Book.Orderbook_default in
  arrays_full b /\
  (Book.bid_depth b <= Book.MAX_ORDERBOOK_LEVELS)%nat /\
  (Book.ask_depth b <= Book.MAX_ORDERBOOK_LEVELS)%nat /\
  (forall i, (i < Book.bid_depth b)%nat -> is_Some (Book.bids_ b !! i)) /\
  (forall i, (i < Book.ask_depth b)%nat -> is_Some (Book.asks_ b !! i)).
Proof.
  cbn zeta.
  assert (Hinv : forall us b,
             arrays_full b ->
             (Book.bid_count_ b <= Book.MAX_ORDERBOOK_LEVELS)%nat ->
             (Book.ask_count_ b <= Book.MAX_ORDERBOOK_LEVELS)%nat ->
             arrays_full (after_updates us b) /\
             (Book.bid_count_ (after_updates us b) <= Book.MAX_ORDERBOOK_LEVELS)%nat /\
             (Book.ask_count_ (after_updates us b) <= Book.MAX_ORDERBOOK_LEVELS)%nat).
  { clear us. induction us as [|u us IH]; intros b Hfull Hb Ha; [auto|].
    destruct Hfull as [Hlb Hla].
    unfold after_updates in *. cbn [fold_left]. apply IH; clear IH.
    - destruct u as [bids bc asks ac sq ts|level p qty|level p qty];
        cbn [apply_update].
      + unfold arrays_full, Book.update_snapshot. cbn [Book.bids_ Book.asks_].
        rewrite !length_copy_levels by lia. auto.
      + unfold arrays_full, Book.update_bid.
        destruct (level <? Book.MAX_ORDERBOOK_LEVELS)%nat;
          cbn [Book.bids_ Book.asks_]; rewrite ?length_set_level; auto.
      + unfold arrays_full, Book.update_ask.
        destruct (level <? Book.MAX_ORDERBOOK_LEVELS)%nat;
          cbn [Book.bids_ Book.asks_]; rewrite ?length_set_level; auto.
    - destruct u as [bids bc asks ac sq ts|level p qty|level p qty];
        cbn [apply_update].
      + unfold Book.update_snapshot. cbn [Book.bid_count_]. lia.
      + unfold Book.update_bid.
        destruct (Nat.ltb_spec level Book.MAX_ORDERBOOK_LEVELS);
          cbn [Book.bid_count_]; [|exact Hb].
        destruct (Book.bid_count_ b <=? level)%nat; lia.
      + unfold Book.update_ask.
        destruct (level <? Book.MAX_ORDERBOOK_LEVELS)%nat;
          cbn [Book.bid_count_]; exact Hb.
    - destruct u as [bids bc asks ac sq ts|level p qty|level p qty];
        cbn [apply_update].
      + unfold Book.update_snapshot. cbn [Book.ask_count_]. lia.
      + unfold Book.update_bid.
        destruct (level <? Book.MAX_ORDERBOOK_LEVELS)%nat;
          cbn [Book.ask_count_]; exact Ha.
      + unfold Book.update_ask.
        destruct (Nat.ltb_spec level Book.MAX_ORDERBOOK_LEVELS);
          cbn [Book.ask_count_]; [|exact Ha].
        destruct (Book.ask_count_ b <=? level)%nat; lia. }
  destruct (Hinv us Book.Orderbook_default) as ([Hlb Hla] & Hb & Ha).
  - split; reflexivity.
  - cbn. lia.
  - cbn. lia.
  - unfold Book.bid_depth, Book.ask_depth.
    split; [split; assumption|]. split; [exact Hb|]. split; [exact Ha|].
    split; intros i Hi; apply lookup_lt_is_Some; lia.
Qed.

(** [update_bid] and [update_ask] at a level below 25 store the price and
    the quantity at that level and keep its order count; they raise the
    depth of the side to [level + 1] if it was lower, and change no other
    level, not the other side, not the sequence number and not the
    timestamp. *)
Theorem update_level_in_range (b : Book.Orderbook) (level : nat)
    (p : PriceMicro) (qty : QuantityNano) :
  (level < Book.MAX_ORDERBOOK_LEVELS)%nat ->
  arrays_full b ->
  let b1 := Book.update_bid level p qty b in
  let b2 := Book.update_ask level p qty b in
  (Book.bid level b1
   = Book.mkPriceLevel p qty (Book.order_count (Book.bid level b))
                       (Book.padding (Book.bid level b)) /\
   (forall l, (l < Book.MAX_ORDERBOOK_LEVELS)%nat -> l <> level ->
              Book.bid l b1 = Book.bid l b) /\
   Book.asks_ b1 = Book.asks_ b /\
   Book.bid_depth b1 = Nat.max (Book.bid_depth b) (S level) /\
   Book.ask_depth b1 = Book.ask_depth b /\
   Book.sequence b1 = Book.sequence b /\
   Book.timestamp b1 = Book.timestamp b) /\
  (Book.ask level b2
   = Book.mkPriceLevel p qty (Book.order_count (Book.ask level b))
                       (Book.padding (Book.ask level b)) /\
   (forall l, (l < Book.MAX_ORDERBOOK_LEVELS)%nat -> l <> level ->
              Book.ask l b2 = Book.ask l b) /\
   Book.bids_ b2 = Book.bids_ b /\
   Book.ask_depth b2 = Nat.max (Book.ask_depth b) (S level) /\
   Book.bid_depth b2 = Book.bid_depth b /\
   Book.sequence b2 = Book.sequence b /\
   Book.timestamp b2 = Book.timestamp b).
Proof.
  intros Hlevel [Hlb Hla]. cbn zeta.
  unfold Book.update_bid, Book.update_ask.
  destruct (Nat.ltb_spec level Book.MAX_ORDERBOOK_LEVELS) as [_|Hge]; [|lia].
  unfold Book.bid, Book.ask, Book.bid_depth, Book.ask_depth, Book.sequence,
    Book.timestamp.
  cbn [Book.bids_ Book.asks_ Book.bid_count_ Book.ask_count_ Book.sequence_
       Book.timestamp_].
  unfold Book.MAX_ORDERBOOK_LEVELS in *.
  split; split_and!; try reflexivity.
  - rewrite level_at_set_level by lia.
    rewrite !Nat.min_l by lia. rewrite decide_True by reflexivity. reflexivity.
  - intros l Hl Hne. rewrite level_at_set_level by lia.
    rewrite !Nat.min_l by lia. rewrite decide_False by lia. reflexivity.
  - destruct (Nat.leb_spec (Book.bid_count_ b) level); lia.
  - rewrite level_at_set_level by lia.
    rewrite !Nat.min_l by lia. rewrite decide_True by reflexivity. reflexivity.
  - intros l Hl Hne. rewrite level_at_set_level by lia.
    rewrite !Nat.min_l by lia. rewrite decide_False by lia. reflexivity.
  - destruct (Nat.leb_spec (Book.ask_count_ b) level); lia.
Qed.

Lemma update_level_in_range_witness :
  Book.bid 7 (Book.update_bid 7 320000 1500000000 Book.Orderbook_default)
  = Book.mkPriceLevel 320000 1500000000 0 0 /\
  Book.bid_depth (Book.update_bid 7 320000 1500000000 Book.Orderbook_default)
  = 8%nat.
Proof.
  pose proof (update_level_in_range Book.Orderbook_default 7 320000 1500000000
                ltac:(unfold Book.MAX_ORDERBOOK_LEVELS; lia)
                ltac:(split; reflexivity)) as [(H1 & _ & _ & H2 & _) _].
  split; [exact H1|exact H2].
Defined.

(** [update_snapshot] keeps at most 25 levels of each side: the depths are
    the counts given, cut at 25; the levels below the new depth are the
    ones given, in order; the array's levels from the new depth on stay as
    they were; the sequence number and the timestamp are the ones given. *)
Theorem update_snapshot_stores (b : Book.Orderbook)
    (bids : list Book.PriceLevel) (bid_count : nat)
    (asks : list Book.PriceLevel) (ask_count : nat)
    (sq : Z) (ts : Timestamp) :
  arrays_full b ->
  (Nat.min bid_count Book.MAX_ORDERBOOK_LEVELS <= length bids)%nat ->
  (Nat.min ask_count Book.MAX_ORDERBOOK_LEVELS <= length asks)%nat ->
  let b' := Book.update_snapshot bids bid_count asks ask_count sq ts b in
  Book.bid_depth b' = Nat.min bid_count Book.MAX_ORDERBOOK_LEVELS /\
  Book.ask_depth b' = Nat.min ask_count Book.MAX_ORDERBOOK_LEVELS /\
  Book.sequence b' = sq /\ Book.timestamp b' = ts /\
  (forall i, (i < Book.bid_depth b')%nat ->
             Book.bid i b' = Book.level_at bids i) /\
  (forall i, (i < Book.ask_depth b')%nat ->
             Book.ask i b' = Book.level_at asks i) /\
  (forall i, (Book.bid_depth b' <= i < Book.MAX_ORDERBOOK_LEVELS)%nat ->
             Book.bid i b' = Book.bid i b) /\
  (forall i, (Book.ask_depth b' <= i < Book.MAX_ORDERBOOK_LEVELS)%nat ->
             Book.ask i b' = Book.ask i b) /\
  Book.best_bid b'
  = (if (0 <? bid_count)%nat then Book.price (Book.level_at bids 0) else 0) /\
  Book.best_ask b'
  = (if (0 <? ask_count)%nat then Book.price (Book.level_at asks 0) else 0).
Proof.
  intros [Hlb Hla] Hb Ha. cbn zeta.
  unfold Book.update_snapshot, Book.bid, Book.ask, Book.bid_depth,
    Book.ask_depth, Book.sequence, Book.timestamp, Book.best_bid, Book.best_ask.
  cbn [Book.bids_ Book.asks_ Book.bid_count_ Book.ask_count_ Book.sequence_
       Book.timestamp_].
  unfold Book.MAX_ORDERBOOK_LEVELS in *.
  split_and!; try reflexivity.
  - intros i Hi. rewrite level_at_copy_levels by exact Hb.
    rewrite (Nat.min_l i) by lia.
    destruct (Nat.ltb_spec i (Nat.min bid_count 25)); [reflexivity|lia].
  - intros i Hi. rewrite level_at_copy_levels by exact Ha.
    rewrite (Nat.min_l i) by lia.
    destruct (Nat.ltb_spec i (Nat.min ask_count 25)); [reflexivity|lia].
  - intros i Hi. rewrite level_at_copy_levels by exact Hb.
    rewrite (Nat.min_l i) by lia.
    destruct (Nat.ltb_spec i (Nat.min bid_count 25)); [lia|reflexivity].
  - intros i Hi. rewrite level_at_copy_levels by exact Ha.
    rewrite (Nat.min_l i) by lia.
    destruct (Nat.ltb_spec i (Nat.min ask_count 25)); [lia|reflexivity].
  - rewrite level_at_copy_levels by exact Hb.
    destruct (Nat.ltb_spec 0 bid_count);
      destruct (Nat.ltb_spec 0 (Nat.min bid_count 25)); try lia; reflexivity.
  - rewrite level_at_copy_levels by exact Ha.
    destruct (Nat.ltb_spec 0 ask_count);
      destruct (Nat.ltb_spec 0 (Nat.min ask_count 25)); try lia; reflexivity.
Qed.

Lemma update_snapshot_stores_witness :
  let asks := [Book.mkPriceLevel 10000000 5000000000 0 0;
               Book.mkPriceLevel 11000000 5000000000 0 0] in
  let b' := Book.update_snapshot [] 0 asks 2 7 99 Book.Orderbook_default in
  Book.ask_depth b' = 2%nat /\ Book.bid_depth b' = 0%nat /\
  Book.sequence b' = 7 /\ Book.best_ask b' = 10000000.
Proof.
  cbn zeta.
  destruct (update_snapshot_stores Book.Orderbook_default [] 0
              [Book.mkPriceLevel 10000000 5000000000 0 0;
               Book.mkPriceLevel 11000000 5000000000 0 0] 2 7 99)
    as (Hb & Ha & Hs & _ & _ & _ & _ & _ & _ & Hbest).
  - split; reflexivity.
  - cbn. lia.
  - cbn. lia.
  - split_and!; [exact Ha|exact Hb|exact Hs|exact Hbest].
Defined.

(** A book with one side empty has no separate mid price: the missing best
    price counts as 0, so [mid_price] is half the best price of the other
    side (rounded toward zero) and [spread] is that price, negated when the
    asks are the missing side. *)
Theorem mid_price_one_sided (b : Book.Orderbook) :
  (Book.ask_depth b = 0%nat -> in_int64 (Book.best_bid b) ->
   Book.best_ask b = 0 /\
   Book.mid_price b = Z.quot (Book.best_bid b) 2 /\
   (INT64_MIN < Book.best_bid b -> Book.spread b = - Book.best_bid b)) /\
  (Book.bid_depth b = 0%nat -> in_int64 (Book.best_ask b) ->
   Book.best_bid b = 0 /\
   Book.mid_price b = Z.quot (Book.best_ask b) 2 /\
   Book.spread b = Book.best_ask b).
Proof.
  unfold Book.ask_depth, Book.bid_depth, Book.mid_price, Book.spread.
  split; intros Hd Hin.
  - assert (Ha : Book.best_ask b = 0) by (unfold Book.best_ask; rewrite Hd; reflexivity).
    rewrite Ha. split; [reflexivity|]. split.
    + unfold add64. rewrite Z.add_0_r, wrap64_id by exact Hin.
      apply div64_quot; [exact Hin|lia].
    + intros Hmin. unfold sub64. apply wrap64_id.
      unfold in_int64, INT64_MIN, INT64_MAX in *. lia.
  - assert (Hb : Book.best_bid b = 0) by (unfold Book.best_bid; rewrite Hd; reflexivity).
    rewrite Hb. split; [reflexivity|]. split.
    + unfold add64. rewrite Z.add_0_l, wrap64_id by exact Hin.
      apply div64_quot; [exact Hin|lia].
    + unfold sub64. rewrite Z.sub_0_r. apply wrap64_id, Hin.
Qed.

Lemma mid_price_one_sided_witness :
  let b := Book.update_bid 0 320000 1500000000 Book.Orderbook_default in
  Book.best_bid b = 320000 /\ Book.mid_price b = 160000 /\
  Book.spread b = -320000.
Proof.
  cbn zeta.
  destruct (proj1 (mid_price_one_sided
                     (Book.update_bid 0 320000 1500000000 Book.Orderbook_default)))
    as (_ & Hmid & Hspread).
  - reflexivity.
  - vm_compute. split; discriminate.
  - split; [reflexivity|]. split; [exact Hmid|].
    apply Hspread. vm_compute. reflexivity.
Defined.

(** A book with both depths 0 answers every query with zero, whatever its
    arrays hold: best prices and sizes, mid price and spread are 0, the
    liquidity of both sides is 0, [estimate_execution_price] is 0 for every
    side and quantity, and [spread_percent], [imbalance] and
    [estimate_slippage] are 0.0. *)
Theorem empty_book_observers (b : Book.Orderbook) (s : Side)
    (qty : QuantityNano) (levels : nat) :
  Book.bid_depth b = 0%nat -> Book.ask_depth b = 0%nat ->
  Book.best_bid b = 0 /\ Book.best_ask b = 0 /\
  Book.best_bid_size b = 0 /\ Book.best_ask_size b = 0 /\
  Book.mid_price b = 0 /\ Book.spread b = 0 /\
  Book.total_bid_liquidity levels b = 0 /\
  Book.total_ask_liquidity levels b = 0 /\
  Book.estimate_execution_price s qty b = 0 /\
  Book.spread_percent b = d_zero /\
  Book.imbalance levels b = d_zero /\
  Book.estimate_slippage s qty b = d_zero.
Proof.
  unfold Book.bid_depth, Book.ask_depth. intros Hb Ha.
  assert (Hbb : Book.best_bid b = 0) by (unfold Book.best_bid; rewrite Hb; reflexivity).
  assert (Hba : Book.best_ask b = 0) by (unfold Book.best_ask; rewrite Ha; reflexivity).
  assert (Hmid : Book.mid_price b = 0)
    by (unfold Book.mid_price; rewrite Hbb, Hba; reflexivity).
  assert (Hlb : Book.total_bid_liquidity levels b = 0)
    by (unfold Book.total_bid_liquidity; rewrite Hb, Nat.min_0_r; reflexivity).
  assert (Hla : Book.total_ask_liquidity levels b = 0)
    by (unfold Book.total_ask_liquidity; rewrite Ha, Nat.min_0_r; reflexivity).
  assert (Hest : Book.estimate_execution_price s qty b = 0).
  { unfold Book.estimate_execution_price. destruct s; rewrite ?Ha, ?Hb; reflexivity. }
  split_and!; try assumption.
  - unfold Book.best_bid_size. rewrite Hb. reflexivity.
  - unfold Book.best_ask_size. rewrite Ha. reflexivity.
  - unfold Book.spread. rewrite Hbb, Hba. reflexivity.
  - unfold Book.spread_percent. rewrite Hmid. reflexivity.
  - unfold Book.imbalance. rewrite Hlb, Hla. reflexivity.
  - unfold Book.estimate_slippage. destruct s; rewrite ?Hba, ?Hbb; reflexivity.
Qed.

Lemma empty_book_observers_witness :
  Book.estimate_execution_price BUY 8000000000 Book.Orderbook_default = 0 /\
  Book.estimate_slippage BUY 8000000000 Book.Orderbook_default = d_zero /\
  Book.spread_percent Book.Orderbook_default = d_zero.
Proof.
  destruct (empty_book_observers Book.Orderbook_default BUY 8000000000 5)
    as (_ & _ & _ & _ & _ & _ & _ & _ & He & Hp & _ & Hs);
    [reflexivity|reflexivity|].
  split_and!; assumption.
Defined.

End BookUpdates.

(* --------------------------------------------------------------------- *)
(** ** SPSCQueue: size, empty and peek *)
(* --------------------------------------------------------------------- *)

Section QueueObservers.
Import QueueSpec.
Context {T : Type}.
Variable k : nat.
Hypothesis k_size_t : (k < 64)%nat.

Local Abbreviation Capacity := (2 ^ Z.of_nat k).

Lemma represents_empty (q : SPSC.SPSCQueue T) (l : list T) :
  represents Capacity q l -> (SPSC.empty q = true <-> l = []).
Proof using k_size_t.
  intros (_ & Hh & Ht & Hlen & _). unfold SPSC.empty.
  rewrite (ring_distance k) in Hlen by assumption.
  rewrite Z.eqb_eq. split.
  - intros E. rewrite E, Z.leb_refl, Z.sub_diag in Hlen.
    destruct l; [reflexivity|discriminate Hlen].
  - intros ->. cbn [length] in Hlen.
    destruct (Z.leb_spec (SPSC.tail_ q) (SPSC.head_ q)); lia.
Qed.

Lemma represents_peek (q : SPSC.SPSCQueue T) (l : list T) :
  represents Capacity q l -> SPSC.peek q = head l.
Proof using k_size_t.
  intros Hrep. pose proof (represents_empty q l Hrep) as Hempty.
  destruct Hrep as (_ & Hh & Ht & Hlen & Hel).
  unfold SPSC.peek, SPSC.empty in *. rewrite (Z.eqb_sym (SPSC.tail_ q)).
  destruct (SPSC.head_ q =? SPSC.tail_ q).
  - rewrite (proj1 Hempty eq_refl). reflexivity.
  - destruct l as [|x l]; [destruct Hempty as [_ E]; discriminate (E eq_refl)|].
    specialize (Hel 0%nat x eq_refl).
    rewrite Z.add_0_r, Z.mod_small in Hel by lia. exact Hel.
Qed.

End QueueObservers.

(** On a queue of capacity [2 ^ k] used by one producer and one consumer,
    after any sequence of pushes and pops: [size] is the number of elements
    pushed and not yet popped, at most [capacity()]; [empty] holds exactly
    when there is none; [peek] returns the oldest of them, the element the
    next [pop] returns, or nothing when there is none. *)
Theorem spsc_observers {T : Type} (k : nat) (d : T) (ops : list (QueueSpec.op T)) :
  (k < 64)%nat ->
  let q := snd (QueueSpec.run (2 ^ Z.of_nat k) ops
                  (SPSC.SPSCQueue_new (2 ^ Z.of_nat k) d)) in
  let l := snd (QueueSpec.fifo_run (Z.to_nat (2 ^ Z.of_nat k - 1)) ops []) in
  SPSC.size (2 ^ Z.of_nat k) q = Z.of_nat (length l) /\
  0 <= SPSC.size (2 ^ Z.of_nat k) q <= SPSC.capacity (2 ^ Z.of_nat k) /\
  (SPSC.empty q = true <-> l = []) /\
  SPSC.peek q = head l /\
  fst (SPSC.pop (2 ^ Z.of_nat k) q) = SPSC.peek q.
Proof.
  intros Hk. cbn zeta.
  destruct (run_refines k Hk ops (SPSC.SPSCQueue_new (2 ^ Z.of_nat k) d) []
              (represents_new k Hk d)) as [_ Hrep].
  unfold SPSC.capacity in *.
  rewrite (represents_size k Hk _ _ Hrep).
  split; [reflexivity|]. split.
  - destruct Hrep as (_ & _ & _ & Hlen & _).
    pose proof (Z.mod_pos_bound
                  (SPSC.head_ (snd (QueueSpec.run (2 ^ Z.of_nat k) ops
                                      (SPSC.SPSCQueue_new (2 ^ Z.of_nat k) d)))
                   - SPSC.tail_ (snd (QueueSpec.run (2 ^ Z.of_nat k) ops
                                        (SPSC.SPSCQueue_new (2 ^ Z.of_nat k) d))))
                  (2 ^ Z.of_nat k) ltac:(apply Z.pow_pos_nonneg; lia)).
    lia.
  - split; [exact (represents_empty k Hk _ _ Hrep)|].
    split; [exact (represents_peek k Hk _ _ Hrep)|].
    unfold SPSC.pop, SPSC.peek. destruct (_ =? _); reflexivity.
Qed.

Lemma spsc_observers_witness :
  let q := snd (QueueSpec.run (2 ^ Z.of_nat 2)
                  [QueueSpec.Push 10; QueueSpec.Push 20; QueueSpec.Pop]
                  (SPSC.SPSCQueue_new (2 ^ Z.of_nat 2) 0)) in
  SPSC.size (2 ^ Z.of_nat 2) q = 1 /\ SPSC.peek q = Some 20.
Proof.
  cbn zeta.
  destruct (spsc_observers 2 0 [QueueSpec.Push 10; QueueSpec.Push 20; QueueSpec.Pop])
    as (Hsize & _ & _ & Hpeek & _); [lia|].
  split; [exact Hsize|exact Hpeek].
Defined.

(* --------------------------------------------------------------------- *)
(** ** MPSCQueue: when push and pop come back empty-handed *)
(* --------------------------------------------------------------------- *)

Section MPSCCalls.
Import MPSC MPSCSpec.
Context {T : Type}.
Variable k : nat.
Hypothesis k_min : (1 <= k)%nat.
Hypothesis k_max : (k <= 62)%nat.
Local Abbreviation Capacity := (2 ^ Z.of_nat k).

Lemma history_grows_by (h : list (event T)) (es es' : list (event T)) :
  h ++ es = h ++ es' -> es = es'.
Proof. apply app_inv_head. Qed.

Lemma history_unchanged (h : list (event T)) (e : event T) : h <> h ++ [e].
Proof.
  intros E. apply (f_equal length) in E. rewrite length_app in E. cbn in E. lia.
Qed.


(** A [pop] that finds nothing: the queue is empty, or the producer that
    claimed the oldest position has not published it yet. *)
Lemma pop_nothing_when_unpublished (s s' : system T) :
  invariant Capacity s -> within_bound s ->
  step Capacity ConsumerStep s = Some s' ->
  history s' = history s ++ [Popped None] ->
  empty (queue s) = true \/
  exists tid v, in_flight (producers s !! tid) v (tail_ (queue s)).
Proof.
  intros Hinv Hb Hstep Hhist. cbn [step] in Hstep. unfold consumer_step in Hstep.
  pose proof (capacity_range k k_min k_max) as Hcap.
  pose proof (head_bound k k_min k_max _ Hinv Hb) as Hhd.
  pose proof (tail_nonneg k k_min k_max _ Hinv) as Htl.
  pose proof (inv_room _ _ Hinv) as Hroom.
  destruct (the_consumer s) as [| | |v] eqn:Hc; try discriminate.
  - destruct (slot_at Capacity (queue s) (tail_ (queue s))) as [sl|] eqn:Hsl;
      [|discriminate].
    assert (Hw : wrapU64 (tail_ (queue s) + 1) = tail_ (queue s) + 1)
      by (unfold wrapU64; apply Z.mod_small; lia).
    rewrite Hw in Hstep.
    destruct (Z_lt_le_dec (tail_ (queue s)) (head_ (queue s))) as [Hlive|Hfree].
    + destruct (inv_live _ _ Hinv (tail_ (queue s)) ltac:(lia))
        as (v & _ & [Hpub|(d & t & Hs & Hown)]).
      * rewrite Hsl in Hpub. inversion Hpub as [Es]. rewrite Es in Hstep.
        cbn [sequence] in Hstep. rewrite Z.sub_diag in Hstep.
        change (wrap64 0 =? 0) with true in Hstep. cbn iota in Hstep.
        inversion Hstep; subst s'. cbn in Hhist.
        destruct (history_unchanged _ _ Hhist).
      * right. exists t, v. eapply owns_in_flight, Hown.
    + left. unfold empty. apply Z.eqb_eq. lia.
  - destruct (slot_at Capacity (queue s) (tail_ (queue s))); [|discriminate].
    inversion Hstep; subst s'. cbn in Hhist.
    destruct (history_unchanged _ _ Hhist).
  - inversion Hstep; subst s'. cbn in Hhist.
    apply history_grows_by in Hhist. discriminate Hhist.
Qed.

(** On an empty queue, [pop] run alone finds nothing. *)
Lemma pop_on_empty (s : system T) :
  invariant Capacity s -> within_bound s ->
  the_consumer s = CIdle -> empty (queue s) = true ->
  exists s', run Capacity pop_to_load s = Some s' /\
             history s' = history s ++ [Popped None].
Proof.
  intros Hinv Hb Hc Hempty. unfold empty in Hempty. apply Z.eqb_eq in Hempty.
  pose proof (capacity_range k k_min k_max) as Hcap.
  pose proof (head_bound k k_min k_max _ Hinv Hb) as Hhd.
  destruct (inv_free _ _ Hinv (tail_ (queue s)) ltac:(lia)) as [d Hd].
  assert (Hw : wrapU64 (tail_ (queue s) + 1) = tail_ (queue s) + 1)
    by (unfold wrapU64; apply Z.mod_small; lia).
  exists (mkSystem (queue s) (producers s) CIdle (history s ++ [Popped None])).
  split; [|reflexivity].
  unfold pop_to_load. cbn [run step]. rewrite Hc.
  unfold consumer_step. cbn [the_consumer queue producers history].
  rewrite Hd, Hw. cbn [sequence].
  replace (tail_ (queue s) - (tail_ (queue s) + 1)) with (-1) by lia.
  reflexivity.
Qed.



End MPSCCalls.





(** [pop] returns nothing only when nothing is ready: in every interleaving
    on a queue of capacity [2 ^ k] from 2 up, the step at which [pop]
    returns empty-handed finds the queue empty ([empty()] holds) or the
    oldest claimed position still being written by its producer; and on an
    empty queue [pop] does return empty-handed. *)
Theorem mpsc_pop_nothing {T : Type} (k : nat) (d : T)
    (n_producers : nat) (sched : list (MPSC.action T)) (s : MPSC.system T) :
  (1 <= k)%nat -> (k <= 62)%nat ->
  MPSC.run (2 ^ Z.of_nat k) sched (MPSC.initial (2 ^ Z.of_nat k) d n_producers)
  = Some s ->
  MPSCSpec.within_bound s ->
  (forall s',
     MPSC.step (2 ^ Z.of_nat k) MPSC.ConsumerStep s = Some s' ->
     MPSC.history s' = MPSC.history s ++ [MPSC.Popped None] ->
     MPSC.empty (MPSC.queue s) = true \/
     exists tid v,
       MPSCSpec.in_flight (MPSC.producers s !! tid) v (MPSC.tail_ (MPSC.queue s))) /\
  (MPSC.the_consumer s = MPSC.CIdle ->
   MPSC.empty (MPSC.queue s) = true ->
   exists s',
     MPSC.run (2 ^ Z.of_nat k) MPSCSpec.pop_to_load s = Some s' /\
     MPSC.history s' = MPSC.history s ++ [MPSC.Popped None]).
Proof.
  intros Hmin Hmax Hrun Hb.
  assert (Hinv : MPSCSpec.invariant (2 ^ Z.of_nat k) s)
    by (eapply run_invariant; eauto using initial_invariant).
  split.
  - intros s'. apply pop_nothing_when_unpublished; auto.
  - apply pop_on_empty; auto.
Qed.

Lemma mpsc_pop_nothing_witness :
  exists s',
    MPSC.run (2 ^ Z.of_nat 1) MPSCSpec.pop_to_load (MPSC.initial (2 ^ Z.of_nat 1) 0 1)
    = Some s' /\
    MPSC.history s'
    = MPSC.history (MPSC.initial (2 ^ Z.of_nat 1) 0 1) ++ [MPSC.Popped None].
Proof.
  refine (proj2 (mpsc_pop_nothing 1 0 1 [] (MPSC.initial (2 ^ Z.of_nat 1) 0 1)
                   _ _ _ _) _ _).
  - lia.
  - lia.
  - reflexivity.
  - vm_compute. reflexivity.
  - reflexivity.
  - reflexivity.
Defined.

(* --------------------------------------------------------------------- *)
(** ** ObjectPool: the objects handed out *)
(* --------------------------------------------------------------------- *)

Section PoolObjects.
Import PoolSpec.
Context {T : Type}.
Variable T_default : T.
Variable PoolSize : nat.
Hypothesis PoolSize_pos : (0 < PoolSize)%nat.
Hypothesis PoolSize_size_t : Z.of_nat PoolSize < 2 ^ 64.

Lemma pool_load_set_storage (fl : option nat) (al : Z) (nodes : list (Pool.Node T))
    (n m : nat) (v : T) :
  Pool.load T_default (Pool.mkPool fl al (Pool.set_storage nodes n v)) m
  = if decide (m = n)
    then match nodes !! n with Some _ => v | None => T_default end
    else Pool.load T_default (Pool.mkPool fl al nodes) m.
Proof.
  unfold Pool.load, Pool.set_storage; cbn [Pool.nodes_].
  destruct (nodes !! n) as [nd|] eqn:Hn.
  - destruct (decide (m = n)) as [->|Hne].
    + rewrite list_lookup_insert_eq by (eapply lookup_lt_Some; eauto).
      reflexivity.
    + rewrite list_lookup_insert_ne by congruence. reflexivity.
  - destruct (decide (m = n)) as [->|Hne]; [rewrite Hn|]; reflexivity.
Qed.

Lemma pool_load_set_next (fl : option nat) (al : Z) (nodes : list (Pool.Node T))
    (n m : nat) (nx : option nat) :
  Pool.load T_default (Pool.mkPool fl al (Pool.set_next nodes n nx)) m
  = Pool.load T_default (Pool.mkPool fl al nodes) m.
Proof.
  unfold Pool.load, Pool.set_next; cbn [Pool.nodes_].
  destruct (nodes !! n) as [nd|] eqn:Hn; [|reflexivity].
  destruct (decide (m = n)) as [->|Hne].
  - rewrite list_lookup_insert_eq by (eapply lookup_lt_Some; eauto).
    rewrite Hn. reflexivity.
  - rewrite list_lookup_insert_ne by congruence. reflexivity.
Qed.

(** [deallocate] leaves the contents of every slot as they are. *)
Lemma load_deallocate (p : Pool.ObjectPool T) (ptr : option nat) (m : nat) :
  Pool.load T_default (Pool.deallocate ptr p) m = Pool.load T_default p m.
Proof.
  destruct ptr as [n|]; [|reflexivity].
  unfold Pool.deallocate, Pool.push_free. cbn [Pool.free_list_ Pool.nodes_ Pool.allocated_].
  rewrite pool_load_set_next. reflexivity.
Qed.

(** What [allocate] does to the contents: the object handed out is reset,
    the others are as they were. *)
Lemma load_allocate (p p' : Pool.ObjectPool T) (ptr m : nat) :
  Pool.allocate T_default p = (Some ptr, p') ->
  (ptr < length (Pool.nodes_ p))%nat ->
  Pool.load T_default p' m
  = if decide (m = ptr) then T_default else Pool.load T_default p m.
Proof.
  unfold Pool.allocate, Pool.pop_free. intros Halloc Hlt.
  destruct (Pool.free_list_ p) as [head|]; [|discriminate].
  inversion Halloc; subst. cbn [Pool.nodes_ Pool.free_list_ Pool.allocated_].
  rewrite pool_load_set_storage.
  destruct (decide (m = ptr)) as [->|Hne]; [|reflexivity].
  destruct (lookup_lt_is_Some_2 _ _ Hlt) as [nd ->]. reflexivity.
Qed.

(** A write changes the object written and no other. *)
Lemma load_store_slot (p : Pool.ObjectPool T) (ptr m : nat) (v : T) :
  (ptr < length (Pool.nodes_ p))%nat ->
  Pool.load T_default (Pool.store ptr v p) m
  = if decide (m = ptr) then v else Pool.load T_default p m.
Proof.
  intros Hlt. unfold Pool.store. rewrite pool_load_set_storage.
  destruct (decide (m = ptr)) as [->|Hne]; [|destruct p; reflexivity].
  destruct (lookup_lt_is_Some_2 _ _ Hlt) as [nd ->]. reflexivity.
Qed.

(** Writing to an object leaves the free list and the count alone. *)
Lemma store_inv (c : client) (ptr : nat) (v : T) :
  pool_inv PoolSize c -> pool_inv PoolSize (Pool.store ptr v (fst c), snd c).
Proof.
  intros (free & Hchain & Hnd & Hdisj & Hfree & Hlive & Hcount & Hlen & Hal).
  exists free. cbn [fst snd] in *. unfold Pool.store.
  cbn [Pool.free_list_ Pool.nodes_ Pool.allocated_].
  split_and!; try assumption.
  - eapply chain_ext; [|exact Hchain].
    intros m _. apply node_next_set_storage.
  - rewrite length_set_storage. exact Hlen.
Qed.

Lemma use_step_inv (o : PoolUse.op T) (c : client) :
  pool_inv PoolSize c ->
  forall r c', PoolUse.step T_default o c = Some (r, c') -> pool_inv PoolSize c'.
Proof.
  intros Hinv r c' Hstep. destruct o as [|ptr v|ptr]; cbn [PoolUse.step] in Hstep.
  - eapply (step_inv T_default PoolSize PoolSize_pos PoolSize_size_t); eauto.
  - destruct (decide (ptr ∈ snd c)); [|discriminate].
    inversion Hstep; subst. apply store_inv, Hinv.
  - eapply (step_inv T_default PoolSize PoolSize_pos PoolSize_size_t); eauto.
Qed.

Lemma use_run_inv (ops : list (PoolUse.op T)) :
  forall c, pool_inv PoolSize c ->
  forall rs c', PoolUse.run T_default ops c = Some (rs, c') ->
                pool_inv PoolSize c'.
Proof.
  induction ops as [|o ops IH]; intros c Hinv rs c' Hrun; cbn [PoolUse.run] in Hrun.
  - inversion Hrun; subst. exact Hinv.
  - destruct (PoolUse.step T_default o c) as [[r c1]|] eqn:Hs; [|discriminate].
    destruct (PoolUse.run T_default ops c1) as [[rs1 c2]|] eqn:Hr; [|discriminate].
    inversion Hrun; subst.
    eapply IH; [|exact Hr]. eapply use_step_inv; eauto.
Qed.

(** What every use of a new pool keeps. *)
Lemma use_reachable_inv (ops : list (PoolUse.op T)) (rs : list (option nat))
    (c : client) :
  PoolUse.run T_default ops (fresh T_default PoolSize) = Some (rs, c) ->
  pool_inv PoolSize c.
Proof.
  intros Hrun. eapply use_run_inv; [|exact Hrun].
  apply inv_fresh, PoolSize_pos.
Qed.

End PoolObjects.

(** After any sequence of allocations, writes to objects held and returns
    of objects: the pointer [allocate] returns is a slot of the pool that
    the client does not hold (no object is handed out twice), the object
    there is freshly constructed whatever was written to that slot before,
    and every other object keeps its contents. [deallocate] changes the
    contents of no other object, and a write to an object held changes
    that object and no other. *)
Theorem pool_allocate_fresh {T : Type} (T_default : T) (PoolSize : nat)
    (ops : list (PoolUse.op T)) (rs : list (option nat))
    (c : @PoolSpec.client T) :
  (0 < PoolSize)%nat -> Z.of_nat PoolSize < 2 ^ 64 ->
  PoolUse.run T_default ops (PoolSpec.fresh T_default PoolSize) = Some (rs, c) ->
  (forall ptr p',
     Pool.allocate T_default (fst c) = (Some ptr, p') ->
     (ptr ∉ snd c) /\ (ptr < PoolSize)%nat /\
     Pool.load T_default p' ptr = T_default /\
     forall other, other <> ptr ->
       Pool.load T_default p' other = Pool.load T_default (fst c) other) /\
  (forall ptr other, other <> ptr ->
     Pool.load T_default (Pool.deallocate (Some ptr) (fst c)) other
     = Pool.load T_default (fst c) other) /\
  (forall ptr v other, ptr ∈ snd c ->
     Pool.load T_default (Pool.store ptr v (fst c)) other
     = if decide (other = ptr) then v else Pool.load T_default (fst c) other).
Proof.
  intros Hpos Hsize Hrun.
  pose proof (use_reachable_inv T_default PoolSize Hpos Hsize ops rs c Hrun)
    as Hinv.
  split; [|split].
  - intros ptr p' Halloc.
    pose proof (allocate_inv T_default PoolSize Hpos Hsize c Hinv) as Ha.
    rewrite Halloc in Ha. destruct Ha as (_ & Hfresh & Hinv').
    destruct Hinv' as (free & _ & _ & _ & _ & Hlive & _ & _ & _).
    destruct Hinv as (_ & _ & _ & _ & _ & _ & _ & Hlen & _).
    cbn [fst snd] in *.
    assert (Hlt : (ptr < PoolSize)%nat)
      by (apply Hlive, elem_of_union_l, elem_of_singleton_2; reflexivity).
    split; [exact Hfresh|]. split; [exact Hlt|]. split.
    + rewrite (load_allocate T_default _ _ _ _ Halloc) by lia.
      rewrite decide_True by reflexivity. reflexivity.
    + intros other Hne.
      rewrite (load_allocate T_default _ _ _ _ Halloc) by lia.
      rewrite decide_False by exact Hne. reflexivity.
  - intros ptr other _. apply load_deallocate.
  - intros ptr v other Hin.
    destruct Hinv as (_ & _ & _ & _ & _ & Hlive & _ & Hlen & _).
    apply load_store_slot. rewrite Hlen. apply Hlive, Hin.
Qed.

Lemma pool_allocate_fresh_witness :
  let c := default (PoolSpec.fresh 0 3)
             (snd <$> PoolUse.run 0
                        [PoolUse.Alloc; PoolUse.Write 0 77; PoolUse.Alloc;
                         PoolUse.Write 1 88; PoolUse.Dealloc 0]
                        (PoolSpec.fresh 0 3)) in
  let r := Pool.allocate 0 (fst c) in
  (* slot 0 was written to and given back; slot 1 is held *)
  Pool.load 0 (fst c) 0 = 77 /\ Pool.load 0 (fst c) 1 = 88 /\
  fst r = Some 0%nat /\ (0%nat ∉ snd c) /\
  Pool.load 0 (snd r) 0 = 0 /\ Pool.load 0 (snd r) 1 = 88.
Proof.
  intros c r.
  assert (Hrun : PoolUse.run 0
                   [PoolUse.Alloc; PoolUse.Write 0 77; PoolUse.Alloc;
                    PoolUse.Write 1 88; PoolUse.Dealloc 0]
                   (PoolSpec.fresh 0 3)
                 = Some ([Some 0%nat; None; Some 1%nat; None; None], c))
    by (vm_compute; reflexivity).
  assert (Hr : Pool.allocate 0 (fst c) = (Some 0%nat, snd r))
    by (vm_compute; reflexivity).
  assert (H0 : Pool.load 0 (fst c) 0 = 77) by (vm_compute; reflexivity).
  assert (H1 : Pool.load 0 (fst c) 1 = 88) by (vm_compute; reflexivity).
  destruct (proj1 (pool_allocate_fresh 0 3 _ _ c ltac:(lia) ltac:(lia) Hrun)
              0%nat (snd r) Hr) as (Hnot & _ & Hload & Hother).
  split; [exact H0|]. split; [exact H1|].
  split; [exact (f_equal fst Hr)|]. split; [exact Hnot|].
  split; [exact Hload|].
  rewrite (Hother 1%nat ltac:(discriminate)). exact H1.
Defined.

(** After any sequence of allocations, writes to objects held and returns
    of objects, giving back an object held and allocating again returns
    the same pointer: the pool reuses the slot freed last. The free list
    and the count are then what they were before the two calls, the object
    is freshly constructed whatever it held, and every other object keeps
    its contents. *)
Theorem pool_reuses_last_freed {T : Type} (T_default : T) (PoolSize : nat)
    (ops : list (PoolUse.op T)) (rs : list (option nat))
    (c : @PoolSpec.client T) (x : nat) :
  (0 < PoolSize)%nat -> Z.of_nat PoolSize < 2 ^ 64 ->
  PoolUse.run T_default ops (PoolSpec.fresh T_default PoolSize) = Some (rs, c) ->
  x ∈ snd c ->
  exists p2,
    Pool.allocate T_default (Pool.deallocate (Some x) (fst c)) = (Some x, p2) /\
    Pool.free_list_ p2 = Pool.free_list_ (fst c) /\
    Pool.allocated p2 = Pool.allocated (fst c) /\
    Pool.load T_default p2 x = T_default /\
    forall other, other <> x ->
      Pool.load T_default p2 other = Pool.load T_default (fst c) other.
Proof.
  intros Hpos Hsize Hrun Hx.
  pose proof (use_reachable_inv T_default PoolSize Hpos Hsize ops rs c Hrun)
    as Hinv.
  destruct Hinv as (free & _ & _ & _ & _ & Hlive & Hcount & Hlen & Hal).
  assert (Hlt : (x < length (Pool.nodes_ (fst c)))%nat)
    by (rewrite Hlen; apply Hlive, Hx).
  assert (Hone : (1 <= size (snd c))%nat).
  { destruct (decide (size (snd c) = 0%nat)) as [E|]; [|lia].
    apply size_empty_inv in E. apply E in Hx. apply elem_of_empty in Hx.
    destruct Hx. }
  destruct (Pool.allocate T_default (Pool.deallocate (Some x) (fst c)))
    as [r p2] eqn:Halloc.
  assert (Hr : r = Some x).
  { unfold Pool.allocate, Pool.pop_free, Pool.deallocate, Pool.push_free in Halloc.
    cbn [Pool.free_list_] in Halloc. inversion Halloc. reflexivity. }
  subst r. exists p2. split; [reflexivity|].
  assert (Hlt' : (x < length (Pool.nodes_ (Pool.deallocate (Some x) (fst c))))%nat).
  { unfold Pool.deallocate, Pool.push_free. cbn [Pool.nodes_].
    rewrite length_set_next. exact Hlt. }
  split; [|split; [|split]].
  - unfold Pool.allocate, Pool.pop_free in Halloc.
    assert (Hfl : Pool.free_list_ (Pool.deallocate (Some x) (fst c)) = Some x)
      by reflexivity.
    rewrite Hfl in Halloc. inversion Halloc. cbn [Pool.free_list_].
    pose proof (node_next_deallocate (fst c) x x Hlt) as Hnext.
    rewrite decide_True in Hnext by reflexivity. exact Hnext.
  - unfold Pool.allocate, Pool.pop_free, Pool.deallocate, Pool.push_free in Halloc.
    cbn [Pool.free_list_ Pool.allocated_] in Halloc. inversion Halloc.
    unfold Pool.allocated. cbn [Pool.allocated_].
    rewrite Hal. unfold wrapU64.
    rewrite (Z.mod_small (Z.of_nat (size (snd c)) - 1)) by lia.
    rewrite Z.mod_small by lia. lia.
  - rewrite (load_allocate T_default _ _ _ _ Halloc) by exact Hlt'.
    rewrite decide_True by reflexivity. reflexivity.
  - intros other Hne.
    rewrite (load_allocate T_default _ _ _ _ Halloc) by exact Hlt'.
    rewrite decide_False by exact Hne. apply load_deallocate.
Qed.

Lemma pool_reuses_last_freed_witness :
  let c := default (PoolSpec.fresh 0 3)
             (snd <$> PoolUse.run 0
                        [PoolUse.Alloc; PoolUse.Write 0 77; PoolUse.Alloc;
                         PoolUse.Write 1 88]
                        (PoolSpec.fresh 0 3)) in
  let r := Pool.allocate 0 (Pool.deallocate (Some 0%nat) (fst c)) in
  (* both objects are held and written to *)
  Pool.load 0 (fst c) 0 = 77 /\ Pool.load 0 (fst c) 1 = 88 /\
  fst r = Some 0%nat /\
  Pool.free_list_ (snd r) = Pool.free_list_ (fst c) /\
  Pool.allocated (snd r) = Pool.allocated (fst c) /\
  Pool.load 0 (snd r) 0 = 0 /\ Pool.load 0 (snd r) 1 = 88.
Proof.
  intros c r.
  assert (Hrun : PoolUse.run 0
                   [PoolUse.Alloc; PoolUse.Write 0 77; PoolUse.Alloc;
                    PoolUse.Write 1 88]
                   (PoolSpec.fresh 0 3)
                 = Some ([Some 0%nat; None; Some 1%nat; None], c))
    by (vm_compute; reflexivity).
  assert (Hx : 0%nat ∈ snd c) by (vm_compute; reflexivity).
  assert (H0 : Pool.load 0 (fst c) 0 = 77) by (vm_compute; reflexivity).
  assert (H1 : Pool.load 0 (fst c) 1 = 88) by (vm_compute; reflexivity).
  destruct (pool_reuses_last_freed 0 3 _ _ c 0%nat ltac:(lia) ltac:(lia) Hrun Hx)
    as (p2 & Hal & Hfl & Hcnt & Hload & Hother).
  assert (Hp2 : snd r = p2) by (subst r; rewrite Hal; reflexivity).
  rewrite Hp2.
  split; [exact H0|]. split; [exact H1|].
  split; [subst r; rewrite Hal; reflexivity|].
  split; [exact Hfl|]. split; [exact Hcnt|]. split; [exact Hload|].
  rewrite (Hother 1%nat ltac:(discriminate)). exact H1.
Defined.

(* --------------------------------------------------------------------- *)
(** ** Arena: aligned blocks that do not overlap *)
(* --------------------------------------------------------------------- *)

Section ArenaProofs.
Import ArenaSpec.
Variable Size : Z.
Hypothesis Size_range : 0 <= Size < 2 ^ 62.

(** [(x + a - 1) & ~(a - 1)] rounds [x] up to a multiple of [a = 2 ^ j]. *)
Lemma align_up (x : Z) (j : nat) :
  0 <= x < 2 ^ 62 -> (j <= 61)%nat ->
  Z.land (wrapU64 (x + 2 ^ Z.of_nat j - 1))
         (wrapU64 (Z.lnot (2 ^ Z.of_nat j - 1)))
  = (x + 2 ^ Z.of_nat j - 1) / 2 ^ Z.of_nat j * 2 ^ Z.of_nat j.
Proof.
  intros Hx Hj.
  assert (Ha : 1 <= 2 ^ Z.of_nat j <= 2 ^ 61).
  { split; [pose proof (Z.pow_pos_nonneg 2 (Z.of_nat j)); lia|].
    apply Z.pow_le_mono_r; lia. }
  set (y := x + 2 ^ Z.of_nat j - 1) in *.
  assert (Hy : 0 <= y < 2 ^ 64) by (unfold y; lia).
  unfold wrapU64. rewrite (Z.mod_small y) by exact Hy.
  replace (2 ^ Z.of_nat j - 1) with (Z.ones (Z.of_nat j))
    by (rewrite Z.ones_equiv; lia).
  rewrite <- (Z.land_ones (Z.lnot _) 64) by lia.
  rewrite Z.land_comm, <- Z.land_assoc, (Z.land_comm (Z.ones 64)).
  rewrite (Z.land_ones y 64) by lia. rewrite (Z.mod_small y) by exact Hy.
  rewrite Z.land_comm, <- Z.ldiff_land.
  rewrite Z.ldiff_ones_r by lia.
  rewrite Z.shiftr_div_pow2, Z.shiftl_mul_pow2 by lia. reflexivity.
Qed.

Lemma round_up_bounds (x a : Z) :
  0 < a ->
  let r := (x + a - 1) / a * a in
  x <= r < x + a /\ r mod a = 0.
Proof.
  intros Ha r. unfold r.
  pose proof (Z.div_mod (x + a - 1) a ltac:(lia)) as Hdm.
  pose proof (Z.mod_pos_bound (x + a - 1) a Ha) as Hm.
  split; [nia|]. apply Z.mod_mul. lia.
Qed.


(** The outcome of [allocate] for a request that does not wrap around. *)
Lemma allocate_outcome (a : Arena.Arena) (j : nat) (size_of count : Z) :
  0 <= Arena.offset_ a <= Size ->
  request_ok (Alloc j size_of count) ->
  let alignment := 2 ^ Z.of_nat j in
  let aligned := (Arena.offset_ a + alignment - 1) / alignment * alignment in
  Arena.allocate Size alignment size_of count a
  = if Size <? aligned + size_of * count then (None, a)
    else (Some aligned, Arena.mkArena (aligned + size_of * count)).
Proof using Size_range.
  intros Hoff (Hj & Hs & Hc & Hfit). cbn zeta.
  assert (Ha : 1 <= 2 ^ Z.of_nat j <= 2 ^ 61).
  { split; [pose proof (Z.pow_pos_nonneg 2 (Z.of_nat j)); lia|].
    apply Z.pow_le_mono_r; lia. }
  unfold Arena.allocate.
  rewrite align_up by lia.
  pose proof (round_up_bounds (Arena.offset_ a) (2 ^ Z.of_nat j) ltac:(lia))
    as [Hr _]. cbn zeta in Hr.
  assert (Hsz : 0 <= size_of * count) by nia.
  unfold wrapU64. rewrite (Z.mod_small (size_of * count)) by lia.
  rewrite Z.mod_small by lia. reflexivity.
Qed.

Lemma step_arena_inv (o : op) (c : client) :
  request_ok o -> arena_inv Size c -> arena_inv Size (step Size o c).
Proof using Size_range.
  intros Hok (Hoff & Hblocks & Hsorted). destruct o as [j size_of count|].
  - cbn [step]. rewrite allocate_outcome by assumption.
    destruct Hok as (Hj & Hs & Hc & Hfit).
    assert (Ha : 0 < 2 ^ Z.of_nat j) by (apply Z.pow_pos_nonneg; lia).
    pose proof (round_up_bounds (Arena.offset_ (fst c)) (2 ^ Z.of_nat j) Ha)
      as [Hr Hmod]. cbn zeta in Hr, Hmod.
    assert (Hsz : 0 <= size_of * count) by nia.
    destruct (Z.ltb_spec Size
                ((Arena.offset_ (fst c) + 2 ^ Z.of_nat j - 1) / 2 ^ Z.of_nat j
                 * 2 ^ Z.of_nat j + size_of * count)) as [Hfull|Hfits].
    + split; [exact Hoff|]. split; assumption.
    + unfold arena_inv. cbn [fst snd Arena.offset_]. split; [lia|]. split.
      * apply Forall_app. split.
        -- eapply Forall_impl; [exact Hblocks|]. cbn beta.
           intros b (H1 & H2 & H3 & H4). split_and!; try assumption. lia.
        -- apply Forall_singleton. cbn [start bytes align].
           split_and!; try assumption; lia.
      * intros i1 i2 b1 b2 Hlt H1 H2.
        apply lookup_snoc_Some in H2 as [[Hi2 H2]|[Hi2 <-]].
        -- rewrite lookup_app_l in H1 by lia. eauto.
        -- rewrite lookup_app_l in H1 by lia.
           apply list_elem_of_lookup_2 in H1.
           rewrite Forall_forall in Hblocks.
           destruct (Hblocks _ H1) as (_ & _ & _ & Hend).
           unfold before. cbn [start]. lia.
  - cbn [step]. unfold arena_inv. cbn [fst snd Arena.reset Arena.offset_].
    split; [lia|]. split; [constructor|].
    intros i1 i2 b1 b2 _ H1. discriminate H1.
Qed.

Lemma run_arena_inv (ops : list op) :
  forall c, Forall request_ok ops -> arena_inv Size c -> arena_inv Size (run Size ops c).
Proof using Size_range.
  induction ops as [|o ops IH]; intros c Hok Hinv; [exact Hinv|].
  apply Forall_cons in Hok as [Ho Hok].
  unfold run. cbn [fold_left]. apply IH; [exact Hok|].
  apply step_arena_inv; assumption.
Qed.

End ArenaProofs.

(** [Arena::allocate] on an arena of at most [2 ^ 62] bytes, for a request
    that does not wrap around: the block returned starts at the first
    multiple of the alignment at or after the bytes in use, ends within the
    buffer, and the bytes in use then end where the block ends; null is
    returned, and the arena left as it is, only when no aligned block of
    that size fits in what remains. *)
Theorem arena_allocate_aligned (Size : Z) (a : Arena.Arena) (j : nat)
    (size_of count : Z) :
  0 <= Size < 2 ^ 62 ->
  0 <= Arena.used a <= Size ->
  ArenaSpec.request_ok (ArenaSpec.Alloc j size_of count) ->
  let alignment := 2 ^ Z.of_nat j in
  let r := Arena.allocate Size alignment size_of count a in
  match fst r with
  | Some ptr =>
      ptr mod alignment = 0 /\
      Arena.used a <= ptr < Arena.used a + alignment /\
      Arena.used (snd r) = ptr + size_of * count /\
      Arena.used (snd r) <= Size
  | None =>
      snd r = a /\
      forall p, Arena.used a <= p -> p mod alignment = 0 ->
                Size < p + size_of * count
  end.
Proof.
  intros HSize Hoff Hok. cbn zeta. unfold Arena.used in *.
  rewrite (allocate_outcome Size HSize a j size_of count Hoff Hok).
  destruct Hok as (Hj & Hs & Hc & Hfit).
  assert (Ha : 0 < 2 ^ Z.of_nat j) by (apply Z.pow_pos_nonneg; lia).
  pose proof (round_up_bounds (Arena.offset_ a) (2 ^ Z.of_nat j) Ha)
    as [Hr Hmod]. cbn zeta in Hr, Hmod.
  destruct (Z.ltb_spec Size
              ((Arena.offset_ a + 2 ^ Z.of_nat j - 1) / 2 ^ Z.of_nat j
               * 2 ^ Z.of_nat j + size_of * count)) as [Hfull|Hfits];
    cbn [fst snd Arena.offset_].
  - split; [reflexivity|]. intros p Hp Hpm.
    pose proof (Z.div_mod p (2 ^ Z.of_nat j) ltac:(lia)) as Hp'.
    rewrite Hpm, Z.add_0_r in Hp'.
    assert (Hlt : (Arena.offset_ a + 2 ^ Z.of_nat j - 1) / 2 ^ Z.of_nat j
                  < p / 2 ^ Z.of_nat j + 1)
      by (apply Z.div_lt_upper_bound; nia).
    nia.
  - split_and!; try assumption; lia.
Qed.

Lemma arena_allocate_aligned_witness :
  let r := Arena.allocate 1024 (2 ^ Z.of_nat 3) 8 4 (Arena.mkArena 13) in
  fst r = Some 16 /\ Arena.used (snd r) = 48.
Proof.
  cbn zeta.
  pose proof (arena_allocate_aligned 1024 (Arena.mkArena 13) 3 8 4
                ltac:(lia) ltac:(cbn; lia)
                ltac:(cbn; lia)) as H.
  cbn zeta in H.
  split; [reflexivity|].
  change (fst (Arena.allocate 1024 (2 ^ Z.of_nat 3) 8 4 (Arena.mkArena 13)))
    with (Some 16) in H.
  destruct H as (_ & _ & Hused & _). exact Hused.
Defined.

(** On an arena of at most [2 ^ 62] bytes, after any sequence of resets and
    of requests that do not wrap around: the bytes in use never exceed the
    buffer, [remaining()] is the buffer size less the bytes in use, and the
    blocks handed out since the last reset start at multiples of their
    alignments, lie within the bytes in use and do not overlap, each lying
    wholly after the ones handed out before it. *)
Theorem arena_blocks_disjoint (Size : Z) (ops : list ArenaSpec.op) :
  0 <= Size < 2 ^ 62 ->
  Forall ArenaSpec.request_ok ops ->
  let c := ArenaSpec.run Size ops (Arena.Arena_new, []) in
  0 <= Arena.used (fst c) <= Size /\
  Arena.remaining Size (fst c) = Size - Arena.used (fst c) /\
  Forall (fun b => 0 <= ArenaSpec.start b /\
                   ArenaSpec.start b mod ArenaSpec.align b = 0 /\
                   ArenaSpec.start b + ArenaSpec.bytes b <= Arena.used (fst c))
         (snd c) /\
  forall i1 i2 b1 b2, (i1 < i2)%nat ->
    snd c !! i1 = Some b1 -> snd c !! i2 = Some b2 ->
    ArenaSpec.start b1 + ArenaSpec.bytes b1 <= ArenaSpec.start b2.
Proof.
  intros HSize Hok. cbn zeta.
  destruct (run_arena_inv Size HSize ops (Arena.Arena_new, []) Hok)
    as (Hoff & Hblocks & Hsorted).
  { split; [cbn; lia|]. split; [constructor|].
    intros i1 i2 b1 b2 _ H1. discriminate H1. }
  unfold Arena.used, Arena.remaining. split; [exact Hoff|]. split.
  - unfold wrapU64. apply Z.mod_small. lia.
  - split; [|exact Hsorted].
    eapply Forall_impl; [exact Hblocks|]. cbn beta.
    intros b (H1 & H2 & H3 & H4). auto.
Qed.

Lemma arena_blocks_disjoint_witness :
  let c := ArenaSpec.run 64
             [ArenaSpec.Alloc 0 1 5; ArenaSpec.Alloc 3 8 2;
              ArenaSpec.Alloc 4 16 3; ArenaSpec.Alloc 2 4 1]
             (Arena.Arena_new, []) in
  snd c = [ArenaSpec.mkBlock 0 5 1; ArenaSpec.mkBlock 8 16 8;
           ArenaSpec.mkBlock 24 4 4] /\
  0 <= Arena.used (fst c) <= 64.
Proof.
  cbn zeta. split; [vm_compute; reflexivity|].
  refine (proj1 (arena_blocks_disjoint 64
                   [ArenaSpec.Alloc 0 1 5; ArenaSpec.Alloc 3 8 2;
                    ArenaSpec.Alloc 4 16 3; ArenaSpec.Alloc 2 4 1] _ _)).
  - lia.
  - repeat constructor; cbn; lia.
Defined.

(* --------------------------------------------------------------------- *)
(** ** [simd::total_liquidity]: the two builds agree *)

Section Liquidity.

Import Simd SimdSpec.

Lemma wrap64_add_l (a b : Z) : wrap64 (wrap64 a + b) = wrap64 (a + b).
Proof.
  unfold wrap64. f_equal.
  replace ((a + 2 ^ 63) mod 2 ^ 64 - 2 ^ 63 + b + 2 ^ 63)
    with ((a + 2 ^ 63) mod 2 ^ 64 + b) by lia.
  rewrite Zplus_mod_idemp_l. f_equal. lia.
Qed.

Lemma wrap64_add_r (a b : Z) : wrap64 (a + wrap64 b) = wrap64 (a + b).
Proof. rewrite Z.add_comm, wrap64_add_l. f_equal. lia. Qed.

Lemma wrap64_add (a b : Z) : wrap64 (wrap64 a + wrap64 b) = wrap64 (a + b).
Proof. rewrite wrap64_add_l, wrap64_add_r. reflexivity. Qed.

Lemma add_quantities_sum (levels : list Book.PriceLevel) (a : Z) :
  add_quantities levels (wrap64 a) = wrap64 (a + sum_quantities levels).
Proof.
  unfold add_quantities, sum_quantities.
  revert a. induction levels as [|l levels IH]; intros a; cbn [fold_left fold_right].
  - rewrite Z.add_0_r. reflexivity.
  - unfold add64 at 2. rewrite wrap64_add_l, IH. f_equal. lia.
Qed.

Lemma add_by_four_sum (n : nat) :
  forall (levels : list Book.PriceLevel) (a0 a1 a2 a3 : Z),
    (length levels <= n)%nat ->
    exists b0 b1 b2 b3 rest,
      add_by_four levels (mk_m256i (wrap64 a0) (wrap64 a1) (wrap64 a2) (wrap64 a3))
      = (mk_m256i (wrap64 b0) (wrap64 b1) (wrap64 b2) (wrap64 b3), rest) /\
      b0 + b1 + b2 + b3 + sum_quantities rest
      = a0 + a1 + a2 + a3 + sum_quantities levels.
Proof.
  induction n as [|n IH]; intros levels a0 a1 a2 a3 Hlen.
  - destruct levels; [|cbn in Hlen; lia].
    exists a0, a1, a2, a3, []. split; reflexivity.
  - destruct levels as [|l0 [|l1 [|l2 [|l3 rest]]]];
      try (eexists a0, a1, a2, a3, _; split; reflexivity).
    cbn [add_by_four].
    unfold mm256_add_epi64, mm256_set_epi64x, add64. cbn [lane0 lane1 lane2 lane3].
    rewrite !wrap64_add_l.
    destruct (IH rest (a0 + Book.quantity l0) (a1 + Book.quantity l1)
                (a2 + Book.quantity l2) (a3 + Book.quantity l3))
      as (b0 & b1 & b2 & b3 & rest' & Hrun & Hsum).
    { cbn in Hlen. lia. }
    exists b0, b1, b2, b3, rest'. split; [exact Hrun|].
    rewrite Hsum. cbn [sum_quantities fold_right]. fold (sum_quantities rest). lia.
Qed.

Lemma total_liquidity_scalar_sum (levels : list Book.PriceLevel) :
  total_liquidity_scalar levels = wrap64 (sum_quantities levels).
Proof.
  unfold total_liquidity_scalar.
  change 0 with (wrap64 0) at 1. rewrite add_quantities_sum. reflexivity.
Qed.

Lemma total_liquidity_avx2_sum (levels : list Book.PriceLevel) :
  total_liquidity_avx2 levels = wrap64 (sum_quantities levels).
Proof.
  unfold total_liquidity_avx2, mm256_setzero_si256.
  destruct (add_by_four_sum (length levels) levels 0 0 0 0 (le_n _))
    as (b0 & b1 & b2 & b3 & rest & Hrun & Hsum).
  change (mk_m256i 0 0 0 0)
    with (mk_m256i (wrap64 0) (wrap64 0) (wrap64 0) (wrap64 0)).
  rewrite Hrun. cbn [mm256_storeu_si256 lane0 lane1 lane2 lane3 fold_left].
  unfold add64. rewrite Z.add_0_l, (wrap64_id (wrap64 b0)) by apply wrap64_range.
  rewrite (wrap64_add b0 b1), (wrap64_add (b0 + b1) b2),
    (wrap64_add (b0 + b1 + b2) b3), add_quantities_sum.
  f_equal. lia.
Qed.

End Liquidity.

(** [simd::total_liquidity] returns the same value whether it is built
    with GODBRAIN_AVX2 or not: the sum of the quantities of the levels,
    reduced into [int64_t]; it is the sum itself when that fits, and 0 for
    no level. *)
Theorem total_liquidity_builds_agree (levels : list Book.PriceLevel) :
  Simd.total_liquidity_avx2 levels = Simd.total_liquidity_scalar levels /\
  Simd.total_liquidity_scalar levels = wrap64 (SimdSpec.sum_quantities levels) /\
  (in_int64 (SimdSpec.sum_quantities levels) ->
   Simd.total_liquidity_avx2 levels = SimdSpec.sum_quantities levels).
Proof.
  rewrite total_liquidity_avx2_sum, total_liquidity_scalar_sum.
  split; [reflexivity|]. split; [reflexivity|]. apply wrap64_id.
Qed.

Lemma total_liquidity_builds_agree_witness :
  let levels := [Book.mkPriceLevel 320000 5 1 0; Book.mkPriceLevel 319900 7 1 0;
                 Book.mkPriceLevel 319800 11 2 0; Book.mkPriceLevel 319700 13 1 0;
                 Book.mkPriceLevel 319600 17 1 0] in
  Simd.total_liquidity_avx2 levels = 53.
Proof.
  intros levels.
  refine (proj2 (proj2 (total_liquidity_builds_agree levels)) _).
  vm_compute. split; discriminate.
Defined.

(* --------------------------------------------------------------------- *)
(** ** ExecutionEngine: rejected orders *)
(* --------------------------------------------------------------------- *)

Section Rejections.
Variable clock : nat -> Timestamp.

(** What [submit_order] leaves alone when it answers 0. *)
Lemma submit_order_rejected_frame (sym : Symbol) (s : Side) (ty : OrderType)
    (qty : QuantityNano) (p stop : PriceMicro) (tf : TimeInForce)
    (e : Engine.ExecutionEngine) :
  Engine.next_order_id_ e <> 0 ->
  let r := Engine.submit_order clock sym s ty qty p stop tf e in
  fst r = 0 ->
  Engine.active_orders_ (snd r) = Engine.active_orders_ e /\
  Engine.positions_ (snd r) = Engine.positions_ e /\
  Engine.order_pool_ (snd r) = Engine.order_pool_ e /\
  Engine.next_order_id_ (snd r) = Engine.next_order_id_ e /\
  Engine.equity_ (snd r) = Engine.equity_ e /\
  Engine.orderbooks_ (snd r) = Engine.orderbooks_ e /\
  exists err msg,
    Engine.events_ (snd r)
    = Engine.events_ e
      ++ [Engine.mkEvent Engine.ORDER_REJECTED 0 sym 0 qty
            (clock (Engine.ticks_ e)) err msg] /\
    (err = RISK_LIMIT_EXCEEDED \/ err = INTERNAL_ERROR).
Proof.
  intros Hnext. cbn zeta. unfold Engine.submit_order.
  destruct (negb (Engine.check_position_risk sym s qty e)).
  { intros _. cbn [fst snd]. split_and!; try reflexivity. eauto. }
  destruct (negb (Engine.check_order_count_risk e)).
  { intros _. cbn [fst snd]. split_and!; try reflexivity. eauto. }
  destruct (Pool.allocate Order_default (Engine.order_pool_ e))
    as [[order|] pool] eqn:Halloc.
  - cbn beta zeta iota delta [Engine.now_ns Engine.set_pool
      Engine.set_active_orders Engine.set_next_order_id Engine.next_order_id_ fst].
    intros E. congruence.
  - intros _. cbn [fst snd].
    assert (Hpool : pool = Engine.order_pool_ e).
    { unfold Pool.allocate, Pool.pop_free in Halloc.
      destruct (Pool.free_list_ (Engine.order_pool_ e)); inversion Halloc.
      reflexivity. }
    subst pool. split_and!; try reflexivity. eauto.
Qed.

End Rejections.

(** An order that [submit_order] answers with id 0 has changed nothing but
    the event log: the order table, the positions, the pool, the next id,
    the equity and the books are as before, and exactly one ORDER_REJECTED
    event was emitted, with order id 0, price 0 and the quantity asked. *)
Theorem rejected_order_changes_nothing (clock : nat -> Timestamp)
    (sym : Symbol) (s : Side) (ty : OrderType)
    (qty : QuantityNano) (p stop : PriceMicro) (tf : TimeInForce)
    (e : Engine.ExecutionEngine) :
  Engine.next_order_id_ e <> 0 ->
  let r := Engine.submit_order clock sym s ty qty p stop tf e in
  fst r = 0 ->
  Engine.active_orders_ (snd r) = Engine.active_orders_ e /\
  Engine.positions_ (snd r) = Engine.positions_ e /\
  Engine.order_pool_ (snd r) = Engine.order_pool_ e /\
  Engine.next_order_id_ (snd r) = Engine.next_order_id_ e /\
  Engine.equity_ (snd r) = Engine.equity_ e /\
  Engine.orderbooks_ (snd r) = Engine.orderbooks_ e /\
  exists err msg,
    Engine.events_ (snd r)
    = Engine.events_ e
      ++ [Engine.mkEvent Engine.ORDER_REJECTED 0 sym 0 qty
            (clock (Engine.ticks_ e)) err msg] /\
    (err = RISK_LIMIT_EXCEEDED \/ err = INTERNAL_ERROR).
Proof. apply submit_order_rejected_frame. Qed.

Lemma rejected_order_changes_nothing_witness :
  let r := Engine.submit_order EngineSpec.tick_clock EngineSpec.DOGE BUY LIMIT
             100000000000001 0 0 GTC EngineSpec.fresh in
  fst r = 0 /\
  Engine.order_pool_ (snd r) = Engine.order_pool_ EngineSpec.fresh /\
  Engine.active_orders_ (snd r) = Engine.active_orders_ EngineSpec.fresh.
Proof.
  cbn zeta.
  assert (Hzero : fst (Engine.submit_order EngineSpec.tick_clock EngineSpec.DOGE
                         BUY LIMIT 100000000000001 0 0 GTC EngineSpec.fresh) = 0)
    by (vm_compute; reflexivity).
  destruct (rejected_order_changes_nothing EngineSpec.tick_clock EngineSpec.DOGE
              BUY LIMIT 100000000000001 0 0 GTC EngineSpec.fresh
              ltac:(vm_compute; discriminate) Hzero)
    as (Hact & _ & Hpool & _).
  split; [exact Hzero|]. split; [exact Hpool|exact Hact].
Defined.

(** The order-count gate: an order that passes the position-size gate is
    rejected when the order table already holds [max_open_orders] entries
    or more, with one ORDER_REJECTED event carrying RISK_LIMIT_EXCEEDED and
    the message of this gate; with fewer entries and a free slot in the
    pool it is accepted under the next id. *)
Theorem order_count_gate (clock : nat -> Timestamp)
    (sym : Symbol) (s : Side) (ty : OrderType)
    (qty : QuantityNano) (p stop : PriceMicro) (tf : TimeInForce)
    (e : Engine.ExecutionEngine) :
  Engine.check_position_risk sym s qty e = true ->
  Z.of_nat (Engine.open_order_count e) < 2 ^ 31 ->
  let r := Engine.submit_order clock sym s ty qty p stop tf e in
  (max_open_orders (Engine.risk_params_ e) <= Z.of_nat (Engine.open_order_count e) ->
   r = (0, Engine.emit_event clock Engine.ORDER_REJECTED 0 sym 0 qty
             RISK_LIMIT_EXCEEDED "Max open orders exceeded" e)) /\
  (Z.of_nat (Engine.open_order_count e) < max_open_orders (Engine.risk_params_ e) ->
   is_Some (fst (Pool.allocate Order_default (Engine.order_pool_ e))) ->
   fst r = Engine.next_order_id_ e).
Proof.
  intros Hpos Hsmall. cbn zeta. unfold Engine.open_order_count in *.
  assert (Hgate : Engine.check_order_count_risk e
                  = (Z.of_nat (size (Engine.active_orders_ e))
                     <? max_open_orders (Engine.risk_params_ e))).
  { unfold Engine.check_order_count_risk, wrap32.
    rewrite Z.mod_small by lia. f_equal. lia. }
  unfold Engine.submit_order. rewrite Hpos, Hgate. cbn [negb]. split.
  - intros Hfull.
    destruct (Z.ltb_spec (Z.of_nat (size (Engine.active_orders_ e)))
                (max_open_orders (Engine.risk_params_ e))); [lia|reflexivity].
  - intros Hroom [ptr Hptr].
    destruct (Z.ltb_spec (Z.of_nat (size (Engine.active_orders_ e)))
                (max_open_orders (Engine.risk_params_ e))); [|lia].
    cbn [negb].
    destruct (Pool.allocate Order_default (Engine.order_pool_ e)) as [[q|] pool];
      [reflexivity|discriminate Hptr].
Qed.

Lemma order_count_gate_witness :
  let e := EngineSpec.after_calls EngineSpec.tick_clock
             (replicate 10
                (EngineSpec.Submit EngineSpec.DOGE BUY LIMIT 1000000000 320000 0 GTC))
             EngineSpec.fresh in
  Engine.open_order_count e = 10%nat /\
  fst (Engine.submit_order EngineSpec.tick_clock EngineSpec.DOGE BUY LIMIT
         1000000000 320000 0 GTC e) = 0.
Proof.
  intros e.
  assert (Hcount : Engine.open_order_count e = 10%nat) by (vm_compute; reflexivity).
  assert (Hpos : Engine.check_position_risk EngineSpec.DOGE BUY 1000000000 e = true)
    by (vm_compute; reflexivity).
  assert (Hsmall : Z.of_nat (Engine.open_order_count e) < 2 ^ 31)
    by (rewrite Hcount; reflexivity).
  assert (Hfull : max_open_orders (Engine.risk_params_ e)
                  <= Z.of_nat (Engine.open_order_count e))
    by (rewrite Hcount; vm_compute; discriminate).
  split; [exact Hcount|].
  exact (f_equal fst
           (proj1 (order_count_gate EngineSpec.tick_clock EngineSpec.DOGE BUY LIMIT
                     1000000000 320000 0 GTC e Hpos Hsmall) Hfull)).
Defined.

(* --------------------------------------------------------------------- *)
(** ** ExecutionEngine: the order table and the pool *)
(* --------------------------------------------------------------------- *)

Section OrderTable.
Import EngineSpec EngineState.
Variable clock : nat -> Timestamp.

(** *** The calls, step by step *)

(** What [update_position] leaves alone. *)
Lemma update_position_frame sym s qty p (e : Engine.ExecutionEngine) :
  let e' := Engine.update_position clock sym s qty p e in
  Engine.order_pool_ e' = Engine.order_pool_ e /\
  Engine.active_orders_ e' = Engine.active_orders_ e /\
  Engine.next_order_id_ e' = Engine.next_order_id_ e /\
  Engine.orderbooks_ e' = Engine.orderbooks_ e /\
  Engine.equity_ e' = Engine.equity_ e /\
  Engine.risk_params_ e' = Engine.risk_params_ e.
Proof.
  cbn zeta. unfold Engine.update_position.
  destruct (Engine.positions_ e !! view sym) as [pos|];
    [|split_and!; reflexivity].
  cbn beta zeta iota delta [Engine.now_ns].
  destruct (is_flat _); split_and!; reflexivity.
Qed.

(** What [update_position] does to the position table. *)
Lemma update_position_positions sym s qty p (e : Engine.ExecutionEngine) :
  Engine.positions_ (Engine.update_position clock sym s qty p e)
  = match Engine.positions_ e !! view sym with
    | None =>
        <[view sym := mkPosition sym (fill_delta s qty) p 0 0
                        (clock (Engine.ticks_ e)) (clock (S (Engine.ticks_ e)))]>
          (Engine.positions_ e)
    | Some pos =>
        let pos' := Engine.touch (clock (Engine.ticks_ e))
                      (Engine.apply_fill pos s qty p) in
        if is_flat pos' then delete (view sym) (Engine.positions_ e)
        else <[view sym := pos']> (Engine.positions_ e)
    end.
Proof.
  unfold Engine.update_position.
  destruct (Engine.positions_ e !! view sym) as [pos|]; [|reflexivity].
  cbn beta zeta iota delta [Engine.now_ns].
  destruct (is_flat _); cbn [Engine.positions_ Engine.set_positions Engine.emit_event
                             Engine.now_ns]; [|reflexivity].
  apply delete_insert_eq.
Qed.

(** The events of [update_position]: one, naming what became of the
    position. *)
Lemma update_position_events sym s qty p (e : Engine.ExecutionEngine) :
  exists ty t msg,
    Engine.events_ (Engine.update_position clock sym s qty p e)
    = Engine.events_ e ++ [Engine.mkEvent ty 0 sym p qty t OK msg] /\
    ty = match Engine.positions_ e !! view sym with
         | None => Engine.POSITION_OPENED
         | Some pos =>
             if pos_quantity (Engine.apply_fill pos s qty p) =? 0
             then Engine.POSITION_CLOSED else Engine.POSITION_UPDATED
         end.
Proof.
  unfold Engine.update_position.
  destruct (Engine.positions_ e !! view sym) as [pos|].
  - cbn beta zeta iota delta [Engine.now_ns].
    unfold is_flat, Engine.touch. cbn [pos_quantity].
    destruct (pos_quantity (Engine.apply_fill pos s qty p) =? 0);
      do 3 eexists; (split; [reflexivity|reflexivity]).
  - do 3 eexists. split; reflexivity.
Qed.

(** [simulate_fill] on the order [o] stored at [order]. *)
Lemma simulate_fill_effect (order : nat) (fp : PriceMicro)
    (e : Engine.ExecutionEngine) :
  let o := Pool.load Order_default (Engine.order_pool_ e) order in
  let stored := Pool.store order (EngineState.filled_order (clock (Engine.ticks_ e)) o)
                  (Engine.order_pool_ e) in
  let e1 := Engine.mkEngine (Engine.risk_params_ e) (Engine.next_order_id_ e)
              (Engine.equity_ e) (Engine.is_running_ e) stored
              (Engine.active_orders_ e) (Engine.positions_ e)
              (Engine.orderbooks_ e) (Engine.events_ e) (S (Engine.ticks_ e)) in
  let e2 := Engine.update_position clock (symbol o) (side o) (quantity o) fp e1 in
  let e' := Engine.simulate_fill clock order fp e in
  Engine.order_pool_ e' = Pool.deallocate (Some order) stored /\
  Engine.active_orders_ e' = delete (id o) (Engine.active_orders_ e) /\
  Engine.next_order_id_ e' = Engine.next_order_id_ e /\
  Engine.positions_ e' = Engine.positions_ e2 /\
  Engine.orderbooks_ e' = Engine.orderbooks_ e /\
  Engine.equity_ e' = Engine.equity_ e /\
  Engine.events_ e'
  = Engine.events_ e2
    ++ [Engine.mkEvent Engine.ORDER_FILLED (id o) (symbol o) fp (quantity o)
          (clock (Engine.ticks_ e2)) OK "Order filled"].
Proof.
  cbn zeta.
  set (o := Pool.load Order_default (Engine.order_pool_ e) order).
  set (stored := Pool.store order _ _).
  set (e1 := Engine.mkEngine _ _ _ _ _ _ _ _ _ _).
  set (e2 := Engine.update_position clock (symbol o) (side o) (quantity o) fp e1).
  pose proof (update_position_frame (symbol o) (side o) (quantity o) fp e1)
    as (Hpool & Hact & Hnext & Hbooks & Heq & _).
  cbn zeta in *. fold e2 in Hpool, Hact, Hnext, Hbooks, Heq.
  split_and!.
  - change (Pool.deallocate (Some order) (Engine.order_pool_ e2)
            = Pool.deallocate (Some order) stored).
    rewrite Hpool. reflexivity.
  - change (delete (id o) (Engine.active_orders_ e2)
            = delete (id o) (Engine.active_orders_ e)).
    rewrite Hact. reflexivity.
  - change (Engine.next_order_id_ e2 = Engine.next_order_id_ e).
    rewrite Hnext. reflexivity.
  - reflexivity.
  - change (Engine.orderbooks_ e2 = Engine.orderbooks_ e).
    rewrite Hbooks. reflexivity.
  - change (Engine.equity_ e2 = Engine.equity_ e).
    rewrite Heq. reflexivity.
  - reflexivity.
Qed.

(** [submit_order] when both gates pass and the pool has a free slot: the
    order is filed under the next id, and a market order is filled at
    once. *)
Lemma submit_order_accepted sym s ty qty p stop tf (e : Engine.ExecutionEngine)
    (ptr : nat) (pool1 : Pool.ObjectPool Order) :
  Engine.check_position_risk sym s qty e = true ->
  Engine.check_order_count_risk e = true ->
  Pool.allocate Order_default (Engine.order_pool_ e) = (Some ptr, pool1) ->
  Engine.submit_order clock sym s ty qty p stop tf e
  = (Engine.next_order_id_ e,
     if is_market ty
     then Engine.simulate_fill clock ptr (fill_price sym s qty p e)
            (submitted clock sym s ty qty p stop tf ptr pool1 e)
     else submitted clock sym s ty qty p stop tf ptr pool1 e).
Proof.
  intros Hpos Hcount Halloc. unfold Engine.submit_order.
  rewrite Hpos, Hcount, Halloc. cbn [negb].
  cbn beta zeta iota delta [Engine.now_ns Engine.set_pool Engine.set_active_orders
                            Engine.set_next_order_id Engine.next_order_id_].
  f_equal. unfold fill_price.
  destruct (is_market ty); [|reflexivity].
  destruct (p =? 0); reflexivity.
Qed.

(** *** The order table and the pool agree *)

Lemma store_pool_inv (N : nat) (p : Pool.ObjectPool Order) (live : gset nat)
    (ptr : nat) (o : Order) :
  PoolSpec.pool_inv N (p, live) -> PoolSpec.pool_inv N (Pool.store ptr o p, live).
Proof.
  intros (free & Hchain & Hnd & Hdisj & Hfree & Hlive & Hcount & Hlen & Hal).
  exists free. cbn [fst snd] in *. unfold Pool.store.
  cbn [Pool.free_list_ Pool.nodes_ Pool.allocated_].
  split_and!; try assumption.
  - eapply chain_ext; [|exact Hchain].
    intros m _. apply node_next_set_storage.
  - rewrite length_set_storage. exact Hlen.
Qed.

Lemma load_store (p : Pool.ObjectPool Order) (ptr m : nat) (o : Order) :
  (ptr < length (Pool.nodes_ p))%nat ->
  Pool.load Order_default (Pool.store ptr o p) m
  = if decide (m = ptr) then o else Pool.load Order_default p m.
Proof.
  intros Hlt. unfold Pool.store. rewrite load_set_storage.
  destruct (decide (m = ptr)); [|reflexivity].
  destruct (lookup_lt_is_Some_2 _ _ Hlt) as [nd ->]. reflexivity.
Qed.

Lemma consistent_new (rp : RiskParams) :
  consistent 0 (Engine.ExecutionEngine_new rp).
Proof.
  exists ∅. cbn [Engine.ExecutionEngine_new Engine.order_pool_
                  Engine.active_orders_ Engine.next_order_id_].
  split_and!.
  - apply (inv_fresh Order_default Engine.ORDER_POOL_SIZE).
    unfold Engine.ORDER_POOL_SIZE. lia.
  - rewrite map_size_empty, size_empty. reflexivity.
  - intros oid ptr H. rewrite lookup_empty in H. discriminate H.
  - lia.
  - lia.
Qed.

Lemma consistent_weaken (n m : Z) (e : Engine.ExecutionEngine) :
  n <= m -> consistent n e -> consistent m e.
Proof.
  intros Hnm (live & H1 & H2 & H3 & H4). exists live. split_and!; auto; lia.
Qed.

(** Only the pool, the table and the next id matter. *)
Lemma consistent_fields (n : Z) (e e' : Engine.ExecutionEngine) :
  Engine.order_pool_ e' = Engine.order_pool_ e ->
  Engine.active_orders_ e' = Engine.active_orders_ e ->
  Engine.next_order_id_ e' = Engine.next_order_id_ e ->
  consistent n e -> consistent n e'.
Proof. unfold consistent. intros -> -> ->. auto. Qed.

Lemma pool_size_fits :
  (0 < Engine.ORDER_POOL_SIZE)%nat /\ Z.of_nat Engine.ORDER_POOL_SIZE < 2 ^ 64.
Proof. unfold Engine.ORDER_POOL_SIZE. lia. Qed.

(** An accepted order that stays in the table. *)
Lemma submitted_consistent n sym s ty qty p stop tf ptr pool1
    (e : Engine.ExecutionEngine) :
  n < 2 ^ 63 ->
  consistent n e ->
  Pool.allocate Order_default (Engine.order_pool_ e) = (Some ptr, pool1) ->
  exists live,
    (ptr ∉ live) /\
    (ptr < length (Pool.nodes_ pool1))%nat /\
    Engine.active_orders_ e !! Engine.next_order_id_ e = None /\
    PoolSpec.pool_inv Engine.ORDER_POOL_SIZE (Engine.order_pool_ e, live) /\
    size (Engine.active_orders_ e) = size live /\
    (forall oid ptr', Engine.active_orders_ e !! oid = Some ptr' ->
       ptr' ∈ live /\
       id (Pool.load Order_default (Engine.order_pool_ e) ptr') = oid /\
       1 <= oid < Engine.next_order_id_ e) /\
    PoolSpec.pool_inv Engine.ORDER_POOL_SIZE
      (Engine.order_pool_ (submitted clock sym s ty qty p stop tf ptr pool1 e),
       {[ptr]} ∪ live) /\
    consistent (n + 1) (submitted clock sym s ty qty p stop tf ptr pool1 e).
Proof.
  intros Hn (live & Hinv & Hsize & Hent & Hnext) Halloc.
  destruct pool_size_fits as [Hpos Hfit].
  pose proof (allocate_inv Order_default Engine.ORDER_POOL_SIZE Hpos Hfit
                (Engine.order_pool_ e, live) Hinv) as Ha.
  cbn [fst snd] in Ha. rewrite Halloc in Ha. destruct Ha as (_ & Hfresh & Hinv1).
  assert (Hlt : (ptr < length (Pool.nodes_ pool1))%nat).
  { destruct Hinv1 as (free & _ & _ & _ & _ & Hlive & _ & Hlen & _).
    cbn [fst snd] in *. rewrite Hlen. apply Hlive.
    apply elem_of_union_l, elem_of_singleton_2. reflexivity. }
  assert (Hnone : Engine.active_orders_ e !! Engine.next_order_id_ e = None).
  { destruct (Engine.active_orders_ e !! Engine.next_order_id_ e) as [q|] eqn:E;
      [|reflexivity].
    destruct (Hent _ _ E) as (_ & _ & Hr). lia. }
  assert (Hinv2 : PoolSpec.pool_inv Engine.ORDER_POOL_SIZE
            (Engine.order_pool_ (submitted clock sym s ty qty p stop tf ptr pool1 e),
             {[ptr]} ∪ live))
    by (apply store_pool_inv, Hinv1).
  exists live. split_and!; try assumption.
  exists ({[ptr]} ∪ live). split; [exact Hinv2|].
  unfold submitted.
  cbn [Engine.order_pool_ Engine.active_orders_ Engine.next_order_id_].
  assert (Hw : wrapU64 (Engine.next_order_id_ e + 1) = Engine.next_order_id_ e + 1)
    by (unfold wrapU64; apply Z.mod_small; lia).
  rewrite Hw. split_and!.
  - rewrite map_size_insert_None by exact Hnone.
    rewrite size_add_fresh by exact Hfresh. lia.
  - intros oid ptr' Hin. apply lookup_insert_Some in Hin as [[<- <-]|[Hne Hin]].
    + split; [apply elem_of_union_l, elem_of_singleton_2; reflexivity|].
      rewrite load_store by exact Hlt.
      rewrite decide_True by reflexivity. cbn [id]. split; [reflexivity|lia].
    + destruct (Hent _ _ Hin) as (Hl & Hid & Hr).
      assert (ptr' <> ptr) by (intros ->; contradiction).
      split; [apply elem_of_union_r, Hl|]. rewrite load_store by exact Hlt.
      rewrite decide_False by assumption.
      rewrite (load_allocate Order_default _ _ _ ptr' Halloc).
      * rewrite decide_False by assumption. split; [exact Hid|lia].
      * destruct Hinv as (free & _ & _ & _ & _ & _ & _ & Hlen & _).
        destruct Hinv1 as (free1 & _ & _ & _ & _ & Hlive1 & _ & _ & _).
        cbn [fst snd] in *. rewrite Hlen. apply Hlive1.
        apply elem_of_union_l, elem_of_singleton_2. reflexivity.
  - lia.
  - lia.
Qed.

Lemma remove_added (ptr : nat) (live : gset nat) :
  ptr ∉ live -> ({[ptr]} ∪ live) ∖ {[ptr]} = live.
Proof.
  intros Hfresh. apply set_eq. intros x.
  rewrite elem_of_difference, elem_of_union, elem_of_singleton. split.
  - intros [[->|Hx] Hne]; [contradiction|exact Hx].
  - intros Hx. split; [right; exact Hx|]. intros ->. contradiction.
Qed.

(** An accepted market order: filled at once, it leaves the table and the
    pool as they were. *)
Lemma filled_consistent n sym s ty qty p stop tf ptr pool1 fp
    (e : Engine.ExecutionEngine) :
  n < 2 ^ 63 ->
  consistent n e ->
  Pool.allocate Order_default (Engine.order_pool_ e) = (Some ptr, pool1) ->
  let e' := Engine.simulate_fill clock ptr fp
              (submitted clock sym s ty qty p stop tf ptr pool1 e) in
  Pool.load Order_default
    (Engine.order_pool_ (submitted clock sym s ty qty p stop tf ptr pool1 e)) ptr
  = mkOrder (Engine.next_order_id_ e) (clock (Engine.ticks_ e))
            (clock (Engine.ticks_ e)) sym p stop qty 0 s ty tf PENDING /\
  Engine.active_orders_ e' = Engine.active_orders_ e /\
  Engine.next_order_id_ e' = Engine.next_order_id_ e + 1 /\
  Pool.allocated (Engine.order_pool_ e') = Pool.allocated (Engine.order_pool_ e) /\
  consistent (n + 1) e'.
Proof.
  intros Hn Hcons Halloc. cbn zeta.
  destruct (submitted_consistent n sym s ty qty p stop tf ptr pool1 e Hn Hcons Halloc)
    as (live & Hfresh & Hlt & Hnone & Hinv & Hsize & Hent & Hinv2 & _).
  destruct Hcons as (_ & _ & _ & _ & Hnext).
  destruct pool_size_fits as [Hpos Hfit].
  set (e6 := submitted clock sym s ty qty p stop tf ptr pool1 e) in *.
  assert (Hload : Pool.load Order_default (Engine.order_pool_ e6) ptr
                  = mkOrder (Engine.next_order_id_ e) (clock (Engine.ticks_ e))
                      (clock (Engine.ticks_ e)) sym p stop qty 0 s ty tf PENDING).
  { unfold e6, submitted. cbn [Engine.order_pool_].
    rewrite load_store by exact Hlt. rewrite decide_True by reflexivity.
    reflexivity. }
  destruct (simulate_fill_effect ptr fp e6)
    as (Hpool & Hact & Hnext' & _ & _ & _ & _). cbn zeta in *.
  rewrite Hload in Hpool, Hact. cbn [id] in Hact.
  assert (Hw : wrapU64 (Engine.next_order_id_ e + 1) = Engine.next_order_id_ e + 1)
    by (unfold wrapU64; apply Z.mod_small; lia).
  assert (Hact' : Engine.active_orders_ (Engine.simulate_fill clock ptr fp e6)
                  = Engine.active_orders_ e).
  { rewrite Hact. unfold e6, submitted. cbn [Engine.active_orders_].
    apply delete_insert_id, Hnone. }
  assert (Hnext'' : Engine.next_order_id_ (Engine.simulate_fill clock ptr fp e6)
                    = Engine.next_order_id_ e + 1).
  { rewrite Hnext'. unfold e6, submitted. cbn [Engine.next_order_id_]. exact Hw. }
  assert (Hinv3 : PoolSpec.pool_inv Engine.ORDER_POOL_SIZE
            (Engine.order_pool_ (Engine.simulate_fill clock ptr fp e6), live)).
  { rewrite Hpool. rewrite <- (remove_added ptr live Hfresh).
    refine (proj1 (deallocate_inv Engine.ORDER_POOL_SIZE Hpos Hfit
                     (_, {[ptr]} ∪ live) ptr _ _)).
    - apply store_pool_inv, Hinv2.
    - apply elem_of_union_l, elem_of_singleton_2. reflexivity. }
  split; [exact Hload|]. split; [exact Hact'|]. split; [exact Hnext''|]. split.
  - destruct Hinv3 as (f3 & _ & _ & _ & _ & _ & _ & _ & Hal3).
    destruct Hinv as (f0 & _ & _ & _ & _ & _ & _ & _ & Hal0).
    cbn [fst snd] in *. unfold Pool.allocated. rewrite Hal3, Hal0. reflexivity.
  - exists live. split; [exact Hinv3|]. rewrite Hact', Hnext''.
    split; [exact Hsize|]. split; [|lia].
    intros oid ptr' Hin. destruct (Hent _ _ Hin) as (Hl & Hid & Hr).
    assert (ptr' <> ptr) by (intros ->; contradiction).
    split; [exact Hl|]. split; [|lia].
    rewrite Hpool, load_deallocate.
    rewrite load_store
      by (unfold e6, submitted; cbn [Engine.order_pool_]; unfold Pool.store;
          cbn [Pool.nodes_]; rewrite length_set_storage; exact Hlt).
    rewrite decide_False by assumption.
    unfold e6, submitted. cbn [Engine.order_pool_].
    rewrite load_store by exact Hlt. rewrite decide_False by assumption.
    rewrite (load_allocate Order_default _ _ _ ptr' Halloc).
    + rewrite decide_False by assumption. exact Hid.
    + destruct Hinv as (f0 & _ & _ & _ & _ & _ & _ & Hlen & _).
      destruct Hinv2 as (f2 & _ & _ & _ & _ & Hlive2 & _ & _ & _).
      cbn [fst snd] in *. rewrite Hlen. apply Hlive2.
      apply elem_of_union_l, elem_of_singleton_2. reflexivity.
Qed.

(** [submit_order] keeps the table and the pool in agreement. *)
Lemma submit_order_consistent n sym s ty qty p stop tf (e : Engine.ExecutionEngine) :
  n < 2 ^ 63 ->
  consistent n e ->
  consistent (n + 1) (snd (Engine.submit_order clock sym s ty qty p stop tf e)).
Proof.
  intros Hn Hcons.
  destruct (Engine.check_position_risk sym s qty e) eqn:Hpos.
  2:{ unfold Engine.submit_order. rewrite Hpos. cbn [negb snd].
      eapply consistent_fields; [reflexivity..|].
      eapply consistent_weaken; [|exact Hcons]. lia. }
  destruct (Engine.check_order_count_risk e) eqn:Hcount.
  2:{ unfold Engine.submit_order. rewrite Hpos, Hcount. cbn [negb snd].
      eapply consistent_fields; [reflexivity..|].
      eapply consistent_weaken; [|exact Hcons]. lia. }
  destruct (Pool.allocate Order_default (Engine.order_pool_ e))
    as [[ptr|] pool1] eqn:Halloc.
  - rewrite (submit_order_accepted sym s ty qty p stop tf e ptr pool1 Hpos Hcount Halloc).
    cbn [snd]. destruct (is_market ty).
    + apply (filled_consistent n sym s ty qty p stop tf ptr pool1 _ e Hn Hcons Halloc).
    + destruct (submitted_consistent n sym s ty qty p stop tf ptr pool1 e Hn Hcons Halloc)
        as (live & _ & _ & _ & _ & _ & _ & _ & H). exact H.
  - unfold Engine.submit_order. rewrite Hpos, Hcount, Halloc. cbn [negb snd].
    assert (Hpool : pool1 = Engine.order_pool_ e).
    { unfold Pool.allocate, Pool.pop_free in Halloc.
      destruct (Pool.free_list_ (Engine.order_pool_ e)); inversion Halloc.
      reflexivity. }
    subst pool1.
    eapply consistent_fields; [reflexivity..|].
    eapply consistent_weaken; [|exact Hcons]. lia.
Qed.

Lemma do_call_consistent n (c : call) (e : Engine.ExecutionEngine) :
  n < 2 ^ 63 ->
  consistent n e -> no_active_order e ->
  consistent (n + 1) (do_call clock c e).
Proof.
  intros Hn Hcons Hno. destruct c; cbn [do_call].
  - apply submit_order_consistent; assumption.
  - rewrite cancel_order_refused by exact Hno. cbn [snd].
    eapply consistent_weaken; [|exact Hcons]. lia.
  - unfold Engine.close_position.
    destruct (Engine.positions_ e !! view sym) as [pos|];
      [|eapply consistent_weaken; [|exact Hcons]; lia].
    destruct (is_flat pos); [eapply consistent_weaken; [|exact Hcons]; lia|].
    cbn [snd]. apply submit_order_consistent; assumption.
  - eapply consistent_fields; [reflexivity..|].
    eapply consistent_weaken; [|exact Hcons]. lia.
  - eapply consistent_fields; [reflexivity..|].
    eapply consistent_weaken; [|exact Hcons]. lia.
Qed.

Lemma after_calls_consistent (cs : list call) :
  forall n e,
    n + Z.of_nat (length cs) < 2 ^ 63 ->
    consistent n e -> no_active_order e ->
    consistent (n + Z.of_nat (length cs)) (after_calls clock cs e) /\
    no_active_order (after_calls clock cs e).
Proof.
  induction cs as [|c cs IH]; intros n e Hn Hcons Hno.
  - cbn [length after_calls fold_left]. rewrite Z.add_0_r. auto.
  - cbn [length] in *. unfold after_calls in *. cbn [fold_left].
    replace (n + Z.of_nat (S (length cs))) with (n + 1 + Z.of_nat (length cs)) by lia.
    apply IH; [lia| |].
    + apply do_call_consistent; [lia|assumption..].
    + apply no_active_do_call, Hno.
Qed.

(** Every engine a client can reach from a new one. *)
Lemma reachable_consistent (rp : RiskParams) (cs : list call) :
  Z.of_nat (length cs) < 2 ^ 63 ->
  consistent (Z.of_nat (length cs))
    (after_calls clock cs (Engine.ExecutionEngine_new rp)) /\
  no_active_order (after_calls clock cs (Engine.ExecutionEngine_new rp)).
Proof.
  intros Hn.
  apply (after_calls_consistent cs 0 (Engine.ExecutionEngine_new rp));
    [lia|apply consistent_new|].
  apply pool_inactive_new.
Qed.

(** *** Market orders *)

(** [submit_order] answers 0 when a gate or the pool refuses. *)
Lemma submit_order_refused sym s ty qty p stop tf (e : Engine.ExecutionEngine) :
  Engine.check_position_risk sym s qty e = false \/
  Engine.check_order_count_risk e = false \/
  fst (Pool.allocate Order_default (Engine.order_pool_ e)) = None ->
  fst (Engine.submit_order clock sym s ty qty p stop tf e) = 0.
Proof.
  unfold Engine.submit_order. intros [H|[H|H]].
  - rewrite H. reflexivity.
  - destruct (negb (Engine.check_position_risk sym s qty e)); [reflexivity|].
    rewrite H. reflexivity.
  - destruct (negb (Engine.check_position_risk sym s qty e)); [reflexivity|].
    destruct (negb (Engine.check_order_count_risk e)); [reflexivity|].
    destruct (Pool.allocate Order_default (Engine.order_pool_ e)) as [[ptr|] pool1];
      [discriminate H|reflexivity].
Qed.

(** An order answered with an id other than 0 passed both gates and got a
    slot. *)
Lemma submit_order_passed sym s ty qty p stop tf (e : Engine.ExecutionEngine) :
  fst (Engine.submit_order clock sym s ty qty p stop tf e) <> 0 ->
  Engine.check_position_risk sym s qty e = true /\
  Engine.check_order_count_risk e = true /\
  exists ptr pool1,
    Pool.allocate Order_default (Engine.order_pool_ e) = (Some ptr, pool1).
Proof.
  intros Hid.
  destruct (Engine.check_position_risk sym s qty e) eqn:Hpos;
    [|destruct Hid; apply submit_order_refused; auto].
  destruct (Engine.check_order_count_risk e) eqn:Hcount;
    [|destruct Hid; apply submit_order_refused; auto].
  destruct (Pool.allocate Order_default (Engine.order_pool_ e))
    as [[ptr|] pool1] eqn:Halloc;
    [|destruct Hid; apply submit_order_refused; rewrite Halloc; auto].
  eauto.
Qed.

(** What an accepted market order does. *)
Lemma accepted_market_order n sym s qty p stop tf (e : Engine.ExecutionEngine) :
  n < 2 ^ 63 ->
  consistent n e ->
  let r := Engine.submit_order clock sym s MARKET qty p stop tf e in
  let fp := fill_price sym s qty p e in
  let t := Engine.ticks_ e in
  fst r <> 0 ->
  fst r = Engine.next_order_id_ e /\
  Engine.active_orders_ (snd r) = Engine.active_orders_ e /\
  Pool.allocated (Engine.order_pool_ (snd r))
  = Pool.allocated (Engine.order_pool_ e) /\
  Engine.positions_ (snd r)
  = match Engine.positions_ e !! view sym with
    | None =>
        <[view sym := mkPosition sym (fill_delta s qty) fp 0 0
                        (clock (3 + t)%nat) (clock (4 + t)%nat)]>
          (Engine.positions_ e)
    | Some pos =>
        let pos' := Engine.touch (clock (3 + t)%nat)
                      (Engine.apply_fill pos s qty fp) in
        if is_flat pos' then delete (view sym) (Engine.positions_ e)
        else <[view sym := pos']> (Engine.positions_ e)
    end /\
  exists ty tp msg tf',
    Engine.events_ (snd r)
    = Engine.events_ e
      ++ [Engine.mkEvent Engine.ORDER_SUBMITTED (fst r) sym p qty
            (clock (1 + t)%nat) OK "Order submitted";
          Engine.mkEvent ty 0 sym fp qty tp OK msg;
          Engine.mkEvent Engine.ORDER_FILLED (fst r) sym fp qty tf' OK
            "Order filled"] /\
    ty = match Engine.positions_ e !! view sym with
         | None => Engine.POSITION_OPENED
         | Some pos =>
             if pos_quantity (Engine.apply_fill pos s qty fp) =? 0
             then Engine.POSITION_CLOSED else Engine.POSITION_UPDATED
         end.
Proof.
  intros Hn Hcons. cbn zeta. intros Hid.
  destruct (submit_order_passed _ _ _ _ _ _ _ _ Hid)
    as (Hpos & Hcount & ptr & pool1 & Halloc).
  rewrite (submit_order_accepted sym s MARKET qty p stop tf e ptr pool1
             Hpos Hcount Halloc) in *.
  cbn [fst snd is_market] in *.
  destruct (filled_consistent n sym s MARKET qty p stop tf ptr pool1
              (fill_price sym s qty p e) e Hn Hcons Halloc)
    as (Hload & Hact & _ & Hal & _). cbn zeta in *.
  set (e6 := submitted clock sym s MARKET qty p stop tf ptr pool1 e) in *.
  destruct (simulate_fill_effect ptr (fill_price sym s qty p e) e6)
    as (_ & _ & _ & Hposn & _ & _ & Hev). cbn zeta in *.
  rewrite Hload in Hposn, Hev. cbn [symbol side quantity id] in Hposn, Hev.
  split; [reflexivity|]. split; [exact Hact|]. split; [exact Hal|]. split.
  - rewrite Hposn, update_position_positions. reflexivity.
  - rewrite Hev.
    match goal with
    | |- context [Engine.update_position clock sym s qty ?fp ?e1] =>
        destruct (update_position_events sym s qty fp e1)
          as (ty & tp & msg & Hev2 & Hty)
    end.
    rewrite Hev2. exists ty, tp, msg. eexists. split; [|exact Hty].
    unfold e6, submitted. cbn [Engine.events_]. rewrite <- !app_assoc.
    reflexivity.
Qed.

End OrderTable.

(* --------------------------------------------------------------------- *)
(** ** The engine after any sequence of calls *)
(* --------------------------------------------------------------------- *)

(** After any sequence of calls on a new engine, the pool holds one live
    order object per entry of the order table: [allocated()] of the pool
    equals [open_order_count()] and [available()] is 10000 less that
    count; the order a table entry points to carries the id it is filed
    under, no two entries share an object, and every id in the table is at
    least 1 and below the next id to be given. *)
Theorem order_table_matches_pool (clock : nat -> Timestamp) (rp : RiskParams)
    (cs : list EngineSpec.call) :
  Z.of_nat (length cs) < 2 ^ 63 ->
  let e := EngineSpec.after_calls clock cs (Engine.ExecutionEngine_new rp) in
  Pool.allocated (Engine.order_pool_ e) = Z.of_nat (Engine.open_order_count e) /\
  Pool.available Engine.ORDER_POOL_SIZE (Engine.order_pool_ e)
  = Z.of_nat Engine.ORDER_POOL_SIZE - Z.of_nat (Engine.open_order_count e) /\
  (forall oid ptr, Engine.active_orders_ e !! oid = Some ptr ->
     id (Pool.load Order_default (Engine.order_pool_ e) ptr) = oid /\
     1 <= oid < Engine.next_order_id_ e) /\
  (forall oid1 oid2 ptr,
     Engine.active_orders_ e !! oid1 = Some ptr ->
     Engine.active_orders_ e !! oid2 = Some ptr -> oid1 = oid2).
Proof.
  intros Hn. cbn zeta.
  destruct (reachable_consistent clock rp cs Hn)
    as [(live & Hinv & Hsize & Hent & Hnext) _].
  destruct Hinv as (free & _ & _ & _ & _ & _ & Hcount & _ & Hal).
  cbn [fst snd] in *. unfold Engine.open_order_count, Pool.allocated, Pool.available.
  rewrite Hal, Hsize. split; [reflexivity|]. split.
  - unfold Pool.allocated. rewrite Hal. unfold wrapU64.
    apply Z.mod_small. unfold Engine.ORDER_POOL_SIZE in *. lia.
  - split.
    + intros oid ptr Hin. destruct (Hent _ _ Hin) as (_ & Hid & Hr). auto.
    + intros oid1 oid2 ptr H1 H2.
      destruct (Hent _ _ H1) as (_ & Hid1 & _).
      destruct (Hent _ _ H2) as (_ & Hid2 & _). congruence.
Qed.

Lemma order_table_matches_pool_witness :
  let e := EngineSpec.after_calls EngineSpec.tick_clock
             [EngineSpec.Submit EngineSpec.DOGE BUY LIMIT 1000000000 320000 0 GTC;
              EngineSpec.Submit EngineSpec.DOGE BUY MARKET 1000000000 320000 0 GTC;
              EngineSpec.Submit EngineSpec.DOGE SELL LIMIT 1000000000 330000 0 GTC]
             EngineSpec.fresh in
  Engine.open_order_count e = 2%nat /\
  Pool.allocated (Engine.order_pool_ e) = Z.of_nat (Engine.open_order_count e).
Proof.
  cbn zeta. split; [vm_compute; reflexivity|].
  refine (proj1 (order_table_matches_pool EngineSpec.tick_clock RiskParams_default
                   [EngineSpec.Submit EngineSpec.DOGE BUY LIMIT 1000000000 320000 0 GTC;
                    EngineSpec.Submit EngineSpec.DOGE BUY MARKET 1000000000 320000 0 GTC;
                    EngineSpec.Submit EngineSpec.DOGE SELL LIMIT 1000000000 330000 0 GTC]
                   _)).
  cbn. lia.
Defined.

(** Order ids are given in sequence and never twice: on an engine reached
    from a new one, [submit_order] either rejects (id 0, the next id
    unchanged) or answers with the next id, which is at least 1 and not in
    the order table, and moves the next id one up. *)
Theorem order_ids_in_sequence (clock : nat -> Timestamp) (rp : RiskParams)
    (cs : list EngineSpec.call) (sym : Symbol) (s : Side) (ty : OrderType)
    (qty : QuantityNano) (p stop : PriceMicro) (tf : TimeInForce) :
  Z.of_nat (length cs) < 2 ^ 63 ->
  let e := EngineSpec.after_calls clock cs (Engine.ExecutionEngine_new rp) in
  let r := Engine.submit_order clock sym s ty qty p stop tf e in
  1 <= Engine.next_order_id_ e <= 1 + Z.of_nat (length cs) /\
  ((fst r = 0 /\ Engine.next_order_id_ (snd r) = Engine.next_order_id_ e) \/
   (fst r = Engine.next_order_id_ e /\
    Engine.active_orders_ e !! fst r = None /\
    Engine.next_order_id_ (snd r) = fst r + 1)).
Proof.
  intros Hn. cbn zeta.
  destruct (reachable_consistent clock rp cs Hn) as [Hcons _].
  set (e := EngineSpec.after_calls clock cs (Engine.ExecutionEngine_new rp)) in *.
  assert (Hnext : 1 <= Engine.next_order_id_ e <= 1 + Z.of_nat (length cs))
    by (destruct Hcons as (live & _ & _ & _ & H); exact H).
  split; [exact Hnext|].
  destruct (Z.eq_dec (fst (Engine.submit_order clock sym s ty qty p stop tf e)) 0)
    as [Hzero|Hid].
  - left. split; [exact Hzero|].
    apply (submit_order_rejected_frame clock sym s ty qty p stop tf e);
      [lia|exact Hzero].
  - right.
    destruct (submit_order_passed clock _ _ _ _ _ _ _ _ Hid)
      as (Hpos & Hcount & ptr & pool1 & Halloc).
    destruct (submitted_consistent clock _ sym s ty qty p stop tf ptr pool1 e
                Hn Hcons Halloc) as (live & _ & _ & Hnone & _).
    rewrite (submit_order_accepted clock sym s ty qty p stop tf e ptr pool1
               Hpos Hcount Halloc).
    cbn [fst snd]. split; [reflexivity|]. split; [exact Hnone|].
    assert (Hw : wrapU64 (Engine.next_order_id_ e + 1) = Engine.next_order_id_ e + 1)
      by (unfold wrapU64; apply Z.mod_small; lia).
    destruct (is_market ty).
    + destruct (simulate_fill_effect clock ptr
                  (EngineState.fill_price sym s qty p e)
                  (EngineState.submitted clock sym s ty qty p stop tf ptr pool1 e))
        as (_ & _ & Hnx & _). cbn zeta in Hnx. rewrite Hnx. exact Hw.
    + exact Hw.
Qed.

Lemma order_ids_in_sequence_witness :
  let cs := [EngineSpec.Submit EngineSpec.DOGE BUY MARKET 1000000000 320000 0 GTC;
             EngineSpec.Submit EngineSpec.DOGE BUY LIMIT 100000000000001 0 0 GTC;
             EngineSpec.Submit EngineSpec.DOGE BUY LIMIT 1000000000 320000 0 GTC] in
  let e := EngineSpec.after_calls EngineSpec.tick_clock cs
             (Engine.ExecutionEngine_new RiskParams_default) in
  1 <= Engine.next_order_id_ e <= 1 + Z.of_nat (length cs).
Proof.
  intros cs e.
  refine (proj1 (order_ids_in_sequence EngineSpec.tick_clock RiskParams_default cs
                   EngineSpec.DOGE BUY LIMIT 1000000000 320000 0 GTC _)).
  cbn. lia.
Defined.

(** A market order that is accepted is filled within the call: on an engine
    reached from a new one it gets the next id, it is in the order table no
    more once [submit_order] returns, and the pool has its slot back; the
    position of the symbol is opened at the fill price, or updated by the
    fill, or removed when the fill brings it to zero, and no other position
    changes; three events are emitted, ORDER_SUBMITTED, then what became of
    the position, then ORDER_FILLED at the fill price. The fill price is
    the price given with the order, or the estimate from the book when that
    price is 0. *)
Theorem market_order_fills_at_once (clock : nat -> Timestamp) (rp : RiskParams)
    (cs : list EngineSpec.call) (sym : Symbol) (s : Side)
    (qty : QuantityNano) (p stop : PriceMicro) (tf : TimeInForce) :
  Z.of_nat (length cs) < 2 ^ 63 ->
  let e := EngineSpec.after_calls clock cs (Engine.ExecutionEngine_new rp) in
  let r := Engine.submit_order clock sym s MARKET qty p stop tf e in
  let fp := EngineState.fill_price sym s qty p e in
  let t := Engine.ticks_ e in
  fst r <> 0 ->
  fst r = Engine.next_order_id_ e /\
  Engine.active_orders_ (snd r) = Engine.active_orders_ e /\
  Pool.allocated (Engine.order_pool_ (snd r))
  = Pool.allocated (Engine.order_pool_ e) /\
  Engine.positions_ (snd r)
  = match Engine.positions_ e !! view sym with
    | None =>
        <[view sym := mkPosition sym (EngineState.fill_delta s qty) fp 0 0
                        (clock (3 + t)%nat) (clock (4 + t)%nat)]>
          (Engine.positions_ e)
    | Some pos =>
        let pos' := Engine.touch (clock (3 + t)%nat)
                      (Engine.apply_fill pos s qty fp) in
        if is_flat pos' then delete (view sym) (Engine.positions_ e)
        else <[view sym := pos']> (Engine.positions_ e)
    end /\
  exists ty tp msg tf',
    Engine.events_ (snd r)
    = Engine.events_ e
      ++ [Engine.mkEvent Engine.ORDER_SUBMITTED (fst r) sym p qty
            (clock (1 + t)%nat) OK "Order submitted";
          Engine.mkEvent ty 0 sym fp qty tp OK msg;
          Engine.mkEvent Engine.ORDER_FILLED (fst r) sym fp qty tf' OK
            "Order filled"] /\
    ty = match Engine.positions_ e !! view sym with
         | None => Engine.POSITION_OPENED
         | Some pos =>
             if pos_quantity (Engine.apply_fill pos s qty fp) =? 0
             then Engine.POSITION_CLOSED else Engine.POSITION_UPDATED
         end.
Proof.
  intros Hn. cbn zeta.
  destruct (reachable_consistent clock rp cs Hn) as [Hcons _].
  apply (accepted_market_order clock _ sym s qty p stop tf _ Hn Hcons).
Qed.

Lemma market_order_fills_at_once_witness :
  let e := EngineSpec.after_calls EngineSpec.tick_clock []
             (Engine.ExecutionEngine_new RiskParams_default) in
  let r := Engine.submit_order EngineSpec.tick_clock EngineSpec.DOGE BUY MARKET
             1000000000 320000 0 GTC e in
  fst r = 1 /\ Engine.active_orders_ (snd r) = Engine.active_orders_ e.
Proof.
  intros e r.
  assert (Hid : fst r <> 0) by (vm_compute; discriminate).
  destruct (market_order_fills_at_once EngineSpec.tick_clock RiskParams_default []
              EngineSpec.DOGE BUY 1000000000 320000 0 GTC
              ltac:(cbn; lia) Hid) as (Hfst & Hact & _).
  split; [exact Hfst|exact Hact].
Defined.

(* --------------------------------------------------------------------- *)
(** ** Closing a position *)

Section ClosePosition.

Variable clock : nat -> Timestamp.

(** The closing order of [close_position] brings the quantity to zero. *)
Lemma apply_fill_closes (pos : Position) (fp : PriceMicro) :
  - 2 ^ 63 < pos_quantity pos < 2 ^ 63 ->
  pos_quantity pos <> 0 ->
  pos_quantity
    (Engine.apply_fill pos (if is_long pos then SELL else BUY)
       (abs64 (pos_quantity pos)) fp) = 0.
Proof.
  intros Hrange Hq. unfold Engine.apply_fill, is_long.
  destruct (Z.ltb_spec 0 (pos_quantity pos)) as [Hpos|Hneg].
  - assert (Habs : abs64 (pos_quantity pos) = pos_quantity pos).
    { unfold abs64. destruct (Z.ltb_spec (pos_quantity pos) 0); [lia|reflexivity]. }
    rewrite Habs.
    assert (Hd : neg64 (pos_quantity pos) = - pos_quantity pos).
    { unfold neg64. apply wrap64_id. unfold in_int64, INT64_MIN, INT64_MAX. lia. }
    rewrite Hd.
    assert (Hsum : add64 (pos_quantity pos) (- pos_quantity pos) = 0).
    { unfold add64. replace (pos_quantity pos + - pos_quantity pos) with 0 by lia.
      reflexivity. }
    destruct ((0 <=? pos_quantity pos) && (0 <? - pos_quantity pos)
              || (pos_quantity pos <=? 0) && (- pos_quantity pos <? 0)) eqn:Hc.
    + exfalso.
      apply orb_true_iff in Hc. destruct Hc as [Hc|Hc];
        apply andb_true_iff in Hc; destruct Hc as [H1 H2].
      * apply Z.ltb_lt in H2. lia.
      * apply Z.leb_le in H1. lia.
    + cbn [pos_quantity]. exact Hsum.
  - assert (Habs : abs64 (pos_quantity pos) = - pos_quantity pos).
    { unfold abs64. destruct (Z.ltb_spec (pos_quantity pos) 0); [|lia].
      unfold neg64. apply wrap64_id. unfold in_int64, INT64_MIN, INT64_MAX. lia. }
    rewrite Habs.
    assert (Hsum : add64 (pos_quantity pos) (- pos_quantity pos) = 0).
    { unfold add64. replace (pos_quantity pos + - pos_quantity pos) with 0 by lia.
      reflexivity. }
    destruct ((0 <=? pos_quantity pos) && (0 <? - pos_quantity pos)
              || (pos_quantity pos <=? 0) && (- pos_quantity pos <? 0)) eqn:Hc.
    + exfalso.
      apply orb_true_iff in Hc. destruct Hc as [Hc|Hc];
        apply andb_true_iff in Hc; destruct Hc as [H1 H2].
      * apply Z.leb_le in H1. lia.
      * apply Z.ltb_lt in H2. lia.
    + cbn [pos_quantity]. exact Hsum.
Qed.

Lemma close_position_effect n (sym : Symbol) (pos : Position)
    (e : Engine.ExecutionEngine) :
  n < 2 ^ 63 ->
  EngineState.consistent n e ->
  Engine.get_position sym e = Some pos ->
  - 2 ^ 63 < pos_quantity pos < 2 ^ 63 ->
  pos_quantity pos <> 0 ->
  let order := Engine.submit_order clock sym (if is_long pos then SELL else BUY)
                 MARKET (abs64 (pos_quantity pos)) 0 0 GTC e in
  let r := Engine.close_position clock sym e in
  fst r = true /\
  snd r = snd order /\
  (fst order = 0 -> Engine.positions_ (snd r) = Engine.positions_ e) /\
  (fst order <> 0 ->
   Engine.positions_ (snd r) = delete (view sym) (Engine.positions_ e)).
Proof.
  intros Hn Hcons Hget Hrange Hq. cbn zeta.
  unfold Engine.get_position in Hget.
  assert (Hnext : 1 <= Engine.next_order_id_ e)
    by (destruct Hcons as (live & _ & _ & _ & H); lia).
  assert (Hclose :
    Engine.close_position clock sym e
    = (true, snd (Engine.submit_order clock sym (if is_long pos then SELL else BUY)
                    MARKET (abs64 (pos_quantity pos)) 0 0 GTC e))).
  { unfold Engine.close_position. rewrite Hget.
    unfold is_flat. destruct (Z.eqb_spec (pos_quantity pos) 0); [lia|reflexivity]. }
  rewrite Hclose. cbn [fst snd].
  split; [reflexivity|]. split; [reflexivity|]. split.
  - intros Hzero.
    apply (submit_order_rejected_frame clock sym _ MARKET _ 0 0 GTC e);
      [lia|exact Hzero].
  - intros Hid.
    destruct (accepted_market_order clock n sym _ _ 0 0 GTC e Hn Hcons Hid)
      as (_ & _ & _ & Hp & _).
    rewrite Hp, Hget. cbn zeta.
    unfold is_flat, Engine.touch. cbn [pos_quantity].
    rewrite (apply_fill_closes pos _ Hrange Hq). reflexivity.
Qed.

End ClosePosition.

(** [close_position] on a symbol whose position is not flat returns true
    whatever becomes of the closing order it submits (a market order on the
    other side for the absolute quantity, with no price). When that order
    is rejected the position stays as it was; when it is accepted the
    position is removed and no other position changes. The quantity is not
    INT64_MIN, whose absolute value does not fit. *)
Theorem close_position_outcomes (clock : nat -> Timestamp) (rp : RiskParams)
    (cs : list EngineSpec.call) (sym : Symbol) (pos : Position) :
  Z.of_nat (length cs) < 2 ^ 63 ->
  let e := EngineSpec.after_calls clock cs (Engine.ExecutionEngine_new rp) in
  Engine.get_position sym e = Some pos ->
  - 2 ^ 63 < pos_quantity pos < 2 ^ 63 ->
  pos_quantity pos <> 0 ->
  let order := Engine.submit_order clock sym (if is_long pos then SELL else BUY)
                 MARKET (abs64 (pos_quantity pos)) 0 0 GTC e in
  let r := Engine.close_position clock sym e in
  fst r = true /\
  snd r = snd order /\
  (fst order = 0 -> Engine.positions_ (snd r) = Engine.positions_ e) /\
  (fst order <> 0 ->
   Engine.positions_ (snd r) = delete (view sym) (Engine.positions_ e)).
Proof.
  intros Hn. cbn zeta.
  destruct (reachable_consistent clock rp cs Hn) as [Hcons _].
  apply (close_position_effect clock _ sym pos _ Hn Hcons).
Qed.

Lemma close_position_outcomes_witness :
  let cs := [EngineSpec.Submit EngineSpec.DOGE BUY MARKET 1000000000 320000 0 GTC] in
  let e := EngineSpec.after_calls EngineSpec.tick_clock cs
             (Engine.ExecutionEngine_new RiskParams_default) in
  let r := Engine.close_position EngineSpec.tick_clock EngineSpec.DOGE e in
  Engine.position_count e = 1%nat /\
  fst r = true /\
  Engine.positions_ (snd r) = delete (view EngineSpec.DOGE) (Engine.positions_ e).
Proof.
  intros cs e r.
  pose (pos := mkPosition EngineSpec.DOGE 1000000000 320000 0 0 3 4).
  assert (Hcount : Engine.position_count e = 1%nat) by (vm_compute; reflexivity).
  assert (Hget : Engine.get_position EngineSpec.DOGE e = Some pos)
    by (vm_compute; reflexivity).
  assert (Hrange : - 2 ^ 63 < pos_quantity pos < 2 ^ 63) by (cbn; lia).
  assert (Hq : pos_quantity pos <> 0) by (cbn; lia).
  assert (Hid : fst (Engine.submit_order EngineSpec.tick_clock EngineSpec.DOGE
                       (if is_long pos then SELL else BUY) MARKET
                       (abs64 (pos_quantity pos)) 0 0 GTC e) <> 0)
    by (vm_compute; discriminate).
  pose proof (close_position_outcomes EngineSpec.tick_clock RiskParams_default cs
                EngineSpec.DOGE pos ltac:(cbn; lia) Hget Hrange Hq)
    as (Htrue & _ & _ & Hacc).
  split; [exact Hcount|]. split; [exact Htrue|]. exact (Hacc Hid).
Defined.
